(** * smash-kill-clipper: frame scoring, temporal clustering, segment planning

    A shallow embedding of the TypeScript sources
      - [utils/deduplication.ts]: [deduplicateKillScreens] and
        [analyzeDetectionClusters] (in the source tree at hand the text
        follows [src/utils/file.ts], whose line numbers are used below);
      - [analysis/global-red-detection.ts]: [detectGlobalRed];
      - [detection/detector.ts]: [KillScreenDetector];
      - [video/processor.ts]: [VideoProcessor.createVideoSegments] (the text
        follows [src/types/index.ts], whose line numbers are used below);
      - [generate-video.ts]: [generateVideo].
    Further on, [VideoProcessor.extractAndConcatenateSegments] of
    [video/processor.ts], [processVideo] of [index.ts] and [detectOnly] of
    [detect-only.ts] are embedded as well, the last two from the extracted
    frame paths on.

    Numbers.  A JavaScript [number] that holds a count, an index or a byte
    is a [nat] or a [Z]; a [number] that holds a time, a ratio or a score is
    an exact rational [Q].  The rounding of IEEE-754 doubles, NaN and the
    infinities are outside this model: every division below is guarded (in
    the code or by a hypothesis) so that its divisor is not zero, and
    equalities between scores are equalities of rationals ([==]).

    Effects.  Console output is left out.  The image decoder is a parameter
    that resolves or rejects; reading and parsing the project file happens
    before [generateVideo] as embedded here, and slicing and encoding after
    it.  The slicer is a computation over the list of the calls it makes on
    the file system and on ffmpeg; which of them fail is a parameter.  The
    clusterer is embedded twice: over lists of samples, and over a
    store of shared objects ([Store]) in which arrays are updated in
    place; the second is proved to compute what the first computes. *)

From Stdlib Require Import String Ascii.
From stdpp Require Import base option list pretty.
From Stdlib Require Import ZArith QArith Qminmax Qabs Qround Lqa Lia List Sorted Permutation.
Import ListNotations.

Local Open Scope Q_scope.

(** ** JavaScript helpers *)

(** [a > b] on numbers. *)
Definition Qgtb (a b : Q) : bool := if Qlt_le_dec b a then true else false.

(** A [length] or a counter read as a number. *)
Definition ofNat (n : nat) : Q := inject_Z (Z.of_nat n).

(** [Array.prototype.sort(compareFn)]: ECMAScript (since 2019) asks for a
    stable sort, so that the result is determined by the input and the
    comparator; insertion from the right is such a sort ([Array_sort_perm],
    [Array_sort_sorted] and [Array_sort_stable] below).  [compareFn a b <= 0]
    keeps [a] in front of [b]. *)
Section ArraySort.
Context {A : Type} (compareFn : A -> A -> Q).

Fixpoint sortInsert (x : A) (l : list A) : list A :=
  match l with
  | [] => [x]
  | y :: r => if Qgtb (compareFn x y) 0 then y :: sortInsert x r else x :: y :: r
  end.

Definition Array_sort (l : list A) : list A := fold_right sortInsert [] l.
End ArraySort.

(** [Array.prototype.reduce(f)] without an initial value: a TypeError on the
    empty array ([None]), otherwise a left fold seeded with the first
    element. *)
Definition Array_reduce1 {A : Type} (f : A -> A -> A) (l : list A) : option A :=
  match l with
  | [] => None
  | x :: r => Some (fold_left f r x)
  end.

(** ** types/index.ts *)

Record KillScreenTimestamp := mkKillScreenTimestamp {
  frameNumber : Z;
  timeInSeconds : Q;
  confidence : Q
}.

Module VideoSegment.
Record t := mk { startTime : Q; endTime : Q; duration : Q }.
End VideoSegment.

(** ** utils/deduplication.ts *)

Record KillScreenCluster := mkKillScreenCluster {
  startTime : Q;
  endTime : Q;
  detections : list KillScreenTimestamp;
  averageConfidence : Q;
  peakConfidence : Q
}.

(** The object literal that opens a cluster (lines 68-74 and 139-145). *)
Definition openCluster (killScreen : KillScreenTimestamp) : KillScreenCluster :=
  {| startTime := timeInSeconds killScreen;
     endTime := timeInSeconds killScreen;
     detections := [killScreen];
     averageConfidence := confidence killScreen;
     peakConfidence := confidence killScreen |}.

(** The [else] branch (lines 77-83 and 147-152): the current cluster is
    extended in place. *)
Definition extendCluster (currentCluster : KillScreenCluster)
    (killScreen : KillScreenTimestamp) : KillScreenCluster :=
  let detections' := detections currentCluster ++ [killScreen] in
  let totalConfidence :=
    fold_left (fun sum d => sum + confidence d) detections' 0 in
  {| startTime := startTime currentCluster;
     endTime := timeInSeconds killScreen;
     detections := detections';
     averageConfidence := totalConfidence / ofNat (length detections');
     peakConfidence := Qmax (peakConfidence currentCluster) (confidence killScreen) |}.

(** The loop state: the [clusters] array and [currentCluster] ([None] for
    [null]). *)
Definition loopState : Type := list KillScreenCluster * option KillScreenCluster.

(** One iteration of the loop of [deduplicateKillScreens] (lines 59-85). *)
Definition dedupStep (mergeWindowSeconds : Q) (st : loopState)
    (killScreen : KillScreenTimestamp) : loopState :=
  let (clusters, currentCluster) := st in
  match currentCluster with
  | None => (clusters, Some (openCluster killScreen))
  | Some cur =>
      if Qgtb (timeInSeconds killScreen - endTime cur) mergeWindowSeconds
      then (clusters ++ [cur], Some (openCluster killScreen))
      else (clusters, Some (extendCluster cur killScreen))
  end.

(** Lines 87-90 and 156-158: the last cluster is pushed. *)
Definition closeLoop (st : loopState) : list KillScreenCluster :=
  match snd st with
  | Some cur => fst st ++ [cur]
  | None => fst st
  end.

(** Step 2 of [deduplicateKillScreens]: lines 56-90. *)
Definition dedupClusters (mergeWindowSeconds : Q)
    (sortedKillScreens : list KillScreenTimestamp) : list KillScreenCluster :=
  closeLoop (fold_left (dedupStep mergeWindowSeconds) sortedKillScreens ([], None)).

Definition compareByTime (a b : KillScreenTimestamp) : Q :=
  timeInSeconds a - timeInSeconds b.

(** The [reduce] callback of line 99-101. *)
Definition better (best current : KillScreenTimestamp) : KillScreenTimestamp :=
  if Qgtb (confidence current) (confidence best) then current else best.

(** The body of the filtering loop (lines 95-112); [None] is the TypeError
    of [reduce] on an empty [detections] array. *)
Definition filterStep (minConsecutiveDetections : Z)
    (filteredKillScreens : list KillScreenTimestamp) (cluster : KillScreenCluster)
    : option (list KillScreenTimestamp) :=
  if (minConsecutiveDetections <=? Z.of_nat (length (detections cluster)))%Z then
    representative ← Array_reduce1 better (detections cluster);
    let continuityBonus := Qmin (1 # 10) (ofNat (length (detections cluster)) * (2 # 100)) in
    let enhancedConfidence := Qmin 1 (confidence representative + continuityBonus) in
    Some (filteredKillScreens ++
          [ {| frameNumber := frameNumber representative;
               timeInSeconds := timeInSeconds representative;
               confidence := enhancedConfidence |} ])
  else Some filteredKillScreens.

Definition filterClusters (minConsecutiveDetections : Z)
    (clusters : list KillScreenCluster) : option (list KillScreenTimestamp) :=
  fold_left (fun acc cluster => filtered ← acc; filterStep minConsecutiveDetections filtered cluster)
            clusters (Some []).

(** [deduplicateKillScreens] (lines 45-115).  The two default arguments of
    the source (2 and 2) are passed explicitly by every caller. *)
Definition deduplicateKillScreens (killScreens : list KillScreenTimestamp)
    (mergeWindowSeconds : Q) (minConsecutiveDetections : Z)
    : option (list KillScreenTimestamp) :=
  if (length killScreens =? 0)%nat then Some []
  else
    let sortedKillScreens := Array_sort compareByTime killScreens in
    let clusters := dedupClusters mergeWindowSeconds sortedKillScreens in
    filterClusters minConsecutiveDetections clusters.

Definition sampleC2 : list KillScreenTimestamp :=
  [ mkKillScreenTimestamp 500 (1000 # 10) (82 # 100);
    mkKillScreenTimestamp 501 (1002 # 10) (85 # 100);
    mkKillScreenTimestamp 502 (1004 # 10) (79 # 100) ].

(** The result object of [analyzeDetectionClusters]. *)
Record ClusterAnalysis := mkClusterAnalysis {
  totalClusters : nat;
  averageClusterSize : Q;
  maxClusterSize : nat;
  clusters : list KillScreenCluster
}.

(** One iteration of the loop of [analyzeDetectionClusters] (lines 131-154);
    the window is the literal [2] of line 133. *)
Definition analyzeStep (st : loopState) (killScreen : KillScreenTimestamp) : loopState :=
  let (clusters, currentCluster) := st in
  match currentCluster with
  | None => (clusters, Some (openCluster killScreen))
  | Some cur =>
      if Qgtb (timeInSeconds killScreen - endTime cur) 2
      then (clusters ++ [cur], Some (openCluster killScreen))
      else (clusters, Some (extendCluster cur killScreen))
  end.

(** [Math.max(...sizes)] on array lengths.  On the empty array JavaScript
    answers [-Infinity]; line 165 is reached with a non-empty [clusters]
    array only (lemma [analyzeLoop_nonempty] below). *)
Definition Math_max (sizes : list nat) : nat := fold_right Nat.max 0%nat sizes.

(** [analyzeDetectionClusters] (lines 117-168). *)
Definition analyzeDetectionClusters (killScreens : list KillScreenTimestamp)
    : ClusterAnalysis :=
  if (length killScreens =? 0)%nat then
    {| totalClusters := 0; averageClusterSize := 0; maxClusterSize := 0; clusters := [] |}
  else
    let sortedKillScreens := Array_sort compareByTime killScreens in
    let clusters := closeLoop (fold_left analyzeStep sortedKillScreens ([], None)) in
    let clusterSizes := map (fun c => length (detections c)) clusters in
    {| totalClusters := length clusters;
       averageClusterSize :=
         ofNat (fold_left (fun sum size => (sum + size)%nat) clusterSizes 0%nat)
         / ofNat (length clusters);
       maxClusterSize := Math_max clusterSizes;
       clusters := clusters |}.

(** ** video/processor.ts *)

(** [VideoProcessor.createVideoSegments] (lines 158-164). *)
Definition createVideoSegments (timestamps : list KillScreenTimestamp)
    (beforeSeconds afterSeconds : Q) : list VideoSegment.t :=
  map (fun timestamp =>
         {| VideoSegment.startTime := Qmax 0 (timeInSeconds timestamp - beforeSeconds);
            VideoSegment.endTime := timeInSeconds timestamp + afterSeconds;
            VideoSegment.duration := beforeSeconds + afterSeconds |})
      timestamps.

(** ** types/detection.ts *)

Module DetectionEntry.
Record clusterInfo_t := mkClusterInfo {
  originalDetections : Z;
  timeRangeStart : Q;
  timeRangeEnd : Q
}.
Record t := mk {
  id : Z;
  timeInSeconds : Q;
  frameNumber : Z;
  confidence : Q;
  enabled : bool;
  note : option string;
  clusterInfo : option clusterInfo_t
}.
End DetectionEntry.

Module DetectionProject.
Record processingOptions_t := mkProcessingOptions {
  confidenceThreshold : Q;
  beforeSeconds : Q;
  afterSeconds : Q;
  frameRate : Q;
  scaleWidth : Z
}.
Record statistics_t := mkStatistics {
  totalFrames : Z;
  rawDetections : Z;
  clusteredDetections : Z;
  finalDetections : Z;
  averageClusterSize : Q;
  maxClusterSize : Z
}.
Record t := mk {
  version : string;
  inputVideo : string;
  createdAt : string;
  processingOptions : processingOptions_t;
  statistics : statistics_t;
  detections : list DetectionEntry.t
}.
End DetectionProject.

(** ** generate-video.ts *)

(** The command-line options of the generation run.  [before] and [after]
    hold the value [parseFloat] reads from the option when it is given. *)
Record GenerateOptions := mkGenerateOptions {
  input : option string;
  output : option string;
  before : option Q;
  after : option Q;
  preview : bool
}.

(** [a || b] on an optional string: the empty string is falsy. *)
Definition orElse (a : option string) (b : string) : string :=
  match a with
  | Some s => if String.eqb s "" then b else s
  | None => b
  end.

(** [s.replace(pattern, replacement)] with a string pattern: the first
    occurrence only. *)
Fixpoint String_replace (pattern replacement s : string) : string :=
  if String.prefix pattern s
  then replacement ++ String.substring (String.length pattern)
                                       (String.length s - String.length pattern) s
  else match s with
       | EmptyString => EmptyString
       | String c r => String c (String_replace pattern replacement r)
       end.

(** What a generation run does after the project file is read: it stops
    when no detection is enabled (line 60-63), stops in preview mode (line
    88-91), and otherwise hands the input path, the segments and the output
    path to [extractAndConcatenateSegments] (line 107-111). *)
Inductive GenerateOutcome :=
| NoEnabledDetections
| PreviewOnly
| Concatenate (inputVideoPath : string) (segments : list VideoSegment.t) (outputPath : string).

(** [generateVideo] (lines 33-126), from the parsed project on. *)
Definition generateVideo (detectionFile : string) (project : DetectionProject.t)
    (options : GenerateOptions) : GenerateOutcome :=
  let inputVideoPath := orElse (input options) (DetectionProject.inputVideo project) in
  let outputPath :=
    orElse (output options) (String_replace ".json" "_clips.mp4" detectionFile) in
  let beforeSeconds :=
    match before options with
    | Some b => b
    | None => DetectionProject.beforeSeconds (DetectionProject.processingOptions project)
    end in
  let afterSeconds :=
    match after options with
    | Some a => a
    | None => DetectionProject.afterSeconds (DetectionProject.processingOptions project)
    end in
  let enabledDetections :=
    filter (fun d => DetectionEntry.enabled d) (DetectionProject.detections project) in
  if (length enabledDetections =? 0)%nat then NoEnabledDetections
  else if preview options then PreviewOnly
  else
    let segments :=
      map (fun detection =>
             {| VideoSegment.startTime :=
                  Qmax 0 (DetectionEntry.timeInSeconds detection - beforeSeconds);
                VideoSegment.endTime := DetectionEntry.timeInSeconds detection + afterSeconds;
                VideoSegment.duration := beforeSeconds + afterSeconds |})
          enabledDetections in
    Concatenate inputVideoPath segments outputPath.

(** The segment list a run hands to the slicer (none when it stops early). *)
Definition plannedSegments (outcome : GenerateOutcome) : list VideoSegment.t :=
  match outcome with
  | Concatenate _ segments _ => segments
  | _ => []
  end.

(** The hand edit the operator makes in the project file: a record gets
    [enabled = false]; its other fields stay. *)
Definition disable (d : DetectionEntry.t) : DetectionEntry.t :=
  {| DetectionEntry.id := DetectionEntry.id d;
     DetectionEntry.timeInSeconds := DetectionEntry.timeInSeconds d;
     DetectionEntry.frameNumber := DetectionEntry.frameNumber d;
     DetectionEntry.confidence := DetectionEntry.confidence d;
     DetectionEntry.enabled := false;
     DetectionEntry.note := DetectionEntry.note d;
     DetectionEntry.clusterInfo := DetectionEntry.clusterInfo d |}.

Definition withDetections (project : DetectionProject.t)
    (ds : list DetectionEntry.t) : DetectionProject.t :=
  {| DetectionProject.version := DetectionProject.version project;
     DetectionProject.inputVideo := DetectionProject.inputVideo project;
     DetectionProject.createdAt := DetectionProject.createdAt project;
     DetectionProject.processingOptions := DetectionProject.processingOptions project;
     DetectionProject.statistics := DetectionProject.statistics project;
     DetectionProject.detections := ds |}.

(** ** analysis/global-red-detection.ts *)

(** What [sharp(imagePath).raw().toBuffer({ resolveWithObject: true })]
    resolves to: the raw bytes and the image geometry. *)
Record RawInfo := mkRawInfo { width : nat; height : nat; channels : nat }.
Record RawImage := mkRawImage { data : list Byte.byte; info : RawInfo }.

(** [data[i]] on a [Buffer]: a byte as a number, [undefined] ([None]) out of
    range. *)
Definition byteAt (data : list Byte.byte) (i : nat) : option Z :=
  (fun b => Z.of_N (Byte.to_N b)) <$> data !! i.

(** [a > b] where an operand may be [undefined]: the comparison is then
    false. *)
Definition gtU (a b : option Z) : bool :=
  match a, b with
  | Some x, Some y => (y <? x)%Z
  | _, _ => false
  end.

(** The numeric value of an operand known to be defined. *)
Definition numberOf (a : option Z) : Z := default 0%Z a.

(** [for (let i = lo; i < hi; i++)]. *)
Definition range (lo hi : nat) : list nat := seq lo (hi - lo).

Record RedCell := mkRedCell {
  cellX : nat;
  cellY : nat;
  redRatio : Q;
  avgRedIntensity : Q
}.

(** The counters of one grid cell (lines 46-48). *)
Record CellCounters := mkCellCounters {
  cellRedPixels : nat;
  cellTotalPixels : nat;
  cellRedIntensity : Z
}.

(** The accumulators that live across cells (lines 33-36). *)
Record FrameCounters := mkFrameCounters {
  totalRedPixels : nat;
  redIntensities : list Z;
  redCells : list RedCell
}.

(** The body of the pixel loop (lines 52-66). *)
Definition pixelStep (data : list Byte.byte) (width channels : nat) (y : nat)
    (st : CellCounters * FrameCounters) (x : nat) : CellCounters * FrameCounters :=
  let (cell, frame) := st in
  let pixelOffset := ((y * width + x) * channels)%nat in
  let r := byteAt data pixelOffset in
  let g := byteAt data (pixelOffset + 1) in
  let b := byteAt data (pixelOffset + 2) in
  if gtU r g && gtU r b && gtU r (Some 100%Z) then
    let redIntensity := (numberOf r - Z.max (numberOf g) (numberOf b))%Z in
    ({| cellRedPixels := S (cellRedPixels cell);
        cellTotalPixels := S (cellTotalPixels cell);
        cellRedIntensity := (cellRedIntensity cell + redIntensity)%Z |},
     {| totalRedPixels := S (totalRedPixels frame);
        redIntensities := redIntensities frame ++ [redIntensity];
        redCells := redCells frame |})
  else
    ({| cellRedPixels := cellRedPixels cell;
        cellTotalPixels := S (cellTotalPixels cell);
        cellRedIntensity := cellRedIntensity cell |},
     frame).

(** The body of the cell loop (lines 41-76). *)
Definition cellStep (data : list Byte.byte) (width height channels : nat)
    (cellWidth cellHeight : nat) (gridY : nat) (frame : FrameCounters) (gridX : nat)
    : FrameCounters :=
  let startX := (gridX * cellWidth)%nat in
  let startY := (gridY * cellHeight)%nat in
  let endX := Nat.min (startX + cellWidth) width in
  let endY := Nat.min (startY + cellHeight) height in
  let '(cell, frame') :=
    fold_left (fun st y => fold_left (pixelStep data width channels y) (range startX endX) st)
              (range startY endY)
              ({| cellRedPixels := 0; cellTotalPixels := 0; cellRedIntensity := 0 |}, frame) in
  let cellRedRatio :=
    if (0 <? cellTotalPixels cell)%nat
    then ofNat (cellRedPixels cell) / ofNat (cellTotalPixels cell) else 0 in
  {| totalRedPixels := totalRedPixels frame';
     redIntensities := redIntensities frame';
     redCells := redCells frame' ++
       [ {| cellX := gridX; cellY := gridY; redRatio := cellRedRatio;
            avgRedIntensity :=
              if (0 <? cellRedPixels cell)%nat
              then inject_Z (cellRedIntensity cell) / ofNat (cellRedPixels cell) else 0 |} ] |}.

(** The grid scan (lines 29-78). *)
Definition scanGrid (raw : RawImage) : FrameCounters :=
  let width := width (info raw) in
  let height := height (info raw) in
  let gridSize := 3%nat in
  let cellWidth := (width / gridSize)%nat in
  let cellHeight := (height / gridSize)%nat in
  fold_left (fun frame gridY =>
               fold_left (cellStep (data raw) width height (channels (info raw))
                                   cellWidth cellHeight gridY)
                         (range 0 gridSize) frame)
            (range 0 gridSize)
            {| totalRedPixels := 0; redIntensities := []; redCells := [] |}.

Record GlobalRedDetails := mkGlobalRedDetails {
  globalRedCoverage : Q;
  globalRedCoverageScore : Q;
  redUniformity : Q;
  redUniformityScore : Q;
  redIntensity : Q;
  redIntensityScore : Q;
  nonRedArea : Q;
  nonRedAreaScore : Q
}.

Record GlobalRedResult := mkGlobalRedResult {
  filename : string;
  isKillScreen : bool;
  killScore : Q;
  details : GlobalRedDetails
}.

(** [imagePath.split('/').pop() || '']: what follows the last slash. *)
Fixpoint lastPathSegment (s current : string) : string :=
  match s with
  | EmptyString => current
  | String c r =>
      if Ascii.eqb c "/"%char then lastPathSegment r EmptyString
      else lastPathSegment r (current ++ String c EmptyString)
  end.

(** The four sub-scores and the result object (lines 27 and 80-119). *)
Definition scoreFrame (raw : RawImage) (imagePath : string) : GlobalRedResult :=
  let totalPixels := (width (info raw) * height (info raw))%nat in
  let gridSize := 3%nat in
  let frame := scanGrid raw in
  let globalRedCoverage := ofNat (totalRedPixels frame) / ofNat totalPixels in
  let globalRedCoverageScore := Qmin 1 (globalRedCoverage * 2) in
  let redCellCount :=
    length (filter (fun cell => Qgtb (redRatio cell) (3 # 10)) (redCells frame)) in
  let redUniformity := ofNat redCellCount / ofNat (gridSize * gridSize) in
  let redUniformityScore := redUniformity in
  let avgRedIntensity :=
    if (0 <? length (redIntensities frame))%nat
    then inject_Z (fold_left (fun sum intensity => (sum + intensity)%Z)
                             (redIntensities frame) 0%Z)
         / ofNat (length (redIntensities frame))
    else 0 in
  let redIntensityScore := Qmin 1 (avgRedIntensity / 100) in
  let nonRedArea := 1 - globalRedCoverage in
  let nonRedAreaScore := Qmax 0 (1 - nonRedArea * 3) in
  let killScore :=
    globalRedCoverageScore * (4 # 10) +
    redUniformityScore * (3 # 10) +
    redIntensityScore * (2 # 10) +
    nonRedAreaScore * (1 # 10) in
  {| filename := lastPathSegment imagePath EmptyString;
     isKillScreen := Qgtb killScore (8 # 10);
     killScore := killScore;
     details :=
       {| globalRedCoverage := globalRedCoverage;
          globalRedCoverageScore := globalRedCoverageScore;
          redUniformity := redUniformity;
          redUniformityScore := redUniformityScore;
          redIntensity := avgRedIntensity;
          redIntensityScore := redIntensityScore;
          nonRedArea := nonRedArea;
          nonRedAreaScore := nonRedAreaScore |} |}.

(** An awaited promise: it resolves to a value or rejects with a reason. *)
Inductive Settled (A : Type) : Type :=
| Resolved (value : A)
| Rejected (reason : string).
Arguments Resolved {A} value.
Arguments Rejected {A} reason.

Module DetectionResult.
Record t := mk { isKillScreen : bool; confidence : Q; frameNumber : Z }.
End DetectionResult.

Section Detection.
(** The image decoder [sharp(imagePath).raw().toBuffer(...)], an external
    collaborator: it resolves to a raw image or rejects. *)
Variable sharpRaw : string -> Settled RawImage.

(** [detectGlobalRed] (lines 21-120): the only [await] is the decoder's;
    nothing after it throws. *)
Definition detectGlobalRed (imagePath : string) : Settled GlobalRedResult :=
  match sharpRaw imagePath with
  | Resolved raw => Resolved (scoreFrame raw imagePath)
  | Rejected reason => Rejected reason
  end.

(** ** detection/detector.ts *)

(** [KillScreenDetector.detectKillScreen] (lines 7-24). *)
Definition detectKillScreen (imagePath : string) (frameNumber : Z) : DetectionResult.t :=
  match detectGlobalRed imagePath with
  | Resolved detection =>
      {| DetectionResult.isKillScreen := isKillScreen detection;
         DetectionResult.confidence := killScore detection;
         DetectionResult.frameNumber := frameNumber |}
  | Rejected _ =>
      {| DetectionResult.isKillScreen := false;
         DetectionResult.confidence := 0;
         DetectionResult.frameNumber := frameNumber |}
  end.

(** [KillScreenDetector.batchDetect] (lines 26-45): the loop state is the
    index [i] and the [results] array. *)
Definition batchStep (st : nat * list DetectionResult.t) (imagePath : string)
    : nat * list DetectionResult.t :=
  let (i, results) := st in
  let frameNumber := Z.of_nat i in
  let result := detectKillScreen imagePath frameNumber in
  (S i, results ++ [result]).

Definition batchDetect (imagePaths : list string) : list DetectionResult.t :=
  snd (fold_left batchStep imagePaths (0%nat, [])).
End Detection.

(** A frame in which every pixel is pure red, with [channels] bytes per
    pixel (the bytes after the third are zero). *)
Definition redPixel (channels : nat) : list Byte.byte :=
  take channels ([Byte.xff; Byte.x00; Byte.x00] ++ repeat Byte.x00 (channels - 3)).

Definition allRedFrame (width height channels : nat) : RawImage :=
  {| data := concat (repeat (redPixel channels) (width * height));
     info := {| width := width; height := height; channels := channels |} |}.

(** ** The clusterer over a store of shared objects

    [deduplicateKillScreens] and [analyzeDetectionClusters] receive a
    reference to an array of references to sample objects, and JavaScript's
    [sort] works in place.  To speak about what the two functions do to
    their argument, they are embedded a second time over a store: the
    caller's array and the sample objects are store cells, the spread
    [[...killScreens]] allocates a new array cell holding the same
    references, [sort] overwrites the cell it is called on, and the object
    spread [{...representative, confidence}] allocates a new sample object.
    Cluster objects are created by the functions themselves from fresh
    literals and are never reachable from the argument; they stay local
    values whose [detections] hold references into the store. *)
Module Store.

(** A reference is an index into the store. *)
Abbreviation ref := nat (only parsing).

Inductive cell :=
| Sample (s : KillScreenTimestamp)
| Arr (elems : list ref).

Abbreviation heap := (list cell) (only parsing).

(** A new object or array literal. *)
Definition alloc (h : heap) (c : cell) : ref * heap := (length h, h ++ [c]).

(** Reading the fields of a sample object. *)
Definition getSample (h : heap) (r : ref) : option KillScreenTimestamp :=
  match h !! r with
  | Some (Sample s) => Some s
  | _ => None
  end.

(** Reading the elements of an array. *)
Definition getArr (h : heap) (r : ref) : option (list ref) :=
  match h !! r with
  | Some (Arr elems) => Some elems
  | _ => None
  end.

(** A reference together with the fields read through it. *)
Definition deref (h : heap) (r : ref) : option (KillScreenTimestamp * ref) :=
  s ← getSample h r; Some (s, r).

Definition samplesAt (h : heap) (refs : list ref) : option (list KillScreenTimestamp) :=
  mapM (getSample h) refs.

(** [arr.sort((a, b) => a.timeInSeconds - b.timeInSeconds)]: the array
    cell [arr] is overwritten with its references in sorted order. *)
Definition sortInPlace (h : heap) (arr : ref) : option heap :=
  elems ← getArr h arr;
  keyed ← mapM (deref h) elems;
  Some (<[arr := Arr (map snd (Array_sort (fun a b => compareByTime (fst a) (fst b)) keyed))]> h).

(** [arr.push(x)]. *)
Definition push (h : heap) (arr : ref) (x : ref) : option heap :=
  elems ← getArr h arr;
  Some (<[arr := Arr (elems ++ [x])]> h).

Record Cluster := mkCluster {
  startTime : Q;
  endTime : Q;
  detections : list ref;
  averageConfidence : Q;
  peakConfidence : Q
}.

Abbreviation loopState := (list Cluster * option Cluster)%type (only parsing).

Definition openCluster (h : heap) (killScreen : ref) : option Cluster :=
  k ← getSample h killScreen;
  Some {| startTime := timeInSeconds k;
          endTime := timeInSeconds k;
          detections := [killScreen];
          averageConfidence := confidence k;
          peakConfidence := confidence k |}.

Definition extendCluster (h : heap) (currentCluster : Cluster) (killScreen : ref)
    : option Cluster :=
  k ← getSample h killScreen;
  let detections' := detections currentCluster ++ [killScreen] in
  ds ← samplesAt h detections';
  let totalConfidence := fold_left (fun sum d => sum + confidence d) ds 0 in
  Some {| startTime := startTime currentCluster;
          endTime := timeInSeconds k;
          detections := detections';
          averageConfidence := totalConfidence / ofNat (length detections');
          peakConfidence := Qmax (peakConfidence currentCluster) (confidence k) |}.

(** One iteration of the merge loop; the store is only read. *)
Definition dedupStep (h : heap) (mergeWindowSeconds : Q) (st : option loopState)
    (killScreen : ref) : option loopState :=
  '(clusters, currentCluster) ← st;
  k ← getSample h killScreen;
  match currentCluster with
  | None => c ← openCluster h killScreen; Some (clusters, Some c)
  | Some cur =>
      if Qgtb (timeInSeconds k - endTime cur) mergeWindowSeconds
      then c ← openCluster h killScreen; Some (clusters ++ [cur], Some c)
      else c ← extendCluster h cur killScreen; Some (clusters, Some c)
  end.

Definition analyzeStep (h : heap) (st : option loopState) (killScreen : ref)
    : option loopState :=
  '(clusters, currentCluster) ← st;
  k ← getSample h killScreen;
  match currentCluster with
  | None => c ← openCluster h killScreen; Some (clusters, Some c)
  | Some cur =>
      if Qgtb (timeInSeconds k - endTime cur) 2
      then c ← openCluster h killScreen; Some (clusters ++ [cur], Some c)
      else c ← extendCluster h cur killScreen; Some (clusters, Some c)
  end.

Definition closeLoop (st : loopState) : list Cluster :=
  match snd st with
  | Some cur => fst st ++ [cur]
  | None => fst st
  end.

Definition betterRef (best current : KillScreenTimestamp * ref)
    : KillScreenTimestamp * ref :=
  if Qgtb (confidence (fst current)) (confidence (fst best)) then current else best.

(** The body of the filtering loop: the representative is copied into a
    new object, which is pushed on [filteredKillScreens]. *)
Definition filterStep (minConsecutiveDetections : Z) (filteredKillScreens : ref)
    (st : option heap) (cluster : Cluster) : option heap :=
  h ← st;
  if (minConsecutiveDetections <=? Z.of_nat (length (detections cluster)))%Z then
    ds ← mapM (deref h) (detections cluster);
    representative ← Array_reduce1 betterRef ds;
    let continuityBonus :=
      Qmin (1 # 10) (ofNat (length (detections cluster)) * (2 # 100)) in
    let enhancedConfidence :=
      Qmin 1 (confidence (fst representative) + continuityBonus) in
    let (copy, h1) :=
      alloc h (Sample {| frameNumber := frameNumber (fst representative);
                         timeInSeconds := timeInSeconds (fst representative);
                         confidence := enhancedConfidence |}) in
    push h1 filteredKillScreens copy
  else Some h.

(** [deduplicateKillScreens] over the store: the result is a reference to
    the returned array, and the store after the call. *)
Definition deduplicateKillScreens (h : heap) (killScreens : ref)
    (mergeWindowSeconds : Q) (minConsecutiveDetections : Z) : option (ref * heap) :=
  elems ← getArr h killScreens;
  if (length elems =? 0)%nat then Some (alloc h (Arr []))
  else
    let (sortedKillScreens, h1) := alloc h (Arr elems) in
    h2 ← sortInPlace h1 sortedKillScreens;
    sorted ← getArr h2 sortedKillScreens;
    st ← fold_left (dedupStep h2 mergeWindowSeconds) sorted (Some ([], None));
    let clusters := closeLoop st in
    let (filteredKillScreens, h3) := alloc h2 (Arr []) in
    h4 ← fold_left (filterStep minConsecutiveDetections filteredKillScreens)
                   clusters (Some h3);
    Some (filteredKillScreens, h4).

Record ClusterAnalysis := mkClusterAnalysis {
  totalClusters : nat;
  averageClusterSize : Q;
  maxClusterSize : nat;
  clusters : list Cluster
}.

(** [analyzeDetectionClusters] over the store. *)
Definition analyzeDetectionClusters (h : heap) (killScreens : ref)
    : option (ClusterAnalysis * heap) :=
  elems ← getArr h killScreens;
  if (length elems =? 0)%nat then
    Some ({| totalClusters := 0; averageClusterSize := 0; maxClusterSize := 0;
             clusters := [] |}, h)
  else
    let (sortedKillScreens, h1) := alloc h (Arr elems) in
    h2 ← sortInPlace h1 sortedKillScreens;
    sorted ← getArr h2 sortedKillScreens;
    st ← fold_left (analyzeStep h2) sorted (Some ([], None));
    let clusters := closeLoop st in
    let clusterSizes := map (fun c => length (detections c)) clusters in
    Some ({| totalClusters := length clusters;
             averageClusterSize :=
               ofNat (fold_left (fun sum size => (sum + size)%nat) clusterSizes 0%nat)
               / ofNat (length clusters);
             maxClusterSize := Math_max clusterSizes;
             clusters := clusters |}, h2).

(** Reading a cluster of references back as a cluster of samples. *)
Definition readCluster (h : heap) (c : Cluster) : option KillScreenCluster :=
  ds ← samplesAt h (detections c);
  Some (mkKillScreenCluster (startTime c) (endTime c) ds
                            (averageConfidence c) (peakConfidence c)).
End Store.

(** ** Vocabulary of the properties *)

(** Time order on samples. *)
Definition timeLe (a b : KillScreenTimestamp) : Prop :=
  timeInSeconds a <= timeInSeconds b.

(** The samples a loop state holds, in the order they were scanned. *)
Definition stateSamples (st : loopState) : list KillScreenTimestamp :=
  concat (map detections (closeLoop st)).

(** What the SegmentPlanner owes for one event time. *)
Definition plansSegment (beforeSeconds afterSeconds : Q) (time : Q)
    (segment : VideoSegment.t) : Prop :=
  VideoSegment.startTime segment = Qmax 0 (time - beforeSeconds) /\
  VideoSegment.endTime segment = time + afterSeconds /\
  VideoSegment.duration segment = beforeSeconds + afterSeconds.

(** The lead and trail a generation run uses: the command line overrides
    the project file. *)
Definition leadOf (project : DetectionProject.t) (options : GenerateOptions) : Q :=
  match before options with
  | Some b => b
  | None => DetectionProject.beforeSeconds (DetectionProject.processingOptions project)
  end.

Definition trailOf (project : DetectionProject.t) (options : GenerateOptions) : Q :=
  match after options with
  | Some a => a
  | None => DetectionProject.afterSeconds (DetectionProject.processingOptions project)
  end.

(** Two samples in time order and more than the window apart. *)
Definition apart (w : Q) (a b : KillScreenTimestamp) : Prop :=
  timeLe a b /\ w < timeInSeconds b - timeInSeconds a.

(** Every sample of [c] is before, and more than the window away from,
    every sample of [c']. *)
Definition clusterApart (w : Q) (c c' : KillScreenCluster) : Prop :=
  forall a b, In a (detections c) -> In b (detections c') -> apart w a b.

(** The record the filtering loop pushes for a cluster and its
    representative (lines 104-110). *)
Definition enhance (cluster : KillScreenCluster) (representative : KillScreenTimestamp)
    : KillScreenTimestamp :=
  {| frameNumber := frameNumber representative;
     timeInSeconds := timeInSeconds representative;
     confidence :=
       Qmin 1 (confidence representative
               + Qmin (1 # 10) (ofNat (length (detections cluster)) * (2 # 100))) |}.

(** What one cluster contributes to the output. *)
Definition emitted (minConsecutiveDetections : Z) (cluster : KillScreenCluster)
    : list KillScreenTimestamp :=
  if (minConsecutiveDetections <=? Z.of_nat (length (detections cluster)))%Z then
    match Array_reduce1 better (detections cluster) with
    | Some representative => [enhance cluster representative]
    | None => []
    end
  else [].

(** No two records at different positions of one cluster are more than the
    window apart. *)
Definition farPairsNotMerged (w : Q) (clusters : list KillScreenCluster) : Prop :=
  forall c, In c clusters ->
  forall (i j : nat) a b, i <> j ->
    detections c !! i = Some a -> detections c !! j = Some b ->
    ~ w < Qabs (timeInSeconds a - timeInSeconds b).

(** The state of the merge loop after the time-sorted prefix [l]. *)
Definition loopInvariant (w : Q) (l : list KillScreenTimestamp) (st : loopState) : Prop :=
  StronglySorted (clusterApart w) (closeLoop st) /\
  Forall (fun c => detections c <> []) (closeLoop st) /\
  match snd st with
  | Some cur => exists pre d, l = pre ++ [d] /\ endTime cur = timeInSeconds d
                              /\ In d (detections cur)
  | None => l = [] /\ fst st = []
  end.

(** What the grid scan maintains after [visited] pixels and [cells] cells:
    the red counter is the number of recorded intensities, every recorded
    intensity is positive, and no more pixels are red than were visited. *)
Definition scanInvariant (visited cells : nat) (frame : FrameCounters) : Prop :=
  totalRedPixels frame = length (redIntensities frame) /\
  Forall (fun intensity => (0 < intensity)%Z) (redIntensities frame) /\
  (totalRedPixels frame <= visited)%nat /\
  length (redCells frame) = cells.






(** A cluster of references stands for a cluster of samples in a store. *)
Definition clusterRel (h : Store.heap) (c : Store.Cluster) (pc : KillScreenCluster) : Prop :=
  Store.readCluster h c = Some pc.

(** The loop state over the store stands for a loop state over samples. *)
Definition stateRel (h : Store.heap) (st : Store.loopState) (pst : loopState) : Prop :=
  Forall2 (clusterRel h) (fst st) (fst pst) /\
  option_Forall2 (clusterRel h) (snd st) (snd pst).

(** The comparator of [sortInPlace], on references paired with the fields
    read through them. *)
Definition compareKeyed (a b : KillScreenTimestamp * Store.ref) : Q :=
  compareByTime (fst a) (fst b).

(** ** Concrete inputs *)

(** A store with three sample objects and, at reference 3, an array that
    lists them out of time order. *)
Definition unsortedStore : list Store.cell :=
  [ Store.Sample (mkKillScreenTimestamp 502 100.4 0.79);
    Store.Sample (mkKillScreenTimestamp 500 100.0 0.82);
    Store.Sample (mkKillScreenTimestamp 501 100.2 0.85);
    Store.Arr [0%nat; 2%nat; 1%nat] ].

(** A decoder that answers a 3x3 pure red frame for every path. *)
Definition redDecoder (imagePath : string) : Settled RawImage :=
  Resolved (allRedFrame 3 3 3).

(** A persisted project with three records, all enabled. *)
Definition entryAt (id : Z) (time : Q) : DetectionEntry.t :=
  {| DetectionEntry.id := id;
     DetectionEntry.timeInSeconds := time;
     DetectionEntry.frameNumber := 0;
     DetectionEntry.confidence := 0.9;
     DetectionEntry.enabled := true;
     DetectionEntry.note := None;
     DetectionEntry.clusterInfo := None |}.

Definition sampleProject : DetectionProject.t :=
  {| DetectionProject.version := "1.0.0";
     DetectionProject.inputVideo := "match.mp4";
     DetectionProject.createdAt := "2024-01-01T00:00:00.000Z";
     DetectionProject.processingOptions :=
       {| DetectionProject.confidenceThreshold := 0.8;
          DetectionProject.beforeSeconds := 3;
          DetectionProject.afterSeconds := 2;
          DetectionProject.frameRate := 5;
          DetectionProject.scaleWidth := 1280 |};
     DetectionProject.statistics :=
       {| DetectionProject.totalFrames := 1000;
          DetectionProject.rawDetections := 9;
          DetectionProject.clusteredDetections := 3;
          DetectionProject.finalDetections := 3;
          DetectionProject.averageClusterSize := 3;
          DetectionProject.maxClusterSize := 3 |};
     DetectionProject.detections := [entryAt 1 1.0; entryAt 2 60; entryAt 3 120] |}.

Definition plainRun : GenerateOptions :=
  {| input := None; output := None; before := None; after := None; preview := false |}.

(** The counters after [n] more pixels, all of them pure red. *)
Definition addRed (n : nat) (st : CellCounters * FrameCounters)
    : CellCounters * FrameCounters :=
  ({| cellRedPixels := cellRedPixels (fst st) + n;
      cellTotalPixels := cellTotalPixels (fst st) + n;
      cellRedIntensity := cellRedIntensity (fst st) + 255 * Z.of_nat n |},
   {| totalRedPixels := totalRedPixels (snd st) + n;
      redIntensities := redIntensities (snd st) ++ repeat 255%Z n;
      redCells := redCells (snd st) |}).

(** The cell record of a cell of [n] pixels, all of them pure red. *)
Definition redCellOf (gridX gridY n : nat) : RedCell :=
  {| cellX := gridX; cellY := gridY;
     redRatio := if (0 <? 0 + n)%nat then ofNat (0 + n) / ofNat (0 + n) else 0;
     avgRedIntensity :=
       if (0 <? 0 + n)%nat
       then inject_Z (0 + 255 * Z.of_nat n) / ofNat (0 + n) else 0 |}.

(** ** Vocabulary of the cluster properties *)

(** The number of samples that lie more than [w] after the sample scanned
    just before them. *)
Fixpoint countBreaks (w : Q) (l : list KillScreenTimestamp) : nat :=
  match l with
  | a :: r =>
      match r with
      | b :: _ =>
          ((if Qgtb (timeInSeconds b - timeInSeconds a) w then 1 else 0)
           + countBreaks w r)%nat
      | [] => 0%nat
      end
  | [] => 0%nat
  end.



(** [a] is the earliest sample of largest confidence in [c]. *)
Definition earliestPeak (c : KillScreenCluster) (a : KillScreenTimestamp) : Prop :=
  exists pre post,
    detections c = pre ++ a :: post /\
    Forall (fun d => confidence d < confidence a) pre /\
    Forall (fun d => confidence d <= confidence a) post.

(** The clusters that pass the size filter of line 97. *)
Definition largeEnough (minConsecutiveDetections : Z) (c : KillScreenCluster) : bool :=
  (minConsecutiveDetections <=? Z.of_nat (length (detections c)))%Z.

(** No two samples of the list have the same time. *)
Definition distinctTimes (l : list KillScreenTimestamp) : Prop :=
  NoDup l /\
  forall a b, In a l -> In b l -> timeInSeconds a == timeInSeconds b -> a = b.

(** ** Vocabulary of the scorer properties *)

(** No byte of the buffer is above the brightness floor of line 60. *)
Definition darkBuffer (data : list Byte.byte) : Prop :=
  Forall (fun b => (Byte.to_N b <= 100)%N) data.

(** The scan has found no red pixel. *)
Definition noRedFound (frame : FrameCounters) : Prop :=
  totalRedPixels frame = 0%nat /\
  redIntensities frame = [] /\
  Forall (fun cell => redRatio cell == 0) (redCells frame).

(** The cell counter of line 85. *)
Definition redCellCount (raw : RawImage) : nat :=
  length (List.filter (fun cell => Qgtb (redRatio cell) (3 # 10)) (redCells (scanGrid raw))).

(** A 3x3 frame of black pixels. *)
Definition blackFrame : RawImage :=
  {| data := repeat Byte.x00 27;
     info := {| width := 3; height := 3; channels := 3 |} |}.

(** ** index.ts and detect-only.ts: from detection results to samples *)

(** [a >= b] on numbers. *)
Definition Qgeb (a b : Q) : bool := if Qlt_le_dec a b then false else true.

(** The [map] callback of both orchestrators (index.ts lines 49-56,
    detect-only.ts lines 63-70): frames are extracted at 5 per second. *)
Definition toKillScreenTimestamp (result : DetectionResult.t) : KillScreenTimestamp :=
  let frameRate := 5 in
  {| frameNumber := DetectionResult.frameNumber result;
     timeInSeconds := inject_Z (DetectionResult.frameNumber result) * (1 / frameRate);
     confidence := DetectionResult.confidence result |}.

(** index.ts lines 47-56: a frame counts when the detector classified it
    and its confidence reaches the threshold. *)
Definition rawKillScreensOfIndex (confidenceThreshold : Q)
    (detectionResults : list DetectionResult.t) : list KillScreenTimestamp :=
  map toKillScreenTimestamp
      (List.filter (fun result =>
                      DetectionResult.isKillScreen result
                      && Qgeb (DetectionResult.confidence result) confidenceThreshold)
                   detectionResults).

(** detect-only.ts lines 61-70: only the threshold counts. *)
Definition rawKillScreensOfDetectOnly (confidenceThreshold : Q)
    (detectionResults : list DetectionResult.t) : list KillScreenTimestamp :=
  map toKillScreenTimestamp
      (List.filter (fun result =>
                      Qgeb (DetectionResult.confidence result) confidenceThreshold)
                   detectionResults).

Module ProcessingOptions.
Record t := mk {
  inputPath : string;
  outputPath : string;
  beforeSeconds : Q;
  afterSeconds : Q;
  confidenceThreshold : Q
}.
End ProcessingOptions.

(** How [processVideo] ends: an exception of the clusterer leaves through
    [finally]; no kill screen and a dry run return early; otherwise the
    segments go to [extractAndConcatenateSegments]. *)
Inductive ProcessOutcome :=
| ClustererThrew
| NothingDetected
| DryRunOnly (killScreens : list KillScreenTimestamp)
| Slice (inputPath : string) (segments : list VideoSegment.t) (outputPath : string).

(** [processVideo] (index.ts lines 35-105), from the extracted frame paths
    on. *)
Definition processVideo (sharpRaw : string -> Settled RawImage)
    (framePaths : list string) (options : ProcessingOptions.t) (dryRun : bool)
    : ProcessOutcome :=
  let detectionResults := batchDetect sharpRaw framePaths in
  let rawKillScreens :=
    rawKillScreensOfIndex (ProcessingOptions.confidenceThreshold options)
                          detectionResults in
  let clusterAnalysis := analyzeDetectionClusters rawKillScreens in
  match deduplicateKillScreens rawKillScreens 2 2 with
  | None => ClustererThrew
  | Some killScreens =>
      if (length killScreens =? 0)%nat then NothingDetected
      else if dryRun then DryRunOnly killScreens
      else
        let segments :=
          createVideoSegments killScreens (ProcessingOptions.beforeSeconds options)
                              (ProcessingOptions.afterSeconds options) in
        Slice (ProcessingOptions.inputPath options) segments
              (ProcessingOptions.outputPath options)
  end.

(** [Math.round]: to the nearest integer, halves upwards. *)
Definition Math_round (x : Q) : Z := Qfloor (x + (1 # 2)).

(** The records written to the project file (detect-only.ts lines
    113-120).  The note is the template literal of line 119, as UTF-8. *)
Definition detectionEntries (finalKillScreens : list KillScreenTimestamp)
    : list DetectionEntry.t :=
  imap (fun index killScreen =>
          {| DetectionEntry.id := Z.of_nat index + 1;
             DetectionEntry.timeInSeconds := timeInSeconds killScreen;
             DetectionEntry.frameNumber := frameNumber killScreen;
             DetectionEntry.confidence := confidence killScreen;
             DetectionEntry.enabled := true;
             DetectionEntry.note :=
               Some ("自動検出 (信頼度: "
                     ++ pretty (Math_round (confidence killScreen * 100)) ++ "%)")%string;
             DetectionEntry.clusterInfo := None |})
       finalKillScreens.

(** [detectOnly] (detect-only.ts lines 36-168), from the extracted frame
    paths to the project object that is written out; [None] when the
    clusterer throws.  [resolvedInputPath] is [path.resolve(inputPath)] and
    [createdAt] is [new Date().toISOString()]; the option that copies frame
    images changes no field of the project. *)
Definition detectOnly (sharpRaw : string -> Settled RawImage)
    (framePaths : list string) (resolvedInputPath createdAt : string)
    (confidenceThreshold beforeSeconds afterSeconds : Q) (scaleWidth : Z)
    : option DetectionProject.t :=
  let detectionResults := batchDetect sharpRaw framePaths in
  let rawKillScreens := rawKillScreensOfDetectOnly confidenceThreshold detectionResults in
  let clusterAnalysis := analyzeDetectionClusters rawKillScreens in
  finalKillScreens ← deduplicateKillScreens rawKillScreens 5 1;
  let detections := detectionEntries finalKillScreens in
  Some {| DetectionProject.version := "1.0.0";
          DetectionProject.inputVideo := resolvedInputPath;
          DetectionProject.createdAt := createdAt;
          DetectionProject.processingOptions :=
            {| DetectionProject.confidenceThreshold := confidenceThreshold;
               DetectionProject.beforeSeconds := beforeSeconds;
               DetectionProject.afterSeconds := afterSeconds;
               DetectionProject.frameRate := 5;
               DetectionProject.scaleWidth := scaleWidth |};
          DetectionProject.statistics :=
            {| DetectionProject.totalFrames := Z.of_nat (length framePaths);
               DetectionProject.rawDetections := Z.of_nat (length rawKillScreens);
               DetectionProject.clusteredDetections :=
                 Z.of_nat (totalClusters clusterAnalysis);
               DetectionProject.finalDetections := Z.of_nat (length finalKillScreens);
               DetectionProject.averageClusterSize := averageClusterSize clusterAnalysis;
               DetectionProject.maxClusterSize :=
                 Z.of_nat (maxClusterSize clusterAnalysis) |};
          DetectionProject.detections := detections |}.

(** ** Vocabulary of the pipeline properties *)

(** Record [b] is more than [w] seconds after record [a]. *)
Definition entryApart (w : Q) (a b : DetectionEntry.t) : Prop :=
  w < DetectionEntry.timeInSeconds b - DetectionEntry.timeInSeconds a.

(** A decoder that only ever resolves to frames with at least one column
    and one row. *)
Definition decodesFrames (sharpRaw : string -> Settled RawImage) : Prop :=
  forall imagePath raw,
    sharpRaw imagePath = Resolved raw ->
    (1 <= width (info raw))%nat /\ (1 <= height (info raw))%nat.




(** ** video/processor.ts: cutting and joining the segments *)

(** The calls [extractAndConcatenateSegments] makes on the file system and
    on ffmpeg.  A cut is [ffmpeg(videoPath).seekInput(s).duration(d)
    .output(p)]; a join is the concat demuxer run on the list file.  Both
    encode with libx264 and aac. *)
Inductive Call :=
| Mkdir (dir : string)
| CutSegment (videoPath : string) (seekInput duration : Q) (output : string)
| CopyFile (source destination : string)
| WriteFile (file content : string)
| ConcatSegments (listFile output : string).

(** An asynchronous computation: from the calls made so far to what it
    settles to and the calls made by then. *)
Definition Async (A : Type) : Type := list Call -> Settled A * list Call.

Definition resolve {A : Type} (value : A) : Async A :=
  fun calls => (Resolved value, calls).

Definition throw {A : Type} (reason : string) : Async A :=
  fun calls => (Rejected reason, calls).

Definition andThen {A B : Type} (m : Async A) (k : A -> Async B) : Async B :=
  fun calls =>
    match m calls with
    | (Resolved value, calls') => k value calls'
    | (Rejected reason, calls') => (Rejected reason, calls')
    end.

(** [try { await m } catch (error) { console.error(...) }]. *)
Definition tryCatch (m : Async unit) : Async unit :=
  fun calls => (Resolved tt, snd (m calls)).

(** [s.padStart(targetLength, pad)] with a one-character pad. *)
Definition String_padStart (targetLength : nat) (pad : ascii) (s : string) : string :=
  (string_of_list_ascii (repeat pad (targetLength - String.length s)) ++ s)%string.

Section Slicer.
(** The world outside: whether a call fails, and with which reason, given
    the calls made before it; [path.join]; and the [tempDir] field that the
    constructor sets to [path.join(process.cwd(), 'temp')]. *)
Variable fails : list Call -> Call -> option string.
Variable pathJoin : string -> string -> string.
Variable tempDir : string.

(** An awaited call: it is made, and resolves or rejects. *)
Definition await (c : Call) : Async unit :=
  fun calls =>
    match fails calls c with
    | None => (Resolved tt, calls ++ [c])
    | Some reason => (Rejected reason, calls ++ [c])
    end.

(** [ensureTempDirectory] (lines 76-82). *)
Definition ensureTempDirectory : Async unit := tryCatch (await (Mkdir tempDir)).

(** The name of the [i]-th segment file (line 179). *)
Definition segmentPathOf (segmentDir : string) (i : nat) : string :=
  pathJoin segmentDir ("segment_" ++ String_padStart 3 "0" (pretty i) ++ ".mp4")%string.

(** The cutting loop (lines 177-195): [i] counts up, [segmentPaths] grows
    when a cut ends, and a cut that fails rejects the whole call. *)
Fixpoint cutLoop (videoPath segmentDir : string) (i : nat)
    (segments : list VideoSegment.t) (segmentPaths : list string) : Async (list string) :=
  match segments with
  | [] => resolve segmentPaths
  | segment :: rest =>
      let segmentPath := segmentPathOf segmentDir i in
      andThen (await (CutSegment videoPath (VideoSegment.startTime segment)
                                 (VideoSegment.duration segment) segmentPath))
              (fun _ => cutLoop videoPath segmentDir (S i) rest
                                (segmentPaths ++ [segmentPath]))
  end.

(** [extractAndConcatenateSegments] (lines 166-221). *)
Definition extractAndConcatenateSegments (videoPath : string)
    (segments : list VideoSegment.t) (outputPath : string) : Async unit :=
  andThen ensureTempDirectory (fun _ =>
  let segmentDir := pathJoin tempDir "segments" in
  andThen (await (Mkdir segmentDir)) (fun _ =>
  andThen (cutLoop videoPath segmentDir 0 segments []) (fun segmentPaths =>
  if (length segmentPaths =? 0)%nat then throw "No segments to concatenate"
  else if (length segmentPaths =? 1)%nat then
    await (CopyFile (nth 0 segmentPaths ""%string) outputPath)
  else
    let concatListPath := pathJoin tempDir "concat_list.txt" in
    let concatList :=
      String.concat (String "010"%char EmptyString)
                    (map (fun p => ("file '" ++ p ++ "'")%string) segmentPaths) in
    andThen (await (WriteFile concatListPath concatList)) (fun _ =>
    await (ConcatSegments concatListPath outputPath))))).

(** A script: the calls are awaited one after the other, and the first
    one that fails rejects. *)
Fixpoint awaitAll (script : list Call) : Async unit :=
  match script with
  | [] => resolve tt
  | c :: rest => andThen (await c) (fun _ => awaitAll rest)
  end.

(** The cuts a complete run makes, in order. *)
Definition cutCalls (videoPath : string) (segments : list VideoSegment.t) : list Call :=
  imap (fun i segment =>
          CutSegment videoPath (VideoSegment.startTime segment)
                     (VideoSegment.duration segment)
                     (segmentPathOf (pathJoin tempDir "segments") i))
       segments.

(** The calls that make the output file, after the cuts. *)
Definition joinCalls (segments : list VideoSegment.t) (outputPath : string) : list Call :=
  match segments with
  | [] => []
  | [_] => [CopyFile (segmentPathOf (pathJoin tempDir "segments") 0) outputPath]
  | _ =>
      let segmentPaths :=
        map (segmentPathOf (pathJoin tempDir "segments")) (seq 0 (length segments)) in
      [WriteFile (pathJoin tempDir "concat_list.txt")
                 (String.concat (String "010"%char EmptyString)
                                (map (fun p => ("file '" ++ p ++ "'")%string) segmentPaths));
       ConcatSegments (pathJoin tempDir "concat_list.txt") outputPath]
  end.
End Slicer.

(** A call that writes the output of the run. *)
Definition makesOutput (c : Call) : bool :=
  match c with
  | CopyFile _ _ | ConcatSegments _ _ => true
  | _ => false
  end.

Definition isCut (c : Call) : bool :=
  match c with
  | CutSegment _ _ _ _ => true
  | _ => false
  end.

(** A world in which no call fails, and [path.join] on two relative parts
    without dots. *)
Definition neverFails : list Call -> Call -> option string := fun _ _ => None.

Definition joinWithSlash (a b : string) : string := (a ++ "/" ++ b)%string.

(** A world in which the output file cannot be written. *)
Definition outputDenied : list Call -> Call -> option string :=
  fun _ c => if makesOutput c then Some "EACCES"%string else None.

(** * Properties *)

(** ** Comparisons *)

Lemma Qgtb_true a b : Qgtb a b = true <-> b < a.
Proof. unfold Qgtb. destruct (Qlt_le_dec b a); split; intros; try easy. lra. Qed.

Lemma Qgtb_false a b : Qgtb a b = false <-> a <= b.
Proof. unfold Qgtb. destruct (Qlt_le_dec b a); split; intros; try easy. lra. Qed.


(** ** Folds that push *)

Lemma fold_left_push {A B : Type} (f : B -> list A) (l : list B) (acc : list A) :
  fold_left (fun acc x => acc ++ f x) l acc = acc ++ flat_map f l.
Proof.
  revert acc. induction l as [|x l IH]; intros acc; simpl.
  - now rewrite app_nil_r.
  - rewrite IH. now rewrite <- app_assoc.
Qed.

(** ** [Array_sort] *)

Section ArraySortFacts.
Context {A : Type} (compareFn : A -> A -> Q).

Lemma sortInsert_length x l :
  length (sortInsert compareFn x l) = S (length l).
Proof.
  induction l as [|y r IH]; simpl; [reflexivity|].
  destruct (Qgtb _ _); simpl; [now rewrite IH | reflexivity].
Qed.

Lemma Array_sort_length l : length (Array_sort compareFn l) = length l.
Proof.
  induction l as [|x l IH]; simpl; [reflexivity|].
  unfold Array_sort in *. simpl. now rewrite sortInsert_length, IH.
Qed.

Lemma sortInsert_perm x l : Permutation (x :: l) (sortInsert compareFn x l).
Proof.
  induction l as [|y r IH]; simpl; [reflexivity|].
  destruct (Qgtb _ _); [|reflexivity].
  rewrite perm_swap. now constructor.
Qed.

(** The sorted array holds the elements of the original. *)
Lemma Array_sort_perm l : Permutation l (Array_sort compareFn l).
Proof.
  induction l as [|x l IH]; simpl; [reflexivity|].
  unfold Array_sort in *. simpl. rewrite <- sortInsert_perm. now constructor.
Qed.

(** Stability: elements that the comparator does not order strictly keep
    their relative order. *)
Lemma sortInsert_filter (P : A -> bool) x l :
  (forall a b, P a = true -> P b = true -> Qgtb (compareFn a b) 0 = false) ->
  List.filter P (sortInsert compareFn x l) = List.filter P (x :: l).
Proof.
  intros Htie. induction l as [|y r IH]; [reflexivity|].
  cbn [sortInsert]. destruct (Qgtb (compareFn x y) 0) eqn:E; [|reflexivity].
  cbn [List.filter] in *. rewrite IH.
  destruct (P x) eqn:Px, (P y) eqn:Py; try reflexivity.
  rewrite (Htie x y Px Py) in E. discriminate.
Qed.

Lemma Array_sort_stable (P : A -> bool) l :
  (forall a b, P a = true -> P b = true -> Qgtb (compareFn a b) 0 = false) ->
  List.filter P (Array_sort compareFn l) = List.filter P l.
Proof.
  intros Htie. induction l as [|x l IH]; [reflexivity|].
  unfold Array_sort in *. cbn [fold_right].
  rewrite sortInsert_filter by exact Htie. cbn [List.filter]. now rewrite IH.
Qed.
End ArraySortFacts.

(** ** Sorting by time *)

Lemma compareByTime_gt x y :
  Qgtb (compareByTime x y) 0 = true <-> timeInSeconds y < timeInSeconds x.
Proof. rewrite Qgtb_true. unfold compareByTime. split; intros; lra. Qed.

Lemma sortInsert_time_front x l :
  Forall (timeLe x) l -> sortInsert compareByTime x l = x :: l.
Proof.
  destruct l as [|y r]; simpl; [reflexivity|]. intros H.
  apply Forall_cons_iff in H as [Hy _]. unfold timeLe in Hy.
  destruct (Qgtb (compareByTime x y) 0) eqn:E; [|reflexivity].
  apply compareByTime_gt in E. lra.
Qed.

(** Sorting an array that is already in time order changes nothing. *)
Lemma Array_sort_sorted_id l :
  StronglySorted timeLe l -> Array_sort compareByTime l = l.
Proof.
  induction 1 as [|x l Hs IH Hx]; [reflexivity|].
  unfold Array_sort in *. simpl. rewrite IH. now apply sortInsert_time_front.
Qed.

Lemma sortInsert_sorted x l :
  StronglySorted timeLe l -> StronglySorted timeLe (sortInsert compareByTime x l).
Proof.
  induction 1 as [|y r Hs IH Hy]; simpl.
  - repeat constructor.
  - destruct (Qgtb (compareByTime x y) 0) eqn:E.
    + apply compareByTime_gt in E. constructor; [exact IH|].
      eapply Permutation_Forall; [apply sortInsert_perm|].
      constructor; [unfold timeLe; lra | exact Hy].
    + apply Qgtb_false in E. unfold compareByTime in E.
      constructor; [now constructor|].
      constructor; [unfold timeLe; lra|].
      eapply Forall_impl; [|exact Hy]. unfold timeLe. intros z Hz. simpl in Hz. lra.
Qed.

(** The sorted copy is in time order. *)
Lemma Array_sort_sorted l : StronglySorted timeLe (Array_sort compareByTime l).
Proof.
  induction l as [|x l IH]; [constructor|].
  unfold Array_sort in *. simpl. now apply sortInsert_sorted.
Qed.

(** Samples with the same time keep the order they had in the input. *)
Lemma sort_by_time_stable (q : Q) (l : list KillScreenTimestamp) :
  List.filter (fun k => Qeq_bool (timeInSeconds k) q) (Array_sort compareByTime l)
  = List.filter (fun k => Qeq_bool (timeInSeconds k) q) l.
Proof.
  apply Array_sort_stable. intros a b Ha Hb.
  apply Qeq_bool_iff in Ha, Hb. apply Qgtb_false. unfold compareByTime. lra.
Qed.

(** ** The merge loop *)

Lemma analyzeStep_dedupStep st k : analyzeStep st k = dedupStep 2 st k.
Proof. destruct st as [cs [cur|]]; reflexivity. Qed.

Lemma analyzeLoop_dedupLoop l st :
  fold_left analyzeStep l st = fold_left (dedupStep 2) l st.
Proof.
  revert st. induction l as [|k l IH]; intros st; simpl; [reflexivity|].
  now rewrite analyzeStep_dedupStep, IH.
Qed.

Lemma dedupStep_current w st k : exists cur, snd (dedupStep w st k) = Some cur.
Proof.
  destruct st as [cs [cur|]]; simpl; [|eauto].
  destruct (Qgtb _ _); simpl; eauto.
Qed.

Lemma dedupLoop_current w l st :
  (exists cur, snd st = Some cur) ->
  exists cur, snd (fold_left (dedupStep w) l st) = Some cur.
Proof.
  revert st. induction l as [|k l IH]; intros st H; simpl; [exact H|].
  apply IH, dedupStep_current.
Qed.

(** A non-empty input leaves at least one cluster: the [reduce] and
    [Math.max] of the callers never see an empty [clusters] array. *)
Lemma dedupClusters_nonempty w l : l <> [] -> dedupClusters w l <> [].
Proof.
  destruct l as [|k l]; [congruence|]. intros _. unfold dedupClusters. simpl.
  destruct (dedupLoop_current w l ([], Some (openCluster k))) as [cur Hc]; [simpl; eauto|].
  unfold closeLoop. rewrite Hc. intros E. now apply app_eq_nil in E as [_ E].
Qed.

Lemma analyzeLoop_nonempty l :
  l <> [] -> closeLoop (fold_left analyzeStep l ([], None)) <> [].
Proof. rewrite analyzeLoop_dedupLoop. apply dedupClusters_nonempty. Qed.

(** The clusters partition the scanned array: their [detections], one
    after the other, are the samples in scan order. *)
Lemma closeLoop_step w cs cur k :
  stateSamples (dedupStep w (cs, cur) k) = stateSamples (cs, cur) ++ [k].
Proof.
  unfold stateSamples, closeLoop. destruct cur as [cur|]; simpl.
  - destruct (Qgtb _ _); simpl;
      rewrite ?map_app, ?concat_app; simpl; rewrite ?app_nil_r, <- ?app_assoc; reflexivity.
  - rewrite map_app, concat_app. simpl. reflexivity.
Qed.

Lemma dedupLoop_samples w l st :
  stateSamples (fold_left (dedupStep w) l st) = stateSamples st ++ l.
Proof.
  revert st. induction l as [|k l IH]; intros [cs cur]; cbn [fold_left].
  - now rewrite app_nil_r.
  - rewrite IH, closeLoop_step, <- app_assoc. reflexivity.
Qed.

Lemma dedupClusters_partition w l :
  concat (map detections (dedupClusters w l)) = l.
Proof. apply (dedupLoop_samples w l ([], None)). Qed.

(** ** Clusters of a time-sorted array are pairwise apart *)

Lemma StronglySorted_snoc {A : Type} (R : A -> A -> Prop) (l : list A) (y : A) :
  StronglySorted R (l ++ [y]) <-> StronglySorted R l /\ Forall (fun x => R x y) l.
Proof.
  induction l as [|x l IH]; simpl.
  - split; [intros _; split; constructor | intros _; repeat constructor].
  - split.
    + intros H. apply StronglySorted_inv in H as [Hs Hx].
      apply IH in Hs as [Hs Hy]. apply Forall_app in Hx as [Hx Hxy].
      split; [now constructor|]. constructor; [|exact Hy].
      now apply Forall_cons_iff in Hxy as [Hxy _].
    + intros [Hs Hy]. apply StronglySorted_inv in Hs as [Hs Hx].
      apply Forall_cons_iff in Hy as [Hxy Hy].
      constructor; [apply IH; now split|].
      apply Forall_app. split; [exact Hx | now constructor].
Qed.

Lemma StronglySorted_weaken {A : Type} (R S : A -> A -> Prop) (l : list A) :
  (forall x y, R x y -> S x y) -> StronglySorted R l -> StronglySorted S l.
Proof.
  intros H. induction 1 as [|x l Hs IH Hx]; constructor; [exact IH|].
  eapply Forall_impl; [|exact Hx]. auto.
Qed.

Lemma in_state_samples (st : loopState) c a :
  In c (closeLoop st) -> In a (detections c) -> In a (stateSamples st).
Proof.
  intros Hc Ha. unfold stateSamples. apply in_concat.
  exists (detections c). split; [now apply in_map | exact Ha].
Qed.

Lemma sorted_last_max (pre : list KillScreenTimestamp) d a :
  StronglySorted timeLe (pre ++ [d]) -> In a (pre ++ [d]) -> timeLe a d.
Proof.
  intros Hs Ha. apply StronglySorted_snoc in Hs as [_ Hd].
  apply in_app_or in Ha as [Ha|[<-|[]]].
  - rewrite Forall_forall in Hd. now apply Hd.
  - unfold timeLe. lra.
Qed.

Lemma dedupLoop_invariant (w : Q) (l : list KillScreenTimestamp) :
  StronglySorted timeLe l ->
  loopInvariant w l (fold_left (dedupStep w) l ([], None)).
Proof.
  induction l as [|k l IH] using rev_ind; intros Hs.
  - repeat split; constructor.
  - apply StronglySorted_snoc in Hs as [Hl Hk].
    specialize (IH Hl). rewrite fold_left_app. cbn [fold_left].
    pose proof (dedupLoop_samples w l ([], None)) as Hsam.
    destruct (fold_left (dedupStep w) l ([], None)) as [done [cur|]].
    + destruct IH as (Hss & Hne & pre & d & -> & Hend & Hd).
      assert (Hin : forall c a, In c (done ++ [cur]) -> In a (detections c) ->
                                timeLe a d /\ timeLe a k).
      { intros c a Hc Ha.
        pose proof (in_state_samples (done, Some cur) c a Hc Ha) as Hi.
        rewrite Hsam in Hi. simpl in Hi. split.
        - now apply (sorted_last_max pre).
        - rewrite Forall_forall in Hk. now apply Hk. }
      unfold dedupStep. rewrite Hend.
      destruct (Qgtb (timeInSeconds k - timeInSeconds d) w) eqn:E.
      * apply Qgtb_true in E. unfold loopInvariant, closeLoop. cbn [fst snd].
        split; [|split].
        -- apply StronglySorted_snoc. split; [exact Hss|].
           apply Forall_forall. intros c Hc a b Ha [<-|[]].
           destruct (Hin c a Hc Ha) as [Had Hak]. split; [exact Hak|].
           unfold timeLe in *. lra.
        -- apply Forall_app. split; [exact Hne|]. now repeat constructor.
        -- exists (pre ++ [d]), k. repeat split. now left.
      * apply Qgtb_false in E. unfold loopInvariant, closeLoop in *. cbn [fst snd] in *.
        apply StronglySorted_snoc in Hss as [Hss Hcur].
        apply Forall_app in Hne as [Hne Hcne].
        split; [|split].
        -- apply StronglySorted_snoc. split; [exact Hss|].
           apply Forall_forall. intros c Hc a b Ha Hb.
           rewrite Forall_forall in Hcur. simpl in Hb.
           apply in_app_or in Hb as [Hb|[<-|[]]]; [now apply (Hcur c Hc)|].
           destruct (Hin c a) as [Had Hak]; [apply in_or_app; now left | exact Ha |].
           split; [exact Hak|].
           destruct (Hcur c Hc a d Ha Hd) as [_ Hgap].
           assert (timeLe d k) by (apply (Hin cur d); [apply in_or_app; right; now left | exact Hd]).
           unfold timeLe in *. lra.
        -- apply Forall_app. split; [exact Hne|]. constructor; [|constructor].
           simpl. intros E'. now apply app_eq_nil in E' as [_ E'].
        -- exists (pre ++ [d]), k. repeat split. simpl. apply in_or_app. right. now left.
    + destruct IH as (_ & _ & -> & Hdone). simpl in Hdone. subst done.
      unfold loopInvariant, closeLoop. cbn. split; [|split].
      * repeat constructor.
      * repeat constructor. discriminate.
      * exists [], k. repeat split. now left.
Qed.

Lemma dedupClusters_apart (w : Q) (l : list KillScreenTimestamp) :
  StronglySorted timeLe l ->
  StronglySorted (clusterApart w) (dedupClusters w l) /\
  Forall (fun c => detections c <> []) (dedupClusters w l).
Proof.
  intros Hs. destruct (dedupLoop_invariant w l Hs) as (H1 & H2 & _). now split.
Qed.

(** ** The filtering loop *)

Lemma filterStep_emitted m acc c :
  detections c <> [] -> filterStep m acc c = Some (acc ++ emitted m c).
Proof.
  intros Hne. unfold filterStep, emitted, enhance.
  destruct (m <=? Z.of_nat (length (detections c)))%Z; [|now rewrite app_nil_r].
  destruct (detections c) as [|d ds]; [congruence|]. reflexivity.
Qed.

Lemma filterLoop_emitted m cs acc :
  Forall (fun c => detections c <> []) cs ->
  fold_left (fun acc cluster => filtered ← acc; filterStep m filtered cluster) cs (Some acc)
  = Some (acc ++ flat_map (emitted m) cs).
Proof.
  intros H. revert acc. induction H as [|c cs Hc _ IH]; intros acc; simpl.
  - now rewrite app_nil_r.
  - rewrite filterStep_emitted by exact Hc. rewrite IH, <- app_assoc. reflexivity.
Qed.

(** With non-empty clusters the [reduce] never throws, and the output is
    what the clusters emit, in cluster order. *)
Lemma filterClusters_emitted m cs :
  Forall (fun c => detections c <> []) cs ->
  filterClusters m cs = Some (flat_map (emitted m) cs).
Proof. intros H. unfold filterClusters. now rewrite filterLoop_emitted. Qed.

Lemma fold_better_in (l : list KillScreenTimestamp) (x : KillScreenTimestamp) :
  In (fold_left better l x) (x :: l).
Proof.
  revert x. induction l as [|y l IH]; intros x; simpl; [now left|].
  destruct (IH (better x y)) as [E|Hin]; [|now right; right].
  rewrite <- E. unfold better. destruct (Qgtb _ _); [right; now left | now left].
Qed.

(** An emitted record carries the time and the frame of a sample of its
    cluster. *)
Lemma emitted_from_cluster m c o :
  In o (emitted m c) ->
  exists a, In a (detections c) /\ timeInSeconds o = timeInSeconds a
            /\ frameNumber o = frameNumber a.
Proof.
  unfold emitted. destruct (_ <=? _)%Z; [|intros []].
  destruct (detections c) as [|d ds] eqn:E; simpl; [intros []|].
  intros [<-|[]]. exists (fold_left better ds d). split; [|split; reflexivity].
  apply fold_better_in.
Qed.

Lemma emitted_apart w m cs :
  StronglySorted (clusterApart w) cs ->
  StronglySorted (apart w) (flat_map (emitted m) cs).
Proof.
  induction 1 as [|c cs Hs IH Hc]; simpl; [constructor|].
  assert (Hall : forall o, In o (emitted m c) ->
                           Forall (apart w o) (flat_map (emitted m) cs)).
  { intros o Ho. apply Forall_forall. intros o' Ho'.
    apply in_flat_map in Ho' as (c' & Hc' & Ho').
    apply emitted_from_cluster in Ho as (a & Ha & Hta & _).
    apply emitted_from_cluster in Ho' as (a' & Ha' & Hta' & _).
    rewrite Forall_forall in Hc. destruct (Hc c' Hc' a a' Ha Ha') as [Hle Hgap].
    unfold apart, timeLe in *. rewrite Hta, Hta'. now split. }
  unfold emitted in *.
  destruct (_ <=? _)%Z; [|exact IH].
  destruct (Array_reduce1 better (detections c)) as [rep|]; [|exact IH].
  simpl. constructor; [exact IH|]. apply Hall. now left.
Qed.

(** ** Re-running the clusterer on records that are pairwise apart *)

Lemma dedupLoop_apart w l done x :
  StronglySorted (apart w) (x :: l) ->
  closeLoop (fold_left (dedupStep w) l (done, Some (openCluster x)))
  = done ++ map openCluster (x :: l).
Proof.
  revert done x. induction l as [|y l IH]; intros done x Hs; [reflexivity|].
  cbn [fold_left]. apply StronglySorted_inv in Hs as [Hs Hx].
  apply Forall_cons_iff in Hx as [[_ Hxy] _].
  unfold dedupStep. cbn [openCluster endTime].
  apply Qgtb_true in Hxy. rewrite Hxy.
  rewrite IH by exact Hs. now rewrite <- app_assoc.
Qed.

(** Every record becomes a cluster of its own. *)
Lemma dedupClusters_apart_singletons w l :
  StronglySorted (apart w) l -> dedupClusters w l = map openCluster l.
Proof.
  destruct l as [|x l]; [reflexivity|]. intros Hs.
  unfold dedupClusters. cbn [fold_left dedupStep].
  now rewrite dedupLoop_apart.
Qed.

Lemma emitted_singleton o : emitted 1 (openCluster o) = [enhance (openCluster o) o].
Proof. reflexivity. Qed.

Lemma flat_map_singletons {A B : Type} (f : A -> B) (g : A -> list B) (l : list A) :
  (forall x, g x = [f x]) -> flat_map g l = map f l.
Proof. intros H. induction l as [|x l IH]; simpl; [reflexivity|]. now rewrite H, IH. Qed.

(** The first run, as a whole: it returns, and its records are in time
    order and pairwise more than the window apart. *)
Lemma deduplicateKillScreens_apart ks w m :
  exists out, deduplicateKillScreens ks w m = Some out /\ StronglySorted (apart w) out.
Proof.
  unfold deduplicateKillScreens. destruct (length ks =? 0)%nat.
  - exists []. split; [reflexivity | constructor].
  - destruct (dedupClusters_apart w (Array_sort compareByTime ks)) as [Hs Hne];
      [apply Array_sort_sorted|].
    eexists. split; [now apply filterClusters_emitted|]. now apply emitted_apart.
Qed.

(** ** The grid scan *)

Lemma gtU_true a b :
  gtU a b = true -> exists x y, a = Some x /\ b = Some y /\ (y < x)%Z.
Proof.
  destruct a as [x|], b as [y|]; simpl; try discriminate.
  intros H. apply Z.ltb_lt in H. eauto.
Qed.

Lemma scanInvariant_weaken v v' n frame :
  (v <= v')%nat -> scanInvariant v n frame -> scanInvariant v' n frame.
Proof. intros Hv (H1 & H2 & H3 & H4). repeat split; try assumption. lia. Qed.

Lemma pixelStep_invariant data w c y x cell frame v n :
  scanInvariant v n frame ->
  scanInvariant (S v) n (snd (pixelStep data w c y (cell, frame) x)).
Proof.
  intros (H1 & H2 & H3 & H4). unfold pixelStep.
  destruct (gtU _ _ && gtU _ _ && gtU _ _) eqn:E; cbn [snd].
  - apply andb_prop in E as [E Er]. apply andb_prop in E as [Eg Eb].
    apply gtU_true in Eg as (r & g & Hr & Hg & Hrg).
    apply gtU_true in Eb as (r' & b & Hr' & Hb & Hrb).
    rewrite Hr in Hr'. injection Hr' as <-.
    rewrite Hr, Hg, Hb. cbn [numberOf default from_option id].
    repeat split; cbn [totalRedPixels redIntensities redCells].
    + rewrite length_app. simpl. lia.
    + apply Forall_app. split; [exact H2|]. constructor; [lia|constructor].
    + lia.
    + exact H4.
  - repeat split; try assumption. lia.
Qed.

Lemma row_invariant data w c y xs st v n :
  scanInvariant v n (snd st) ->
  scanInvariant (v + length xs) n (snd (fold_left (pixelStep data w c y) xs st)).
Proof.
  revert st v. induction xs as [|x xs IH]; intros [cell frame] v H; cbn [fold_left length].
  - now rewrite Nat.add_0_r.
  - replace (v + S (length xs))%nat with (S v + length xs)%nat by lia.
    destruct (pixelStep data w c y (cell, frame) x) as [cell' frame'] eqn:E.
    apply IH. cbn [snd]. change frame' with (snd (cell', frame')). rewrite <- E.
    now apply pixelStep_invariant.
Qed.

Lemma rows_invariant data w c xs ys st v n :
  scanInvariant v n (snd st) ->
  scanInvariant (v + length ys * length xs) n
    (snd (fold_left (fun st y => fold_left (pixelStep data w c y) xs st) ys st)).
Proof.
  revert st v. induction ys as [|y ys IH]; intros st v H; cbn [fold_left length].
  - now rewrite Nat.add_0_r.
  - replace (v + S (length ys) * length xs)%nat
      with ((v + length xs) + length ys * length xs)%nat by lia.
    apply IH. now apply row_invariant.
Qed.

Lemma range_length lo hi : length (range lo hi) = (hi - lo)%nat.
Proof. apply length_seq. Qed.

Lemma cellStep_invariant data w h c cw ch gridY gridX frame v n :
  scanInvariant v n frame ->
  scanInvariant (v + cw * ch) (S n) (cellStep data w h c cw ch gridY frame gridX).
Proof.
  intros H. unfold cellStep.
  set (xs := range (gridX * cw) (Nat.min (gridX * cw + cw) w)).
  set (ys := range (gridY * ch) (Nat.min (gridY * ch + ch) h)).
  pose proof (rows_invariant data w c xs ys
                ({| cellRedPixels := 0; cellTotalPixels := 0; cellRedIntensity := 0 |}, frame)
                v n H) as Hinv.
  destruct (fold_left _ ys _) as [cell frame'] eqn:E. cbn [snd] in Hinv.
  assert (Hlen : (length ys * length xs <= cw * ch)%nat).
  { unfold xs, ys. rewrite !range_length.
    rewrite (Nat.mul_comm cw ch).
    apply Nat.mul_le_mono; lia. }
  apply (scanInvariant_weaken _ (v + cw * ch)) in Hinv; [|lia].
  destruct Hinv as (H1 & H2 & H3 & H4).
  repeat split; cbn [totalRedPixels redIntensities redCells]; try assumption.
  rewrite length_app. simpl. lia.
Qed.

Lemma cells_invariant data w h c cw ch gridY gridXs frame v n :
  scanInvariant v n frame ->
  scanInvariant (v + length gridXs * (cw * ch)) (length gridXs + n)
    (fold_left (cellStep data w h c cw ch gridY) gridXs frame).
Proof.
  revert frame v n. induction gridXs as [|gx gxs IH]; intros frame v n H;
    cbn [fold_left length].
  - now rewrite Nat.add_0_r.
  - replace (v + S (length gxs) * (cw * ch))%nat
      with ((v + cw * ch) + length gxs * (cw * ch))%nat by lia.
    replace (S (length gxs) + n)%nat with (length gxs + S n)%nat by lia.
    apply IH. now apply cellStep_invariant.
Qed.

Lemma grid_rows_invariant data w h c cw ch gridXs gridYs frame v n :
  scanInvariant v n frame ->
  scanInvariant (v + length gridYs * (length gridXs * (cw * ch)))
                (length gridYs * length gridXs + n)
    (fold_left (fun frame gridY => fold_left (cellStep data w h c cw ch gridY) gridXs frame)
               gridYs frame).
Proof.
  revert frame v n. induction gridYs as [|gy gys IH]; intros frame v n H;
    cbn [fold_left length].
  - now rewrite Nat.add_0_r.
  - replace (v + S (length gys) * (length gridXs * (cw * ch)))%nat
      with ((v + length gridXs * (cw * ch)) + length gys * (length gridXs * (cw * ch)))%nat
      by lia.
    replace (S (length gys) * length gridXs + n)%nat
      with (length gys * length gridXs + (length gridXs + n))%nat by lia.
    apply IH. now apply cells_invariant.
Qed.

(** The scan visits at most the pixels of the frame and records nine
    cells. *)
Lemma scanGrid_invariant raw :
  scanInvariant (width (info raw) * height (info raw)) 9 (scanGrid raw).
Proof.
  unfold scanGrid.
  pose proof (grid_rows_invariant (data raw) (width (info raw)) (height (info raw))
                (channels (info raw)) (width (info raw) / 3) (height (info raw) / 3)
                (range 0 3) (range 0 3)
                {| totalRedPixels := 0; redIntensities := []; redCells := [] |} 0 0) as H.
  eapply scanInvariant_weaken; [|apply H; repeat split; simpl; auto].
  rewrite !range_length.
  transitivity ((3 * (width (info raw) / 3)) * (3 * (height (info raw) / 3)))%nat; [lia|].
  apply Nat.mul_le_mono; apply Nat.Div0.mul_div_le.
Qed.

(** ** Ratios *)

Lemma ofNat_nonneg n : 0 <= ofNat n.
Proof. unfold ofNat. change 0 with (inject_Z 0). rewrite <- Zle_Qle. lia. Qed.

Lemma ofNat_le n m : (n <= m)%nat -> ofNat n <= ofNat m.
Proof. intros H. unfold ofNat. rewrite <- Zle_Qle. lia. Qed.

Lemma ofNat_pos n : (1 <= n)%nat -> 0 < ofNat n.
Proof. intros H. unfold ofNat. change 0 with (inject_Z 0). rewrite <- Zlt_Qlt. lia. Qed.

Lemma Qdiv_unit_interval (a b : Q) : 0 <= a -> a <= b -> 0 < b -> 0 <= a / b <= 1.
Proof.
  intros Ha Hab Hb. split.
  - apply Qle_shift_div_l; [exact Hb|]. lra.
  - apply Qle_shift_div_r; [exact Hb|]. lra.
Qed.

Lemma Qdiv_nonneg (a b : Q) : 0 <= a -> 0 < b -> 0 <= a / b.
Proof. intros Ha Hb. apply Qle_shift_div_l; [exact Hb|]. lra. Qed.

Lemma Qmin_1_unit (q : Q) : 0 <= q -> 0 <= Qmin 1 q <= 1.
Proof.
  intros Hq. split; [apply Q.min_glb; lra | apply Q.le_min_l].
Qed.

Lemma Qmax_0_unit (q : Q) : q <= 1 -> 0 <= Qmax 0 q <= 1.
Proof.
  intros Hq. split; [apply Q.le_max_l | apply Q.max_lub; lra].
Qed.

Lemma fold_add_positive (l : list Z) (a : Z) :
  (0 <= a)%Z -> Forall (fun i => (0 < i)%Z) l ->
  (0 <= fold_left (fun sum intensity => (sum + intensity)%Z) l a)%Z.
Proof.
  revert a. induction l as [|x l IH]; intros a Ha H; simpl; [exact Ha|].
  apply Forall_cons_iff in H as [Hx H]. apply IH; [lia | exact H].
Qed.

(** The four sub-scores are in the unit interval. *)
Lemma subscores_unit_interval (raw : RawImage) (imagePath : string) :
  (1 <= width (info raw))%nat -> (1 <= height (info raw))%nat ->
  let d := details (scoreFrame raw imagePath) in
  0 <= globalRedCoverageScore d <= 1 /\
  0 <= redUniformityScore d <= 1 /\
  0 <= redIntensityScore d <= 1 /\
  0 <= nonRedAreaScore d <= 1.
Proof.
  intros Hw Hh d.
  destruct (scanGrid_invariant raw) as (Hlen & Hpos & Hle & Hcells).
  assert (Htot : 0 < ofNat (width (info raw) * height (info raw))).
  { apply ofNat_pos. nia. }
  assert (Hcov : 0 <= ofNat (totalRedPixels (scanGrid raw))
                      / ofNat (width (info raw) * height (info raw)) <= 1).
  { apply Qdiv_unit_interval; [apply ofNat_nonneg | now apply ofNat_le | exact Htot]. }
  unfold d, scoreFrame.
  cbn [details globalRedCoverageScore redUniformityScore redIntensityScore nonRedAreaScore].
  split; [|split; [|split]].
  - apply Qmin_1_unit. lra.
  - apply Qdiv_unit_interval; [apply ofNat_nonneg | | apply ofNat_pos; lia].
    apply ofNat_le. etransitivity; [apply List.filter_length_le|]. rewrite Hcells. lia.
  - apply Qmin_1_unit.
    destruct (0 <? length (redIntensities (scanGrid raw)))%nat eqn:E.
    + apply Nat.ltb_lt in E.
      apply Qdiv_nonneg; [|lra]. apply Qdiv_nonneg; [|apply ofNat_pos; lia].
      change 0 with (inject_Z 0). rewrite <- Zle_Qle.
      apply fold_add_positive; [lia | exact Hpos].
    + apply Qdiv_nonneg; lra.
  - apply Qmax_0_unit. lra.
Qed.

(** ** The store: reading through a larger store *)

Lemma getSample_extend (h h' : Store.heap) (r : Store.ref) s :
  h `prefix_of` h' -> Store.getSample h r = Some s -> Store.getSample h' r = Some s.
Proof.
  intros Hp. unfold Store.getSample.
  destruct (h !! r) as [c|] eqn:E; [|discriminate].
  now rewrite (prefix_lookup_Some _ _ _ _ E Hp).
Qed.

Lemma getArr_extend (h h' : Store.heap) (r : Store.ref) elems :
  h `prefix_of` h' -> Store.getArr h r = Some elems -> Store.getArr h' r = Some elems.
Proof.
  intros Hp. unfold Store.getArr.
  destruct (h !! r) as [c|] eqn:E; [|discriminate].
  now rewrite (prefix_lookup_Some _ _ _ _ E Hp).
Qed.

Lemma samplesAt_Forall2 (h : Store.heap) refs samples :
  Store.samplesAt h refs = Some samples
  <-> Forall2 (fun r s => Store.getSample h r = Some s) refs samples.
Proof. apply mapM_Some. Qed.

Lemma samplesAt_extend (h h' : Store.heap) refs samples :
  h `prefix_of` h' -> Store.samplesAt h refs = Some samples ->
  Store.samplesAt h' refs = Some samples.
Proof.
  intros Hp H. apply samplesAt_Forall2. apply samplesAt_Forall2 in H.
  eapply Forall2_impl; [|exact H]. intros r s. now apply getSample_extend.
Qed.

Lemma samplesAt_app (h : Store.heap) refs1 refs2 s1 s2 :
  Store.samplesAt h refs1 = Some s1 -> Store.samplesAt h refs2 = Some s2 ->
  Store.samplesAt h (refs1 ++ refs2) = Some (s1 ++ s2).
Proof.
  rewrite !samplesAt_Forall2. apply Forall2_app.
Qed.

Lemma deref_samples (h : Store.heap) refs samples :
  Store.samplesAt h refs = Some samples ->
  mapM (Store.deref h) refs = Some (zip samples refs).
Proof.
  intros H. apply samplesAt_Forall2 in H. apply mapM_Some.
  induction H as [|r s refs samples Hr _ IH]; simpl; constructor; [|exact IH].
  unfold Store.deref. now rewrite Hr.
Qed.

Lemma sample_is_no_array (h : Store.heap) (r f : Store.ref) s elems :
  Store.getSample h r = Some s -> Store.getArr h f = Some elems -> f <> r.
Proof.
  unfold Store.getSample, Store.getArr. intros Hs Ha ->.
  destruct (h !! r) as [[|]|]; discriminate.
Qed.

(** ** The store: [sort] in place *)

Lemma sortInsert_keyed x l :
  map fst (sortInsert compareKeyed x l) = sortInsert compareByTime (fst x) (map fst l).
Proof.
  induction l as [|y r IH]; simpl; [reflexivity|].
  change (compareKeyed x y) with (compareByTime (fst x) (fst y)).
  destruct (Qgtb _ _); simpl; [now rewrite IH | reflexivity].
Qed.

(** Sorting the references by the times read through them sorts the
    samples. *)
Lemma Array_sort_keyed l :
  map fst (Array_sort compareKeyed l) = Array_sort compareByTime (map fst l).
Proof.
  induction l as [|x l IH]; [reflexivity|].
  unfold Array_sort in *. simpl. now rewrite sortInsert_keyed, IH.
Qed.

Lemma zip_fst_snd {A B : Type} (l : list A) (k : list B) :
  length l = length k -> map fst (zip l k) = l /\ map snd (zip l k) = k.
Proof.
  revert k. induction l as [|x l IH]; intros [|y k] H; simpl in *; try discriminate.
  - split; reflexivity.
  - destruct (IH k) as [E1 E2]; [congruence|]. now rewrite E1, E2.
Qed.

Lemma sortInPlace_run (h : Store.heap) (arr : Store.ref) elems samples :
  Store.getArr h arr = Some elems ->
  Store.samplesAt h elems = Some samples ->
  exists sortedRefs,
    Store.sortInPlace h arr = Some (<[arr := Store.Arr sortedRefs]> h) /\
    Permutation elems sortedRefs /\
    Forall2 (fun r s => Store.getSample h r = Some s)
            sortedRefs (Array_sort compareByTime samples).
Proof.
  intros Harr Hs. unfold Store.sortInPlace. rewrite Harr. simpl.
  rewrite (deref_samples _ _ _ Hs). simpl.
  fold compareKeyed.
  assert (Hlen : length samples = length elems).
  { apply samplesAt_Forall2 in Hs. symmetry. eapply Forall2_length, Hs. }
  destruct (zip_fst_snd samples elems Hlen) as [Efst Esnd].
  eexists. split; [reflexivity|]. split.
  - rewrite <- Esnd at 1. apply Permutation_map, Array_sort_perm.
  - rewrite <- Efst at 2. rewrite <- Array_sort_keyed.
    assert (Hall : Forall (fun p => Store.getSample h (snd p) = Some (fst p))
                          (Array_sort compareKeyed (zip samples elems))).
    { eapply Permutation_Forall; [apply Array_sort_perm|].
      apply samplesAt_Forall2 in Hs. clear -Hs.
      induction Hs as [|r s refs ss Hr _ IH]; simpl; constructor; assumption. }
    induction Hall as [|p l Hp _ IH]; simpl; constructor; assumption.
Qed.

(** ** The store: the merge loop reads what the loop over samples reads *)

Lemma clusterRel_fields (h : Store.heap) c pc :
  clusterRel h c pc ->
  Store.samplesAt h (Store.detections c) = Some (detections pc) /\
  startTime pc = Store.startTime c /\
  endTime pc = Store.endTime c /\
  averageConfidence pc = Store.averageConfidence c /\
  peakConfidence pc = Store.peakConfidence c.
Proof.
  unfold clusterRel, Store.readCluster.
  destruct (Store.samplesAt h (Store.detections c)) as [ds|]; simpl; [|discriminate].
  intros [= <-]. repeat split.
Qed.

Lemma clusterRel_extend (h h' : Store.heap) c pc :
  h `prefix_of` h' -> clusterRel h c pc -> clusterRel h' c pc.
Proof.
  intros Hp H. pose proof (clusterRel_fields _ _ _ H) as (Hs & _).
  unfold clusterRel, Store.readCluster in *.
  rewrite (samplesAt_extend _ _ _ _ Hp Hs). rewrite Hs in H. exact H.
Qed.

Lemma openCluster_refines (h : Store.heap) r k :
  Store.getSample h r = Some k ->
  exists c, Store.openCluster h r = Some c /\ clusterRel h c (openCluster k).
Proof.
  intros Hr. unfold Store.openCluster. rewrite Hr. simpl.
  eexists. split; [reflexivity|].
  unfold clusterRel, Store.readCluster, Store.samplesAt. simpl. rewrite Hr. reflexivity.
Qed.

Lemma extendCluster_refines (h : Store.heap) c pc r k :
  Store.getSample h r = Some k -> clusterRel h c pc ->
  exists c', Store.extendCluster h c r = Some c' /\ clusterRel h c' (extendCluster pc k).
Proof.
  intros Hr Hc. destruct (clusterRel_fields _ _ _ Hc) as (Hs & Hst & Hen & Hav & Hpk).
  assert (Hs' : Store.samplesAt h (Store.detections c ++ [r]) = Some (detections pc ++ [k])).
  { apply samplesAt_app; [exact Hs|]. unfold Store.samplesAt. simpl. now rewrite Hr. }
  assert (Hlen : length (Store.detections c ++ [r]) = length (detections pc ++ [k])).
  { apply samplesAt_Forall2 in Hs'. eapply Forall2_length, Hs'. }
  unfold Store.extendCluster. rewrite Hr. simpl. rewrite Hs'. simpl.
  eexists. split; [reflexivity|].
  unfold clusterRel, Store.readCluster. simpl. rewrite Hs'. simpl.
  unfold extendCluster. rewrite Hst, Hpk, Hlen. reflexivity.
Qed.

Lemma dedupStep_refines (h : Store.heap) w st pst r k :
  Store.getSample h r = Some k -> stateRel h st pst ->
  exists st', Store.dedupStep h w (Some st) r = Some st'
              /\ stateRel h st' (dedupStep w pst k).
Proof.
  intros Hr [Hcs Hcur]. destruct st as [cs cur], pst as [pcs pcur]. simpl in *.
  unfold Store.dedupStep. simpl. rewrite Hr. simpl.
  destruct Hcur as [c pc Hc|].
  - destruct (clusterRel_fields _ _ _ Hc) as (_ & _ & Hen & _). rewrite Hen.
    destruct (Qgtb (timeInSeconds k - Store.endTime c) w).
    + destruct (openCluster_refines h r k Hr) as (c' & -> & Hc'). simpl.
      eexists. split; [reflexivity|]. split; simpl.
      * apply Forall2_app; [exact Hcs|]. now repeat constructor.
      * now constructor.
    + destruct (extendCluster_refines h c pc r k Hr Hc) as (c' & -> & Hc'). simpl.
      eexists. split; [reflexivity|]. split; simpl; [exact Hcs | now constructor].
  - destruct (openCluster_refines h r k Hr) as (c' & -> & Hc'). simpl.
    eexists. split; [reflexivity|]. split; simpl; [exact Hcs | now constructor].
Qed.

Lemma dedupLoop_refines (h : Store.heap) w refs samples :
  Forall2 (fun r s => Store.getSample h r = Some s) refs samples ->
  forall st pst, stateRel h st pst ->
  exists st', fold_left (Store.dedupStep h w) refs (Some st) = Some st'
              /\ stateRel h st' (fold_left (dedupStep w) samples pst).
Proof.
  induction 1 as [|r k refs samples Hr _ IH]; intros st pst Hst; cbn [fold_left].
  - eauto.
  - destruct (dedupStep_refines h w st pst r k Hr Hst) as (st1 & -> & Hst1).
    now apply IH.
Qed.

Lemma analyzeStep_store (h : Store.heap) st r :
  Store.analyzeStep h st r = Store.dedupStep h 2 st r.
Proof. reflexivity. Qed.

Lemma analyzeLoop_store (h : Store.heap) refs st :
  fold_left (Store.analyzeStep h) refs st = fold_left (Store.dedupStep h 2) refs st.
Proof.
  revert st. induction refs as [|r refs IH]; intros st; cbn [fold_left]; [reflexivity|].
  now rewrite analyzeStep_store, IH.
Qed.

Lemma closeLoop_refines (h : Store.heap) st pst :
  stateRel h st pst -> Forall2 (clusterRel h) (Store.closeLoop st) (closeLoop pst).
Proof.
  intros [Hcs Hcur]. unfold Store.closeLoop, closeLoop.
  destruct Hcur; [|exact Hcs]. apply Forall2_app; [exact Hcs|]. now repeat constructor.
Qed.

Lemma clusterRel_length (h : Store.heap) c pc :
  clusterRel h c pc -> length (Store.detections c) = length (detections pc).
Proof.
  intros H. apply clusterRel_fields in H as (H & _).
  apply samplesAt_Forall2 in H. eapply Forall2_length, H.
Qed.

(** ** The store: the filtering loop allocates and pushes *)

Lemma prefix_insert_ge {A : Type} (l1 l2 : list A) (i : nat) (x : A) :
  l1 `prefix_of` l2 -> (length l1 <= i)%nat -> l1 `prefix_of` <[i := x]> l2.
Proof.
  intros [k ->] Hi. rewrite insert_app_r_alt by exact Hi. now exists (<[(i - length l1)%nat := x]> k).
Qed.

Lemma getSample_insert_arr (h : Store.heap) f elems elems' r s :
  Store.getArr h f = Some elems -> Store.getSample h r = Some s ->
  Store.getSample (<[f := Store.Arr elems']> h) r = Some s.
Proof.
  intros Hf Hr. pose proof (sample_is_no_array _ _ _ _ _ Hr Hf) as Hne.
  unfold Store.getSample in *. now rewrite list_lookup_insert_ne.
Qed.

Lemma getArr_insert (h : Store.heap) f elems elems' :
  Store.getArr h f = Some elems ->
  Store.getArr (<[f := Store.Arr elems']> h) f = Some elems'.
Proof.
  unfold Store.getArr. intros H.
  destruct (h !! f) as [c|] eqn:E; [|discriminate].
  apply lookup_lt_Some in E. now rewrite list_lookup_insert_eq.
Qed.

Lemma getSample_alloc (h : Store.heap) s :
  Store.getSample (h ++ [Store.Sample s]) (length h) = Some s.
Proof. unfold Store.getSample. now rewrite list_lookup_middle. Qed.

Lemma getArr_alloc (h : Store.heap) elems :
  Store.getArr (h ++ [Store.Arr elems]) (length h) = Some elems.
Proof. unfold Store.getArr. now rewrite list_lookup_middle. Qed.

Lemma fold_betterRef (l : list (KillScreenTimestamp * nat)) x :
  fst (fold_left Store.betterRef l x) = fold_left better (map fst l) (fst x).
Proof.
  revert x. induction l as [|y l IH]; intros x; simpl; [reflexivity|].
  rewrite IH. f_equal. unfold Store.betterRef, better. now destruct (Qgtb _ _).
Qed.

Lemma filterStep_run (h2 h : Store.heap) (f : nat) m c pc outRefs acc :
  f = length h2 -> h2 `prefix_of` h ->
  clusterRel h2 c pc -> detections pc <> [] ->
  Store.getArr h f = Some outRefs -> Store.samplesAt h outRefs = Some acc ->
  exists h' outRefs',
    Store.filterStep m f (Some h) c = Some h' /\
    h2 `prefix_of` h' /\
    Store.getArr h' f = Some outRefs' /\
    Store.samplesAt h' outRefs' = Some (acc ++ emitted m pc).
Proof.
  intros Hf Hp Hc Hne Harr Hacc.
  pose proof (clusterRel_length _ _ _ Hc) as Hlen.
  apply (clusterRel_extend _ _ _ _ Hp) in Hc.
  destruct (clusterRel_fields _ _ _ Hc) as (Hs & _).
  unfold Store.filterStep, emitted. simpl. rewrite Hlen.
  destruct (m <=? Z.of_nat (length (detections pc)))%Z.
  - rewrite (deref_samples _ _ _ Hs). simpl.
    destruct (detections pc) as [|d ds] eqn:Ed; [congruence|].
    destruct (Store.detections c) as [|r rs]; [discriminate Hlen|].
    cbn [zip zip_with Array_reduce1 mbind option_bind].
    unfold Store.push, Store.alloc.
    rewrite (getArr_extend h _ f outRefs (prefix_app_r _ _ _ (reflexivity h)) Harr). simpl.
    eexists _, _. split; [reflexivity|]. split; [|split].
    + apply prefix_insert_ge; [|lia]. now apply prefix_app_r.
    + eapply getArr_insert, getArr_extend; [|exact Harr].
      apply prefix_app_r. reflexivity.
    + assert (Hh : h `prefix_of` h ++ [Store.Sample
                 {| frameNumber := frameNumber (fst (fold_left Store.betterRef (zip ds rs) (d, r)));
                    timeInSeconds := timeInSeconds (fst (fold_left Store.betterRef (zip ds rs) (d, r)));
                    confidence := Qmin 1 (confidence (fst (fold_left Store.betterRef (zip ds rs) (d, r)))
                                         + Qmin (1 # 10) (ofNat (length (d :: ds)) * (2 # 100))) |}])
        by (apply prefix_app_r; reflexivity).
      apply samplesAt_Forall2, Forall2_app.
      * apply samplesAt_Forall2 in Hacc.
        eapply Forall2_impl; [|exact Hacc]. intros x s Hx.
        eapply getSample_insert_arr; [eapply getArr_extend; [exact Hh | exact Harr]|].
        eapply getSample_extend; [exact Hh | exact Hx].
      * constructor; [|constructor].
        assert (Hfl : (f < length h)%nat).
        { unfold Store.getArr in Harr. destruct (h !! f) eqn:E; [|discriminate].
          now apply lookup_lt_Some in E. }
        unfold Store.getSample. rewrite list_lookup_insert_ne by lia.
        rewrite list_lookup_middle by reflexivity.
        unfold enhance. rewrite Ed, fold_betterRef.
        assert (Hz : map fst (zip ds rs) = ds).
        { apply zip_fst_snd. simpl in Hlen. lia. }
        rewrite Hz. reflexivity.
  - exists h, outRefs. rewrite app_nil_r. now repeat split.
Qed.

Lemma filterLoop_run (h2 : Store.heap) (f : nat) m cs pcs :
  f = length h2 ->
  Forall2 (clusterRel h2) cs pcs ->
  Forall (fun pc => detections pc <> []) pcs ->
  forall h outRefs acc,
    h2 `prefix_of` h ->
    Store.getArr h f = Some outRefs -> Store.samplesAt h outRefs = Some acc ->
    exists h' outRefs',
      fold_left (Store.filterStep m f) cs (Some h) = Some h' /\
      h2 `prefix_of` h' /\
      Store.getArr h' f = Some outRefs' /\
      Store.samplesAt h' outRefs' = Some (acc ++ flat_map (emitted m) pcs).
Proof.
  intros Hf Hcs. induction Hcs as [|c pc cs pcs Hc _ IH]; intros Hne h outRefs acc Hp Harr Hacc.
  - exists h, outRefs. simpl. rewrite app_nil_r. now repeat split.
  - apply Forall_cons_iff in Hne as [Hne1 Hne].
    destruct (filterStep_run h2 h f m c pc outRefs acc Hf Hp Hc Hne1 Harr Hacc)
      as (h1 & out1 & Hstep & Hp1 & Harr1 & Hacc1).
    cbn [fold_left flat_map]. rewrite Hstep.
    destruct (IH Hne h1 out1 _ Hp1 Harr1 Hacc1) as (h' & out' & Hrun & Hp' & Harr' & Hacc').
    exists h', out'. rewrite app_assoc. now repeat split.
Qed.

(** ** The store: the two functions as a whole *)

Lemma insert_last {A : Type} (l : list A) (x y : A) :
  <[length l := x]> (l ++ [y]) = l ++ [x].
Proof.
  replace (length l) with (length l + 0)%nat at 1 by lia.
  now rewrite insert_app_r.
Qed.

(** The spread and the in-place sort: a new cell after the old store holds
    the references in time order; the old store is a prefix of the new. *)
Lemma sortedCopy_run (h : Store.heap) elems samples :
  Store.samplesAt h elems = Some samples ->
  exists sortedRefs,
    Store.sortInPlace (h ++ [Store.Arr elems]) (length h)
    = Some (h ++ [Store.Arr sortedRefs]) /\
    Forall2 (fun r s => Store.getSample (h ++ [Store.Arr sortedRefs]) r = Some s)
            sortedRefs (Array_sort compareByTime samples).
Proof.
  intros Hs.
  assert (Hp : h `prefix_of` h ++ [Store.Arr elems]) by (apply prefix_app_r; reflexivity).
  destruct (sortInPlace_run (h ++ [Store.Arr elems]) (length h) elems samples
              (getArr_alloc h elems) (samplesAt_extend _ _ _ _ Hp Hs))
    as (sortedRefs & Hrun & _ & Hpts).
  exists sortedRefs. rewrite insert_last in Hrun. split; [exact Hrun|].
  eapply Forall2_impl; [|exact Hpts]. intros r s Hr.
  rewrite <- (insert_last h (Store.Arr sortedRefs) (Store.Arr elems)).
  eapply getSample_insert_arr; [apply getArr_alloc | exact Hr].
Qed.

Lemma samples_length (h : Store.heap) elems samples :
  Store.samplesAt h elems = Some samples -> length elems = length samples.
Proof. intros H. apply samplesAt_Forall2 in H. eapply Forall2_length, H. Qed.

(** [deduplicateKillScreens] over the store returns; the store it was
    called with is a prefix of the store it leaves; the array it returns
    holds the records the function over samples computes. *)
Lemma store_deduplicate_run (h : Store.heap) (killScreens : nat) elems samples w m :
  Store.getArr h killScreens = Some elems ->
  Store.samplesAt h elems = Some samples ->
  exists out h' outRefs result,
    Store.deduplicateKillScreens h killScreens w m = Some (out, h') /\
    h `prefix_of` h' /\
    Store.getArr h' out = Some outRefs /\
    Store.samplesAt h' outRefs = Some result /\
    deduplicateKillScreens samples w m = Some result.
Proof.
  intros Hks Hs. pose proof (samples_length _ _ _ Hs) as Hlen.
  unfold Store.deduplicateKillScreens, deduplicateKillScreens.
  rewrite Hks. simpl. rewrite <- Hlen.
  destruct (length elems =? 0)%nat eqn:E.
  - exists (length h), (h ++ [Store.Arr []]), [], [].
    split; [reflexivity|]. split; [apply prefix_app_r; reflexivity|].
    split; [apply getArr_alloc|]. split; reflexivity.
  - destruct (sortedCopy_run h elems samples Hs) as (sortedRefs & Hsort & Hpts).
    rewrite Hsort. simpl. rewrite getArr_alloc. simpl.
    set (h2 := h ++ [Store.Arr sortedRefs]) in *.
    destruct (dedupLoop_refines h2 w sortedRefs _ Hpts ([], None) ([], None))
      as (st & Hloop & Hst); [split; constructor|].
    rewrite Hloop. simpl.
    pose proof (closeLoop_refines _ _ _ Hst) as Hcs.
    destruct (dedupClusters_apart w (Array_sort compareByTime samples)
                (Array_sort_sorted samples)) as [_ Hne].
    destruct (filterLoop_run h2 (length h2) m _ _ eq_refl Hcs Hne
                (h2 ++ [Store.Arr []]) [] [])
      as (h4 & outRefs & Hrun & Hp4 & Harr4 & Hacc4).
    { apply prefix_app_r. reflexivity. }
    { apply getArr_alloc. }
    { reflexivity. }
    rewrite Hrun. simpl.
    exists (length h2), h4, outRefs, (flat_map (emitted m) (dedupClusters w (Array_sort compareByTime samples))).
    split; [reflexivity|]. split.
    { etransitivity; [|exact Hp4]. apply prefix_app_r. reflexivity. }
    split; [exact Harr4|]. split; [exact Hacc4|].
    now apply filterClusters_emitted.
Qed.

Lemma clusterRel_sizes (h : Store.heap) cs pcs :
  Forall2 (clusterRel h) cs pcs ->
  map (fun c => length (Store.detections c)) cs
  = map (fun c => length (detections c)) pcs.
Proof.
  induction 1 as [|c pc cs pcs Hc _ IH]; simpl; [reflexivity|].
  now rewrite (clusterRel_length _ _ _ Hc), IH.
Qed.

(** [analyzeDetectionClusters] over the store returns; the store it was
    called with is a prefix of the store it leaves; its statistics are those
    of the function over samples, and its clusters stand for the same
    clusters. *)
Lemma store_analyze_run (h : Store.heap) (killScreens : nat) elems samples :
  Store.getArr h killScreens = Some elems ->
  Store.samplesAt h elems = Some samples ->
  exists analysis h',
    Store.analyzeDetectionClusters h killScreens = Some (analysis, h') /\
    h `prefix_of` h' /\
    Forall2 (clusterRel h') (Store.clusters analysis)
            (clusters (analyzeDetectionClusters samples)) /\
    Store.totalClusters analysis = totalClusters (analyzeDetectionClusters samples) /\
    Store.maxClusterSize analysis = maxClusterSize (analyzeDetectionClusters samples) /\
    Store.averageClusterSize analysis = averageClusterSize (analyzeDetectionClusters samples).
Proof.
  intros Hks Hs. pose proof (samples_length _ _ _ Hs) as Hlen.
  unfold Store.analyzeDetectionClusters, analyzeDetectionClusters.
  rewrite Hks. simpl. rewrite <- Hlen.
  destruct (length elems =? 0)%nat eqn:E.
  - eexists _, h. split; [reflexivity|]. split; [reflexivity|].
    repeat split. constructor.
  - destruct (sortedCopy_run h elems samples Hs) as (sortedRefs & Hsort & Hpts).
    rewrite Hsort. simpl. rewrite getArr_alloc. simpl.
    set (h2 := h ++ [Store.Arr sortedRefs]) in *.
    rewrite analyzeLoop_store, analyzeLoop_dedupLoop.
    destruct (dedupLoop_refines h2 2 sortedRefs _ Hpts ([], None) ([], None))
      as (st & Hloop & Hst); [split; constructor|].
    rewrite Hloop. simpl.
    pose proof (closeLoop_refines _ _ _ Hst) as Hcs.
    eexists _, h2. split; [reflexivity|]. split; [apply prefix_app_r; reflexivity|].
    cbn [Store.clusters Store.totalClusters Store.maxClusterSize Store.averageClusterSize
         clusters totalClusters maxClusterSize averageClusterSize].
    rewrite (clusterRel_sizes _ _ _ Hcs), (Forall2_length Hcs).
    repeat split. exact Hcs.
Qed.

(** ** Pure red frames *)

Lemma lookup_concat_repeat {A : Type} (blk : list A) (n i k : nat) :
  (i < n)%nat -> (k < length blk)%nat ->
  concat (repeat blk n) !! (i * length blk + k)%nat = blk !! k.
Proof.
  revert i. induction n as [|n IH]; intros i Hi Hk; [lia|]. simpl.
  destruct i as [|i].
  - simpl. now apply lookup_app_l.
  - rewrite lookup_app_r by (simpl; lia).
    replace (S i * length blk + k - length blk)%nat with (i * length blk + k)%nat
      by (simpl; lia).
    apply IH; lia.
Qed.

Lemma redPixel_shape c :
  (3 <= c)%nat ->
  redPixel c = [Byte.xff; Byte.x00; Byte.x00] ++ repeat Byte.x00 (c - 3).
Proof.
  intros Hc. unfold redPixel. apply take_ge.
  rewrite length_app, repeat_length. simpl. lia.
Qed.

Lemma redPixel_length c : (3 <= c)%nat -> length (redPixel c) = c.
Proof.
  intros Hc. rewrite redPixel_shape by exact Hc.
  rewrite length_app, repeat_length. simpl. lia.
Qed.

(** The three bytes the scorer reads at pixel [i] of a pure red buffer. *)
Lemma byteAt_allRed (c n i : nat) :
  (3 <= c)%nat -> (i < n)%nat ->
  byteAt (concat (repeat (redPixel c) n)) (i * c) = Some 255%Z /\
  byteAt (concat (repeat (redPixel c) n)) (i * c + 1) = Some 0%Z /\
  byteAt (concat (repeat (redPixel c) n)) (i * c + 2) = Some 0%Z.
Proof.
  intros Hc Hi. unfold byteAt.
  pose proof (redPixel_length c Hc) as Hlen.
  pose proof (lookup_concat_repeat (redPixel c) n i 0 Hi ltac:(lia)) as H0.
  pose proof (lookup_concat_repeat (redPixel c) n i 1 Hi ltac:(lia)) as H1.
  pose proof (lookup_concat_repeat (redPixel c) n i 2 Hi ltac:(lia)) as H2.
  rewrite Hlen in H0, H1, H2. rewrite Nat.add_0_r in H0.
  rewrite H0, H1, H2, redPixel_shape by exact Hc. repeat split.
Qed.

Lemma pixelStep_allRed (w h c x y : nat) st :
  (3 <= c)%nat -> (x < w)%nat -> (y < h)%nat ->
  pixelStep (data (allRedFrame w h c)) w c y st x = addRed 1 st.
Proof.
  intros Hc Hx Hy. destruct st as [cell frame].
  assert (Hi : (y * w + x < w * h)%nat).
  { pose proof (Nat.mul_le_mono_r (S y) h w ltac:(lia)). lia. }
  destruct (byteAt_allRed c (w * h) (y * w + x) Hc Hi) as (Hr & Hg & Hb).
  unfold pixelStep, allRedFrame. cbn [data]. rewrite Hr, Hg, Hb. cbn.
  unfold addRed. cbn. f_equal; f_equal; lia.
Qed.

Lemma addRed_add (a b : nat) st : addRed a (addRed b st) = addRed (b + a) st.
Proof.
  unfold addRed. cbn [fst snd cellRedPixels cellTotalPixels cellRedIntensity
                      totalRedPixels redIntensities redCells].
  rewrite <- app_assoc, <- repeat_app. f_equal; f_equal; lia.
Qed.

Lemma addRed_0 st : addRed 0 st = st.
Proof.
  destruct st as [[a b i] [t l cs]]. unfold addRed. cbn.
  rewrite app_nil_r. f_equal; f_equal; lia.
Qed.

Lemma row_allRed (w h c y : nat) (xs : list nat) st :
  (3 <= c)%nat -> (y < h)%nat -> Forall (fun x => (x < w)%nat) xs ->
  fold_left (pixelStep (data (allRedFrame w h c)) w c y) xs st = addRed (length xs) st.
Proof.
  intros Hc Hy Hxs. revert st.
  induction Hxs as [|x xs Hx _ IH]; intros st; cbn [fold_left length].
  - now rewrite addRed_0.
  - rewrite pixelStep_allRed, IH, addRed_add by assumption. reflexivity.
Qed.

Lemma rows_allRed (w h c : nat) (xs ys : list nat) st :
  (3 <= c)%nat ->
  Forall (fun x => (x < w)%nat) xs -> Forall (fun y => (y < h)%nat) ys ->
  fold_left (fun st y => fold_left (pixelStep (data (allRedFrame w h c)) w c y) xs st) ys st
  = addRed (length ys * length xs) st.
Proof.
  intros Hc Hxs Hys. revert st.
  induction Hys as [|y ys Hy _ IH]; intros st; cbn [fold_left length].
  - now rewrite addRed_0.
  - rewrite row_allRed, IH, addRed_add by assumption. f_equal; lia.
Qed.

Lemma range_below (lo hi bound : nat) :
  (hi <= bound)%nat -> Forall (fun x => (x < bound)%nat) (range lo hi).
Proof.
  intros H. apply Forall_forall. intros x Hx. unfold range in Hx.
  apply in_seq in Hx. lia.
Qed.

(** One cell of a pure red frame: all of its [ch * cw] pixels are red. *)
Lemma cellStep_allRed (w h c gridX gridY : nat) frame :
  (3 <= c)%nat -> (gridX < 3)%nat -> (gridY < 3)%nat ->
  cellStep (data (allRedFrame w h c)) w h c (w / 3) (h / 3) gridY frame gridX
  = {| totalRedPixels := totalRedPixels frame + h / 3 * (w / 3);
       redIntensities := redIntensities frame ++ repeat 255%Z (h / 3 * (w / 3));
       redCells := redCells frame ++ [redCellOf gridX gridY (h / 3 * (w / 3))] |}.
Proof.
  intros Hc Hgx Hgy. unfold cellStep.
  pose proof (Nat.Div0.mul_div_le w 3) as Hw. pose proof (Nat.Div0.mul_div_le h 3) as Hh.
  assert (Ex : Nat.min (gridX * (w / 3) + w / 3) w = (gridX * (w / 3) + w / 3)%nat) by nia.
  assert (Ey : Nat.min (gridY * (h / 3) + h / 3) h = (gridY * (h / 3) + h / 3)%nat) by nia.
  rewrite Ex, Ey.
  rewrite (rows_allRed w h c) by (try exact Hc; apply range_below; nia).
  rewrite !range_length.
  replace (gridY * (h / 3) + h / 3 - gridY * (h / 3))%nat with (h / 3)%nat by lia.
  replace (gridX * (w / 3) + w / 3 - gridX * (w / 3))%nat with (w / 3)%nat by lia.
  reflexivity.
Qed.

(** The scan of a pure red frame: nine cells of [floor(h/3) * floor(w/3)]
    red pixels each, whatever is left of the frame to their right and
    below. *)
Lemma scanGrid_allRed (w h c : nat) :
  (3 <= c)%nat ->
  totalRedPixels (scanGrid (allRedFrame w h c)) = (9 * (h / 3 * (w / 3)))%nat /\
  redIntensities (scanGrid (allRedFrame w h c)) = repeat 255%Z (9 * (h / 3 * (w / 3))) /\
  redCells (scanGrid (allRedFrame w h c))
  = map (fun xy => redCellOf (fst xy) (snd xy) (h / 3 * (w / 3)))
        [(0, 0); (1, 0); (2, 0); (0, 1); (1, 1); (2, 1); (0, 2); (1, 2); (2, 2)]%nat.
Proof.
  intros Hc. unfold scanGrid.
  change (info (allRedFrame w h c)) with {| width := w; height := h; channels := c |}.
  cbn [width height channels]. change (range 0 3) with [0; 1; 2]%nat.
  cbn [fold_left]. rewrite !cellStep_allRed by (try exact Hc; lia).
  cbn [totalRedPixels redIntensities redCells]. split; [lia|]. split.
  - rewrite app_nil_l, <- !repeat_app. f_equal. lia.
  - reflexivity.
Qed.

Lemma Qdiv_self (q : Q) : 0 < q -> q / q == 1.
Proof. intros H. field. lra. Qed.

Lemma fold_add_repeat (z : Z) (n : nat) (a : Z) :
  fold_left (fun sum intensity => (sum + intensity)%Z) (repeat z n) a
  = (a + z * Z.of_nat n)%Z.
Proof.
  revert a. induction n as [|n IH]; intros a; simpl repeat; cbn [fold_left]; [lia|].
  rewrite IH. lia.
Qed.

Lemma redCellOf_ratio gridX gridY n :
  Qgtb (redRatio (redCellOf gridX gridY n)) (3 # 10) = (0 <? n)%nat.
Proof.
  unfold redCellOf. cbn [redRatio]. rewrite Nat.add_0_l.
  destruct (0 <? n)%nat eqn:E; [|reflexivity].
  apply Nat.ltb_lt in E. apply Qgtb_true.
  rewrite Qdiv_self by (apply ofNat_pos; lia). lra.
Qed.

(** The sub-scores of a pure red frame, in terms of the number [n] of
    pixels per cell. *)
Lemma allRed_subscores (w h c : nat) (imagePath : string) :
  (3 <= c)%nat -> (1 <= w)%nat -> (1 <= h)%nat ->
  let d := details (scoreFrame (allRedFrame w h c) imagePath) in
  let n := (h / 3 * (w / 3))%nat in
  globalRedCoverage d = ofNat (9 * n) / ofNat (w * h) /\
  redUniformityScore d == (if (0 <? n)%nat then 1 else 0) /\
  redIntensityScore d == (if (0 <? n)%nat then 1 else 0).
Proof.
  intros Hc Hw Hh d n.
  destruct (scanGrid_allRed w h c Hc) as (Htot & Hints & Hcells). fold n in Htot, Hints, Hcells.
  unfold d, scoreFrame.
  cbn [details globalRedCoverage redUniformityScore redIntensityScore].
  rewrite Htot, Hints, Hcells.
  change (info (allRedFrame w h c)) with {| width := w; height := h; channels := c |}.
  cbn [width height]. split; [reflexivity|]. split.
  - cbn [map filter fst snd]. rewrite !redCellOf_ratio.
    destruct (0 <? n)%nat; vm_compute; reflexivity.
  - rewrite repeat_length, fold_add_repeat.
    destruct (0 <? n)%nat eqn:E.
    + apply Nat.ltb_lt in E.
      assert (E9 : (0 <? 9 * n)%nat = true) by (apply Nat.ltb_lt; lia).
      rewrite E9.
      assert (Havg : inject_Z (0 + 255 * Z.of_nat (9 * n)) / ofNat (9 * n) == 255).
      { unfold ofNat. rewrite Z.add_0_l, inject_Z_mult.
        field. change 0 with (inject_Z 0). rewrite inject_Z_injective. lia. }
      rewrite Havg. vm_compute. reflexivity.
    + apply Nat.ltb_ge in E. replace n with 0%nat by lia. vm_compute. reflexivity.
Qed.

Lemma grid_covers_frame (w h : nat) :
  (1 <= w)%nat -> (1 <= h)%nat ->
  (9 * (h / 3 * (w / 3)) = w * h)%nat <-> (w mod 3 = 0 /\ h mod 3 = 0)%nat.
Proof.
  intros Hw Hh.
  pose proof (Nat.div_mod_eq w 3) as Ew. pose proof (Nat.div_mod_eq h 3) as Eh.
  pose proof (Nat.mod_upper_bound w 3 ltac:(lia)) as Bw.
  pose proof (Nat.mod_upper_bound h 3 ltac:(lia)) as Bh.
  set (a := (w / 3)%nat) in *. set (b := (h / 3)%nat) in *.
  set (ra := (w mod 3)%nat) in *. set (rb := (h mod 3)%nat) in *.
  clearbody a b ra rb. subst w h.
  split.
  - intros E.
    assert (a * rb * 3 + b * ra * 3 + ra * rb = 0)%nat by nia.
    split; nia.
  - intros [-> ->]. nia.
Qed.

(** The confidence of a pure red frame is 1 exactly when the grid covers the
    frame, that is, when 3 divides the width and the height. *)
Theorem allRed_confidence (w h c : nat) (imagePath : string) :
  (3 <= c)%nat -> (1 <= w)%nat -> (1 <= h)%nat ->
  killScore (scoreFrame (allRedFrame w h c) imagePath) == 1
  <-> (w mod 3 = 0 /\ h mod 3 = 0)%nat.
Proof.
  intros Hc Hw Hh.
  rewrite <- (grid_covers_frame w h Hw Hh).
  destruct (allRed_subscores w h c imagePath Hc Hw Hh) as (Hcov & Hu & Hi).
  destruct (scanGrid_invariant (allRedFrame w h c)) as (_ & _ & Hle & _).
  destruct (scanGrid_allRed w h c Hc) as (Htot & _). rewrite Htot in Hle.
  change (info (allRedFrame w h c)) with {| width := w; height := h; channels := c |} in Hle.
  cbn [width height] in Hle.
  set (r := scoreFrame (allRedFrame w h c) imagePath) in *.
  set (n := (h / 3 * (w / 3))%nat) in *.
  assert (Hpos : 0 < ofNat (w * h)) by (apply ofNat_pos; nia).
  assert (Hc01 : 0 <= ofNat (9 * n) / ofNat (w * h) <= 1).
  { apply Qdiv_unit_interval; [apply ofNat_nonneg | now apply ofNat_le | exact Hpos]. }
  assert (Hone : ofNat (9 * n) / ofNat (w * h) == 1 <-> (9 * n = w * h)%nat).
  { split.
    - intros E. apply (Qmult_inj_r _ _ (ofNat (w * h))) in E; [|lra].
      rewrite Qmult_1_l in E.
      assert (E' : ofNat (9 * n) == ofNat (w * h)).
      { rewrite <- E. field. lra. }
      unfold ofNat in E'. rewrite inject_Z_injective in E'. lia.
    - intros ->. apply Qdiv_self, Hpos. }
  assert (E : killScore r ==
              Qmin 1 (globalRedCoverage (details r) * 2) * (4 # 10)
              + redUniformityScore (details r) * (3 # 10)
              + redIntensityScore (details r) * (2 # 10)
              + Qmax 0 (1 - (1 - globalRedCoverage (details r)) * 3) * (1 # 10))
    by reflexivity.
  rewrite E, Hu, Hi, Hcov, <- Hone.
  set (cov := ofNat (9 * n) / ofNat (w * h)) in *.
  destruct (Q.min_spec 1 (cov * 2)) as [[H1 ->]|[H1 ->]],
           (Q.max_spec 0 (1 - (1 - cov) * 3)) as [[H2 ->]|[H2 ->]],
           (0 <? n)%nat eqn:En;
    try (split; intros; lra).
  all: apply Nat.ltb_ge in En; assert (n = 0)%nat by lia; subst n;
    assert (Hz : cov == 0)
      by (unfold cov; replace (9 * (h / 3 * (w / 3)))%nat with 0%nat by lia;
          change (ofNat 0) with 0; field; lra);
    split; intros; lra.
Qed.

Lemma allRed_confidence_witness :
  killScore (scoreFrame (allRedFrame 6 3 4) "frame.png") == 1
  <-> (6 mod 3 = 0 /\ 3 mod 3 = 0)%nat.
Proof. apply (allRed_confidence 6 3 4 "frame.png"); lia. Defined.

(** ** The worked example and the diagnostic pass *)


Lemma fold_left_add_list_sum (l : list nat) (a : nat) :
  fold_left (fun sum size => (sum + size)%nat) l a = (a + list_sum l)%nat.
Proof.
  revert a. induction l as [|x l IH]; intros a; simpl; [lia|]. rewrite IH. lia.
Qed.

(** C3.  Whatever the input, [analyzeDetectionClusters] builds the
    partition that the merge step of [deduplicateKillScreens] builds from
    the same time-sorted samples with the window set to 2 seconds; the
    function has no window argument at all.  Its three statistics are those
    of that partition: the number of clusters, the largest cluster size, and
    the mean cluster size (0 on the empty input, where there is no cluster);
    the cluster sizes add up to the number of samples. *)
Theorem analyze_is_two_second_partition (killScreens : list KillScreenTimestamp) :
  let analysis := analyzeDetectionClusters killScreens in
  let partition := dedupClusters 2 (Array_sort compareByTime killScreens) in
  let sizes := map (fun c => length (detections c)) partition in
  clusters analysis = partition /\
  totalClusters analysis = length partition /\
  maxClusterSize analysis = list_max sizes /\
  list_sum sizes = length killScreens /\
  match killScreens with
  | [] => averageClusterSize analysis == 0
  | _ :: _ =>
      partition <> [] /\
      averageClusterSize analysis == ofNat (list_sum sizes) / ofNat (length partition)
  end.
Proof.
  intros analysis partition sizes.
  assert (Hsum : list_sum sizes = length killScreens).
  { unfold sizes. rewrite <- (Array_sort_length compareByTime killScreens).
    pose proof (dedupClusters_partition 2 (Array_sort compareByTime killScreens)) as E.
    apply (f_equal (@length _)) in E. rewrite length_concat, map_map in E. exact E. }
  destruct killScreens as [|k ks].
  - repeat split; reflexivity.
  - assert (Hc : clusters analysis = partition).
    { unfold analysis, analyzeDetectionClusters, partition, dedupClusters.
      cbn [length Nat.eqb clusters]. now rewrite analyzeLoop_dedupLoop. }
    assert (Hne : partition <> []).
    { apply dedupClusters_nonempty. intros E.
      apply (f_equal (@length _)) in E. now rewrite Array_sort_length in E. }
    unfold analysis, analyzeDetectionClusters in *.
    cbn [length Nat.eqb clusters totalClusters maxClusterSize averageClusterSize] in *.
    rewrite Hc. fold sizes.
    repeat split; try reflexivity; try assumption.
    rewrite fold_left_add_list_sum. reflexivity.
Qed.

(** The diagnostic pass and a production pass configured with another
    window disagree: [detect-only] clusters with a 5-second window, and two
    samples 3 seconds apart are two clusters for the statistics and one
    cluster for the production pass. *)
Example analyze_ignores_configured_window :
  let raw := [ mkKillScreenTimestamp 0 0 0.9; mkKillScreenTimestamp 15 3 0.9 ] in
  totalClusters (analyzeDetectionClusters raw) = 2%nat /\
  length (dedupClusters 5 (Array_sort compareByTime raw)) = 1%nat.
Proof. split; reflexivity. Qed.

(** ** Segment planning *)

Lemma Qmax_0_nonneg (q : Q) : 0 <= Qmax 0 q.
Proof. apply Q.le_max_l. Qed.

(** C7.  [createVideoSegments] is a total function that answers one
    segment per event, in order, with startTime = max(0, t - lead), endTime
    = t + trail and duration = lead + trail; the start is never negative,
    and when the start is clamped to 0 the duration is still lead + trail.
    For t = 1.0, lead = 3 and trail = 2 the segment is (0, 3, 5). *)
Theorem createVideoSegments_plan
    (timestamps : list KillScreenTimestamp) (lead trail : Q) :
  Forall2 (fun timestamp segment =>
             plansSegment lead trail (timeInSeconds timestamp) segment /\
             0 <= VideoSegment.startTime segment /\
             match Qlt_le_dec (timeInSeconds timestamp) lead with
             | left _ => VideoSegment.startTime segment = 0 /\
                         VideoSegment.duration segment = lead + trail
             | right _ => VideoSegment.startTime segment == timeInSeconds timestamp - lead
             end)
          timestamps (createVideoSegments timestamps lead trail) /\
  (forall frame confidence,
     exists segment,
       createVideoSegments [mkKillScreenTimestamp frame 1.0 confidence] 3 2 = [segment] /\
       VideoSegment.startTime segment == 0 /\
       VideoSegment.endTime segment == 3.0 /\
       VideoSegment.duration segment == 5.0).
Proof.
  split; [|intros; eexists; split; [reflexivity|repeat split; vm_compute; reflexivity]].
  induction timestamps as [|t ts IH]; simpl; constructor; [|exact IH].
  split; [repeat split|]. simpl. split; [apply Qmax_0_nonneg|].
  destruct (Qlt_le_dec (timeInSeconds t) lead) as [Hlt|Hle].
  - split; [|reflexivity]. unfold Qmax, GenericMinMax.gmax.
    destruct (0 ?= timeInSeconds t - lead) eqn:E; try reflexivity.
    apply Qlt_alt in E. lra.
  - apply Q.max_r. lra.
Qed.

(** ** The generation run *)

Lemma Forall2_map_self {A B : Type} (P : A -> B -> Prop) (f : A -> B) (l : list A) :
  (forall x, P x (f x)) -> Forall2 P l (map f l).
Proof. intros H. induction l; simpl; constructor; auto. Qed.

Lemma filter_enabled_disable (d : DetectionEntry.t) (l1 l2 : list DetectionEntry.t) :
  filter (fun d => DetectionEntry.enabled d) (l1 ++ disable d :: l2)
  = filter (fun d => DetectionEntry.enabled d) l1
    ++ filter (fun d => DetectionEntry.enabled d) l2.
Proof. rewrite List.filter_app. reflexivity. Qed.

Lemma generateVideo_segments (detectionFile : string) (project : DetectionProject.t)
    (options : GenerateOptions) :
  preview options = false ->
  plannedSegments (generateVideo detectionFile project options)
  = map (fun detection =>
           VideoSegment.mk
             (Qmax 0 (DetectionEntry.timeInSeconds detection - leadOf project options))
             (DetectionEntry.timeInSeconds detection + trailOf project options)
             (leadOf project options + trailOf project options))
        (filter (fun d => DetectionEntry.enabled d) (DetectionProject.detections project)).
Proof.
  intros Hp. unfold generateVideo, leadOf, trailOf. rewrite Hp.
  destruct (filter _ (DetectionProject.detections project)) as [|d ds]; reflexivity.
Qed.

(** C9.  In a generation run (not a preview) over a persisted record list,
    the segments handed to the slicer are those of the records with
    [enabled = true], in list order, each planned from its record's time.
    Setting [enabled = false] on one enabled record removes that record's
    segment and nothing else: the segments of the records before it and
    after it are the same segments in the same order. *)
Theorem disable_removes_one_segment
    (detectionFile : string) (project : DetectionProject.t) (options : GenerateOptions)
    (earlier later : list DetectionEntry.t) (d : DetectionEntry.t) :
  preview options = false ->
  DetectionProject.detections project = earlier ++ d :: later ->
  DetectionEntry.enabled d = true ->
  let run := fun p => plannedSegments (generateVideo detectionFile p options) in
  let segmentsOf := fun ds => run (withDetections project ds) in
  exists segment,
    plansSegment (leadOf project options) (trailOf project options)
                 (DetectionEntry.timeInSeconds d) segment /\
    run project = segmentsOf earlier ++ segment :: segmentsOf later /\
    run (withDetections project (earlier ++ disable d :: later))
    = segmentsOf earlier ++ segmentsOf later /\
    Forall2 (fun record s =>
               plansSegment (leadOf project options) (trailOf project options)
                            (DetectionEntry.timeInSeconds record) s)
            (filter (fun r => DetectionEntry.enabled r) (DetectionProject.detections project))
            (run project).
Proof.
  intros Hp Hds Hd run segmentsOf.
  unfold segmentsOf, run. rewrite !generateVideo_segments by exact Hp.
  cbn [withDetections DetectionProject.detections].
  change (leadOf (withDetections project _) options) with (leadOf project options).
  change (trailOf (withDetections project _) options) with (trailOf project options).
  rewrite Hds, filter_enabled_disable, List.filter_app. cbn [filter]. rewrite Hd.
  rewrite !map_app. cbn [map].
  eexists. split; [|split; [reflexivity|split; [reflexivity|]]].
  - repeat split.
  - apply Forall2_app; [|constructor]; try apply Forall2_map_self;
      intros; repeat split.
Qed.

(** ** Re-running the clusterer on its own output *)

Lemma singletons_not_merged w (l : list KillScreenTimestamp) :
  farPairsNotMerged w (map openCluster l).
Proof.
  intros c Hc i j a b Hij Ha Hb.
  apply in_map_iff in Hc as (o & <- & _). simpl in Ha, Hb.
  destruct i as [|i], j as [|j]; try congruence; simpl in *;
    try (rewrite lookup_nil in Ha; discriminate);
    try (rewrite lookup_nil in Hb; discriminate).
Qed.

Lemma rerun_output w (out : list KillScreenTimestamp) :
  StronglySorted (apart w) out ->
  deduplicateKillScreens out w 1
  = Some (map (fun o => enhance (openCluster o) o) out).
Proof.
  intros Hs. unfold deduplicateKillScreens.
  destruct out as [|o out]; [reflexivity|]. cbn [length Nat.eqb].
  rewrite Array_sort_sorted_id
    by (eapply StronglySorted_weaken; [|exact Hs]; now intros x y [H _]).
  rewrite dedupClusters_apart_singletons by exact Hs.
  rewrite filterClusters_emitted.
  - f_equal. rewrite flat_map_concat_map, map_map, <- flat_map_concat_map.
    now apply flat_map_singletons.
  - apply Forall_forall. intros c Hc. apply in_map_iff in Hc as (x & <- & _). discriminate.
Qed.

(** C8.  Whatever the input, the window and the minimum cluster size of a
    first run, the first run returns, and a second run on its records with
    the same window (and minimum cluster size 1) puts every record in a
    cluster of its own: no two records, and so no two records more than
    mergeWindowSeconds apart, share a cluster, and the second run returns as
    many records as it was given, with the same times and frame indices. *)
Theorem rerun_never_merges
    (killScreens : list KillScreenTimestamp) (mergeWindowSeconds : Q)
    (minClusterSize : Z) :
  exists out,
    deduplicateKillScreens killScreens mergeWindowSeconds minClusterSize = Some out /\
    let reclustered :=
      dedupClusters mergeWindowSeconds (Array_sort compareByTime out) in
    farPairsNotMerged mergeWindowSeconds reclustered /\
    reclustered = map openCluster out /\
    exists out',
      deduplicateKillScreens out mergeWindowSeconds 1 = Some out' /\
      map timeInSeconds out' = map timeInSeconds out /\
      map frameNumber out' = map frameNumber out.
Proof.
  destruct (deduplicateKillScreens_apart killScreens mergeWindowSeconds minClusterSize)
    as (out & Hout & Hs).
  exists out. split; [exact Hout|]. cbv zeta.
  assert (Hre : dedupClusters mergeWindowSeconds (Array_sort compareByTime out)
                = map openCluster out).
  { rewrite Array_sort_sorted_id
      by (eapply StronglySorted_weaken; [|exact Hs]; now intros x y [H _]).
    now apply dedupClusters_apart_singletons. }
  rewrite Hre. split; [apply singletons_not_merged|]. split; [reflexivity|].
  eexists. split; [now apply rerun_output|].
  rewrite !map_map. split; reflexivity.
Qed.

(** ** The frame scorer *)

(** C1.  Whatever the decoder hands over, as long as the frame has at least
    one column and one row (any channel count, any bytes, any buffer
    length), [detectGlobalRed] resolves to a result whose killScore is
    0.4 * globalRedCoverageScore + 0.3 * redUniformityScore
    + 0.2 * redIntensityScore + 0.1 * nonRedAreaScore and lies in [0,1]. *)
Theorem killScore_unit_interval
    (sharpRaw : string -> Settled RawImage) (imagePath : string) (raw : RawImage) :
  sharpRaw imagePath = Resolved raw ->
  (1 <= width (info raw))%nat ->
  (1 <= height (info raw))%nat ->
  exists result,
    detectGlobalRed sharpRaw imagePath = Resolved result /\
    killScore result ==
      0.4 * globalRedCoverageScore (details result)
      + 0.3 * redUniformityScore (details result)
      + 0.2 * redIntensityScore (details result)
      + 0.1 * nonRedAreaScore (details result) /\
    0 <= killScore result <= 1.
Proof.
  intros Hraw Hw Hh. unfold detectGlobalRed. rewrite Hraw.
  eexists. split; [reflexivity|].
  destruct (subscores_unit_interval raw imagePath Hw Hh) as (Ha & Hb & Hc & Hd).
  assert (E : killScore (scoreFrame raw imagePath) ==
              0.4 * globalRedCoverageScore (details (scoreFrame raw imagePath))
              + 0.3 * redUniformityScore (details (scoreFrame raw imagePath))
              + 0.2 * redIntensityScore (details (scoreFrame raw imagePath))
              + 0.1 * nonRedAreaScore (details (scoreFrame raw imagePath))).
  { unfold scoreFrame.
    cbn [killScore details globalRedCoverageScore redUniformityScore
         redIntensityScore nonRedAreaScore]. ring. }
  split; [exact E|]. rewrite E. lra.
Qed.





(** C5.  A 4x3 frame of pure red pixels: the coverage and uniformity
    sub-scores are 1, but the fourth column is outside the 3x3 grid of
    floor(4/3)-wide cells, is never visited and still counts in
    totalPixels, so that the confidence is 0.925.  On a 1x1 frame no pixel
    is visited and every score is 0. *)
Theorem allRed_outside_grid :
  let wide := scoreFrame (allRedFrame 4 3 3) "frame.png" in
  let tiny := scoreFrame (allRedFrame 1 1 3) "frame.png" in
  totalRedPixels (scanGrid (allRedFrame 4 3 3)) = 9%nat /\
  globalRedCoverageScore (details wide) == 1 /\
  redUniformityScore (details wide) == 1 /\
  killScore wide == 0.925 /\
  ~ killScore wide == 1 /\
  totalRedPixels (scanGrid (allRedFrame 1 1 3)) = 0%nat /\
  globalRedCoverageScore (details tiny) == 0 /\
  redUniformityScore (details tiny) == 0 /\
  killScore tiny == 0.
Proof.
  cbv zeta. repeat split; try (vm_compute; reflexivity).
  vm_compute. intros H. discriminate H.
Qed.

(** When the grid covers the frame, the pure red frame scores 1. *)
Example allRed_3x3 :
  let r := scoreFrame (allRedFrame 3 3 3) "frame.png" in
  globalRedCoverageScore (details r) == 1 /\
  redUniformityScore (details r) == 1 /\
  killScore r == 1 /\ isKillScreen r = true.
Proof. cbv zeta. repeat split; vm_compute; reflexivity. Qed.

(** ** The detector *)

Lemma batchLoop_imap sharpRaw (imagePaths : list string) (i : nat)
    (results : list DetectionResult.t) :
  fold_left (batchStep sharpRaw) imagePaths (i, results)
  = ((i + length imagePaths)%nat,
     results ++ imap (fun j path => detectKillScreen sharpRaw path (Z.of_nat (i + j)))
                     imagePaths).
Proof.
  revert i results. induction imagePaths as [|p ps IH]; intros i results; simpl.
  - now rewrite Nat.add_0_r, app_nil_r.
  - rewrite IH. f_equal; [lia|]. rewrite <- app_assoc. simpl.
    rewrite Nat.add_0_r. do 2 f_equal. apply imap_ext. intros j x _. simpl.
    do 2 f_equal. lia.
Qed.

Lemma batchDetect_imap sharpRaw (imagePaths : list string) :
  batchDetect sharpRaw imagePaths
  = imap (fun j path => detectKillScreen sharpRaw path (Z.of_nat j)) imagePaths.
Proof. unfold batchDetect. now rewrite batchLoop_imap. Qed.



(** ** The clusterer and its argument *)

(** C10.  Called on a reference to an array of sample objects, whether in
    time order or not, [deduplicateKillScreens] and
    [analyzeDetectionClusters] return, and every cell of the store they were
    called with is unchanged in the store they leave: the argument array
    holds the same references in the same order, and every sample object
    holds the same frameNumber, timeInSeconds and confidence.  The sort
    works on a newly allocated copy of the array. *)
Theorem clusterer_leaves_input_unchanged
    (h : list Store.cell) (killScreens : nat) (elems : list nat)
    (samples : list KillScreenTimestamp) (mergeWindowSeconds : Q)
    (minConsecutiveDetections : Z) :
  Store.getArr h killScreens = Some elems ->
  Store.samplesAt h elems = Some samples ->
  (exists out h',
     Store.deduplicateKillScreens h killScreens mergeWindowSeconds
                                  minConsecutiveDetections = Some (out, h') /\
     h `prefix_of` h' /\
     Store.getArr h' killScreens = Some elems /\
     Store.samplesAt h' elems = Some samples) /\
  (exists analysis h',
     Store.analyzeDetectionClusters h killScreens = Some (analysis, h') /\
     h `prefix_of` h' /\
     Store.getArr h' killScreens = Some elems /\
     Store.samplesAt h' elems = Some samples).
Proof.
  intros Hks Hs. split.
  - destruct (store_deduplicate_run h killScreens elems samples mergeWindowSeconds
                minConsecutiveDetections Hks Hs) as (out & h' & _ & _ & Hrun & Hp & _).
    exists out, h'. split; [exact Hrun|]. split; [exact Hp|].
    split; [now apply (getArr_extend h) | now apply (samplesAt_extend h)].
  - destruct (store_analyze_run h killScreens elems samples Hks Hs)
      as (analysis & h' & Hrun & Hp & _).
    exists analysis, h'. split; [exact Hrun|]. split; [exact Hp|].
    split; [now apply (getArr_extend h) | now apply (samplesAt_extend h)].
Qed.

(** The function over samples computes what the function over the store
    returns. *)
Corollary store_deduplicate_refines
    (h : list Store.cell) (killScreens : nat) (elems : list nat)
    (samples : list KillScreenTimestamp) (w : Q) (m : Z) :
  Store.getArr h killScreens = Some elems ->
  Store.samplesAt h elems = Some samples ->
  exists out h' outRefs,
    Store.deduplicateKillScreens h killScreens w m = Some (out, h') /\
    Store.getArr h' out = Some outRefs /\
    Store.samplesAt h' outRefs = deduplicateKillScreens samples w m.
Proof.
  intros Hks Hs.
  destruct (store_deduplicate_run h killScreens elems samples w m Hks Hs)
    as (out & h' & outRefs & result & Hrun & _ & Harr & Hout & Hpure).
  exists out, h', outRefs. rewrite Hpure. now repeat split.
Qed.

(** ** Instances *)

Lemma clusterer_leaves_input_unchanged_witness :
  (exists out h',
     Store.deduplicateKillScreens unsortedStore 3 2 2 = Some (out, h') /\
     unsortedStore `prefix_of` h' /\
     Store.getArr h' 3 = Some [0%nat; 2%nat; 1%nat] /\
     Store.samplesAt h' [0%nat; 2%nat; 1%nat]
     = Some [ mkKillScreenTimestamp 502 100.4 0.79;
              mkKillScreenTimestamp 501 100.2 0.85;
              mkKillScreenTimestamp 500 100.0 0.82 ]) /\
  (exists analysis h',
     Store.analyzeDetectionClusters unsortedStore 3 = Some (analysis, h') /\
     unsortedStore `prefix_of` h' /\
     Store.getArr h' 3 = Some [0%nat; 2%nat; 1%nat] /\
     Store.samplesAt h' [0%nat; 2%nat; 1%nat]
     = Some [ mkKillScreenTimestamp 502 100.4 0.79;
              mkKillScreenTimestamp 501 100.2 0.85;
              mkKillScreenTimestamp 500 100.0 0.82 ]).
Proof.
  apply (clusterer_leaves_input_unchanged unsortedStore 3 [0%nat; 2%nat; 1%nat]); reflexivity.
Defined.

Lemma killScore_unit_interval_witness :
  exists result,
    detectGlobalRed redDecoder "frames/frame_0001.png" = Resolved result /\
    killScore result ==
      0.4 * globalRedCoverageScore (details result)
      + 0.3 * redUniformityScore (details result)
      + 0.2 * redIntensityScore (details result)
      + 0.1 * nonRedAreaScore (details result) /\
    0 <= killScore result <= 1.
Proof.
  apply (killScore_unit_interval redDecoder "frames/frame_0001.png" (allRedFrame 3 3 3)).
  - reflexivity.
  - simpl. lia.
  - simpl. lia.
Defined.

Lemma disable_removes_one_segment_witness :
  let run := fun p => plannedSegments (generateVideo "match_detections.json" p plainRun) in
  let segmentsOf := fun ds => run (withDetections sampleProject ds) in
  exists segment,
    plansSegment 3 2 60 segment /\
    run sampleProject = segmentsOf [entryAt 1 1.0] ++ segment :: segmentsOf [entryAt 3 120] /\
    run (withDetections sampleProject [entryAt 1 1.0; disable (entryAt 2 60); entryAt 3 120])
    = segmentsOf [entryAt 1 1.0] ++ segmentsOf [entryAt 3 120] /\
    Forall2 (fun record s =>
               plansSegment 3 2 (DetectionEntry.timeInSeconds record) s)
            (filter (fun r => DetectionEntry.enabled r)
                    (DetectionProject.detections sampleProject))
            (run sampleProject).
Proof.
  apply (disable_removes_one_segment "match_detections.json" sampleProject plainRun
           [entryAt 1 1.0] [entryAt 3 120] (entryAt 2 60)); reflexivity.
Defined.


(** ** Further instances *)

(** A pure red frame of the default extraction width does not score 1:
    3 does not divide 1280. *)
Example allRed_1280x720 :
  ~ killScore (scoreFrame (allRedFrame 1280 720 3) "frame_0001.png") == 1.
Proof.
  intros H. apply allRed_confidence in H; [|lia..].
  destruct H as [H _]. vm_compute in H. discriminate H.
Qed.

(** Samples 1.5 s apart share a cluster under a 2 s window; samples 3.5 s
    apart do not. *)
Example merge_window_boundary :
  length (dedupClusters 2 [mkKillScreenTimestamp 50 10.0 0.9;
                           mkKillScreenTimestamp 57 11.5 0.9]) = 1%nat /\
  length (dedupClusters 2 [mkKillScreenTimestamp 50 10.0 0.9;
                           mkKillScreenTimestamp 67 13.5 0.9]) = 2%nat.
Proof. split; reflexivity. Qed.

(** A lone sample is dropped when two detections are asked for and kept
    when one is enough. *)
Example lone_sample :
  deduplicateKillScreens [mkKillScreenTimestamp 50 10.0 0.9] 2 2 = Some [] /\
  exists r, deduplicateKillScreens [mkKillScreenTimestamp 50 10.0 0.9] 2 1 = Some [r]
            /\ confidence r == 0.92.
Proof.
  split; [reflexivity|]. eexists. split; [reflexivity|]. vm_compute. reflexivity.
Qed.

(** A black frame scores 0. *)
Example black_frame :
  killScore (scoreFrame {| data := repeat Byte.x00 27;
                           info := {| width := 3; height := 3; channels := 3 |} |}
                        "frame.png") == 0.
Proof. vm_compute. reflexivity. Qed.

(** * Further properties of the clusterer *)

(** ** Where clusters begin *)

Lemma countBreaks_step (w : Q) a b (r : list KillScreenTimestamp) :
  countBreaks w (a :: b :: r)
  = ((if Qgtb (timeInSeconds b - timeInSeconds a) w then 1 else 0)
     + countBreaks w (b :: r))%nat.
Proof. reflexivity. Qed.

Lemma dedupLoop_length (w : Q) (l : list KillScreenTimestamp) done cur d :
  endTime cur = timeInSeconds d ->
  length (closeLoop (fold_left (dedupStep w) l (done, Some cur)))
  = (length done + 1 + countBreaks w (d :: l))%nat.
Proof.
  revert done cur d. induction l as [|k l IH]; intros done cur d Hend.
  - cbn [fold_left countBreaks]. unfold closeLoop. cbn [fst snd].
    rewrite length_app. simpl. lia.
  - cbn [fold_left]. unfold dedupStep at 2. rewrite Hend.
    rewrite countBreaks_step.
    destruct (Qgtb (timeInSeconds k - timeInSeconds d) w).
    + rewrite (IH _ _ k) by reflexivity. rewrite length_app. simpl. lia.
    + rewrite (IH _ _ k) by reflexivity. lia.
Qed.

Lemma dedupClusters_length (w : Q) (l : list KillScreenTimestamp) :
  length (dedupClusters w l)
  = match l with
    | [] => 0%nat
    | _ :: _ => S (countBreaks w l)
    end.
Proof.
  destruct l as [|d l]; [reflexivity|].
  unfold dedupClusters. cbn [fold_left dedupStep].
  rewrite (dedupLoop_length w l [] (openCluster d) d) by reflexivity. simpl. lia.
Qed.

Lemma countBreaks_antitone (w w' : Q) (l : list KillScreenTimestamp) :
  w <= w' -> (countBreaks w' l <= countBreaks w l)%nat.
Proof.
  intros Hw. induction l as [|a r IH]; [reflexivity|].
  destruct r as [|b r']; [reflexivity|].
  rewrite !countBreaks_step.
  destruct (Qgtb (timeInSeconds b - timeInSeconds a) w') eqn:E'.
  - apply Qgtb_true in E'.
    assert (E : Qgtb (timeInSeconds b - timeInSeconds a) w = true)
      by (apply Qgtb_true; lra).
    rewrite E. lia.
  - destruct (Qgtb (timeInSeconds b - timeInSeconds a) w); lia.
Qed.


(** X1.  The merge loop begins a new cluster exactly at the samples that
    lie more than the window after the sample scanned just before them: on
    a non-empty array the number of clusters is one more than the number of
    such samples, whatever the order of the array. *)
Theorem dedupClusters_count (w : Q) (l : list KillScreenTimestamp) :
  length (dedupClusters w l)
  = match l with
    | [] => 0%nat
    | _ :: _ => S (countBreaks w l)
    end.
Proof.
  destruct l as [|d l]; [reflexivity|].
  unfold dedupClusters. cbn [fold_left dedupStep].
  rewrite (dedupLoop_length w l [] (openCluster d) d) by reflexivity.
  cbn [length]. lia.
Qed.

(** X2.  A wider window never gives more clusters. *)
Theorem wider_window_fewer_clusters (w w' : Q) (l : list KillScreenTimestamp) :
  w <= w' ->
  (length (dedupClusters w' l) <= length (dedupClusters w l))%nat.
Proof.
  intros Hw. destruct l as [|d l]; [reflexivity|].
  unfold dedupClusters. cbn [fold_left dedupStep].
  rewrite !(dedupLoop_length _ l [] (openCluster d) d) by reflexivity.
  pose proof (countBreaks_antitone w w' (d :: l) Hw). cbn [length]. lia.
Qed.

Lemma wider_window_fewer_clusters_witness :
  (length (dedupClusters 5 sampleC2) <= length (dedupClusters 2 sampleC2))%nat.
Proof. apply (wider_window_fewer_clusters 2 5 sampleC2). lra. Defined.

(** ** The derived fields of a cluster *)








(** X4.  The clusters of step 2 partition the time-sorted copy of the
    input: their detections, one cluster after the other, are the input
    samples in time order, and every sample of a cluster is before, and more
    than the window before, every sample of a later cluster. *)
Theorem clusters_partition_input (ks : list KillScreenTimestamp) (w : Q) :
  let clusters := dedupClusters w (Array_sort compareByTime ks) in
  Permutation ks (concat (map detections clusters)) /\
  StronglySorted timeLe (concat (map detections clusters)) /\
  StronglySorted (clusterApart w) clusters.
Proof.
  cbv zeta. rewrite dedupClusters_partition.
  split; [apply Array_sort_perm|]. split; [apply Array_sort_sorted|].
  apply dedupClusters_apart, Array_sort_sorted.
Qed.

(** ** What the clusterer returns *)

Lemma emitted_length (m : Z) (c : KillScreenCluster) :
  detections c <> [] ->
  length (emitted m c) = if largeEnough m c then 1%nat else 0%nat.
Proof.
  intros Hne. unfold emitted, largeEnough.
  destruct (m <=? Z.of_nat (length (detections c)))%Z; [|reflexivity].
  destruct (detections c); [congruence | reflexivity].
Qed.

Lemma emitted_count (m : Z) (cs : list KillScreenCluster) :
  Forall (fun c => detections c <> []) cs ->
  length (flat_map (emitted m) cs) = length (List.filter (largeEnough m) cs).
Proof.
  induction 1 as [|c cs Hc _ IH]; [reflexivity|].
  cbn [flat_map List.filter]. rewrite length_app, emitted_length, IH by exact Hc.
  destruct (largeEnough m c); reflexivity.
Qed.

Lemma fold_better_earliest (ds : list KillScreenTimestamp) (d : KillScreenTimestamp) :
  exists pre post,
    d :: ds = pre ++ fold_left better ds d :: post /\
    Forall (fun x => confidence x < confidence (fold_left better ds d)) pre /\
    Forall (fun x => confidence x <= confidence (fold_left better ds d)) post.
Proof.
  induction ds as [|y ds IH] using rev_ind.
  - exists [], []. repeat split; constructor.
  - destruct IH as (pre & post & Hsplit & Hpre & Hpost).
    rewrite fold_left_app. cbn [fold_left]. unfold better at 1 3 5.
    destruct (Qgtb (confidence y) (confidence (fold_left better ds d))) eqn:E.
    + apply Qgtb_true in E. exists (d :: ds), [].
      split; [reflexivity|]. split; [|constructor].
      rewrite Hsplit. apply Forall_app. split.
      * eapply Forall_impl; [|exact Hpre]. intros x Hx. simpl in Hx. lra.
      * constructor; [exact E|].
        eapply Forall_impl; [|exact Hpost]. intros x Hx. simpl in Hx. lra.
    + apply Qgtb_false in E. exists pre, (post ++ [y]).
      split; [|split; [exact Hpre|]].
      * change (d :: ds ++ [y]) with ((d :: ds) ++ [y]).
        rewrite Hsplit, <- app_assoc. reflexivity.
      * apply Forall_app. split; [exact Hpost | now repeat constructor].
Qed.

Lemma bonus_bounds (n : nat) :
  0 <= Qmin (1 # 10) (ofNat n * (2 # 100)) <= 1 # 10.
Proof.
  split; [|apply Q.le_min_l].
  apply Q.min_glb; [lra|]. pose proof (ofNat_nonneg n). nra.
Qed.

(** What [emitted] says of a record, spelled out. *)
Lemma emitted_record (m : Z) (c : KillScreenCluster) (r : KillScreenTimestamp) :
  In r (emitted m c) ->
  exists a,
    largeEnough m c = true /\ earliestPeak c a /\
    timeInSeconds r = timeInSeconds a /\ frameNumber r = frameNumber a /\
    confidence r
    = Qmin 1 (confidence a + Qmin (1 # 10) (ofNat (length (detections c)) * (2 # 100))).
Proof.
  unfold emitted, largeEnough.
  destruct (m <=? Z.of_nat (length (detections c)))%Z; [|intros []].
  destruct (detections c) as [|d ds] eqn:Ed; [intros []|].
  cbn [Array_reduce1]. intros [<-|[]].
  exists (fold_left better ds d). split; [reflexivity|]. split.
  - unfold earliestPeak. rewrite Ed. apply fold_better_earliest.
  - unfold enhance. rewrite Ed. repeat split.
Qed.

(** X5.  [deduplicateKillScreens] always returns.  Its records are in time
    order and pairwise more than the window apart; each carries the time
    and the frame number of an input sample; there are no more records
    than input samples. *)
Theorem dedup_output_ordered (ks : list KillScreenTimestamp) (w : Q) (m : Z) :
  exists out,
    deduplicateKillScreens ks w m = Some out /\
    StronglySorted (apart w) out /\
    Forall (fun r => exists a, In a ks /\ timeInSeconds r = timeInSeconds a
                               /\ frameNumber r = frameNumber a) out /\
    (length out <= length ks)%nat.
Proof.
  unfold deduplicateKillScreens. destruct (length ks =? 0)%nat eqn:E0.
  - exists []. repeat split; try constructor. simpl. lia.
  - destruct (dedupClusters_apart w (Array_sort compareByTime ks)
                (Array_sort_sorted ks)) as [Hs Hne].
    eexists. split; [now apply filterClusters_emitted|].
    split; [now apply emitted_apart|]. split.
    + apply Forall_forall. intros r Hr.
      apply in_flat_map in Hr as (c & Hc & Hr).
      apply emitted_from_cluster in Hr as (a & Ha & Ht & Hf).
      exists a. split; [|now split].
      eapply Permutation_in; [symmetry; apply (Array_sort_perm compareByTime)|].
      rewrite <- (dedupClusters_partition w (Array_sort compareByTime ks)).
      apply in_concat. exists (detections c). split; [now apply in_map | exact Ha].
    + rewrite emitted_count by exact Hne.
      etransitivity; [apply List.filter_length_le|].
      rewrite <- (Array_sort_length compareByTime ks).
      rewrite <- (dedupClusters_partition w (Array_sort compareByTime ks)) at 2.
      rewrite length_concat, map_map.
      clear -Hne. induction Hne as [|c cs Hc _ IH]; [reflexivity|].
      simpl. destruct (detections c); [congruence|]. simpl. lia.
Qed.

(** X6.  Every record [deduplicateKillScreens] returns stands for a cluster
    of step 2 that has at least [minConsecutiveDetections] detections: it
    carries the time and frame number of the earliest detection of largest
    confidence in that cluster, and its confidence is that detection's
    confidence plus min(0.1, 0.02 * cluster size), capped at 1; so it is
    never above 1 and never below the detection's confidence capped at 1. *)
Theorem dedup_output_representative (ks : list KillScreenTimestamp) (w : Q) (m : Z) :
  exists out,
    deduplicateKillScreens ks w m = Some out /\
    Forall (fun r =>
              exists c a,
                In c (dedupClusters w (Array_sort compareByTime ks)) /\
                largeEnough m c = true /\
                earliestPeak c a /\
                timeInSeconds r = timeInSeconds a /\
                frameNumber r = frameNumber a /\
                confidence r
                = Qmin 1 (confidence a
                          + Qmin (1 # 10) (ofNat (length (detections c)) * (2 # 100))) /\
                Qmin 1 (confidence a) <= confidence r <= 1)
           out.
Proof.
  unfold deduplicateKillScreens. destruct (length ks =? 0)%nat eqn:E0.
  - exists []. split; [reflexivity | constructor].
  - destruct (dedupClusters_apart w (Array_sort compareByTime ks)
                (Array_sort_sorted ks)) as [_ Hne].
    eexists. split; [now apply filterClusters_emitted|].
    apply Forall_forall. intros r Hr.
    apply in_flat_map in Hr as (c & Hc & Hr).
    apply emitted_record in Hr as (a & Hbig & Hpeak & Ht & Hf & Hconf).
    exists c, a. repeat split; try assumption.
    + rewrite Hconf. pose proof (bonus_bounds (length (detections c))) as [Hb _].
      apply Q.min_glb; [apply Q.le_min_l|].
      pose proof (Q.le_min_r 1 (confidence a)). lra.
    + rewrite Hconf. apply Q.le_min_l.
Qed.

(** ** The statistics and the filtered output *)

Lemma analyze_clusters (ks : list KillScreenTimestamp) :
  clusters (analyzeDetectionClusters ks)
  = dedupClusters 2 (Array_sort compareByTime ks) /\
  totalClusters (analyzeDetectionClusters ks)
  = length (dedupClusters 2 (Array_sort compareByTime ks)).
Proof.
  unfold analyzeDetectionClusters, dedupClusters.
  destruct ks as [|k ks]; [split; reflexivity|].
  cbn [length Nat.eqb clusters totalClusters].
  rewrite analyzeLoop_dedupLoop. split; reflexivity.
Qed.

Lemma clusters_at_most_samples (w : Q) (l : list KillScreenTimestamp) :
  (length (dedupClusters w l) <= length l)%nat.
Proof.
  rewrite dedupClusters_length. destruct l as [|a l]; [reflexivity|].
  simpl length. apply le_n_S. revert a.
  induction l as [|b l IH]; intros a; [reflexivity|].
  rewrite countBreaks_step. specialize (IH b). simpl length.
  destruct (Qgtb _ _); lia.
Qed.

(** X7.  With the 2-second window of the statistics, the records
    [deduplicateKillScreens] returns are as many as the clusters of
    [analyzeDetectionClusters] that have at least
    [minConsecutiveDetections] detections; so they are at most
    [totalClusters], which is at most the number of samples. *)
Theorem dedup_count_against_statistics (ks : list KillScreenTimestamp) (m : Z) :
  exists out,
    deduplicateKillScreens ks 2 m = Some out /\
    length out
    = length (List.filter (largeEnough m) (clusters (analyzeDetectionClusters ks))) /\
    (length out <= totalClusters (analyzeDetectionClusters ks))%nat /\
    (totalClusters (analyzeDetectionClusters ks) <= length ks)%nat.
Proof.
  destruct (analyze_clusters ks) as [Hc Ht]. rewrite Hc, Ht.
  unfold deduplicateKillScreens. destruct (length ks =? 0)%nat eqn:E0.
  - apply Nat.eqb_eq in E0. destruct ks; [|discriminate].
    exists []. repeat split; reflexivity.
  - destruct (dedupClusters_apart 2 (Array_sort compareByTime ks)
                (Array_sort_sorted ks)) as [_ Hne].
    eexists. split; [now apply filterClusters_emitted|].
    rewrite emitted_count by exact Hne. split; [reflexivity|].
    split; [apply List.filter_length_le|].
    rewrite <- (Array_sort_length compareByTime ks).
    apply clusters_at_most_samples.
Qed.

Lemma largeEnough_all (m : Z) (cs : list KillScreenCluster) :
  (m <= 1)%Z -> Forall (fun c => detections c <> []) cs ->
  List.filter (largeEnough m) cs = cs.
Proof.
  intros Hm. induction 1 as [|c cs Hc _ IH]; [reflexivity|].
  cbn [List.filter]. rewrite IH.
  assert (E : largeEnough m c = true).
  { unfold largeEnough. apply Z.leb_le. destruct (detections c); [congruence|].
    simpl length. lia. }
  now rewrite E.
Qed.

(** X8.  When at most one detection is asked for, no cluster is dropped:
    [deduplicateKillScreens] returns one record per cluster of step 2, that
    is, on a non-empty input, one more than the number of samples of the
    sorted array that lie more than the window after their predecessor. *)
Theorem dedup_keeps_every_cluster (ks : list KillScreenTimestamp) (w : Q) (m : Z) :
  (m <= 1)%Z ->
  exists out,
    deduplicateKillScreens ks w m = Some out /\
    length out = length (dedupClusters w (Array_sort compareByTime ks)) /\
    length out = match ks with
                 | [] => 0%nat
                 | _ :: _ => S (countBreaks w (Array_sort compareByTime ks))
                 end.
Proof.
  intros Hm. unfold deduplicateKillScreens. destruct ks as [|k ks].
  - exists []. repeat split; reflexivity.
  - cbn [length Nat.eqb].
    destruct (dedupClusters_apart w (Array_sort compareByTime (k :: ks))
                (Array_sort_sorted (k :: ks))) as [_ Hne].
    eexists. split; [now apply filterClusters_emitted|].
    rewrite emitted_count, largeEnough_all by assumption.
    split; [reflexivity|]. rewrite dedupClusters_length.
    destruct (Array_sort compareByTime (k :: ks)) eqn:E; [|reflexivity].
    apply (f_equal (@length _)) in E. rewrite Array_sort_length in E. discriminate.
Qed.

Lemma dedup_keeps_every_cluster_witness :
  exists out,
    deduplicateKillScreens sampleC2 5 1 = Some out /\
    length out = length (dedupClusters 5 (Array_sort compareByTime sampleC2)) /\
    length out = S (countBreaks 5 (Array_sort compareByTime sampleC2)).
Proof. apply (dedup_keeps_every_cluster sampleC2 5 1). lia. Defined.

(** ** The order of the input *)

Lemma distinctTimes_tail (x : KillScreenTimestamp) (l : list KillScreenTimestamp) :
  distinctTimes (x :: l) -> distinctTimes l.
Proof.
  intros [Hnd Hinj]. split; [now apply NoDup_cons_iff in Hnd as [_ Hnd]|].
  intros a b Ha Hb. apply Hinj; now right.
Qed.

Lemma distinctTimes_perm (l l' : list KillScreenTimestamp) :
  Permutation l l' -> distinctTimes l -> distinctTimes l'.
Proof.
  intros Hp [Hnd Hinj]. split; [eapply Permutation_NoDup; eassumption|].
  intros a b Ha Hb. apply Hinj; eapply Permutation_in; try eassumption;
    now symmetry.
Qed.

Lemma sorted_unique (l l' : list KillScreenTimestamp) :
  StronglySorted timeLe l -> StronglySorted timeLe l' ->
  Permutation l l' -> distinctTimes l -> l = l'.
Proof.
  intros Hs. revert l'. induction Hs as [|x xs Hs IH Hx]; intros l' Hs' Hp Hd.
  - now apply Permutation_nil in Hp.
  - destruct Hs' as [|y ys Hs' Hy].
    + symmetry in Hp. now apply Permutation_nil in Hp.
    + assert (Hxy : x = y).
      { destruct Hd as [_ Hinj]. apply Hinj; [now left | |].
        - eapply Permutation_in; [symmetry; exact Hp | now left].
        - assert (Hx' : In x (y :: ys)) by (eapply Permutation_in; [exact Hp | now left]).
          assert (Hy' : In y (x :: xs))
            by (eapply Permutation_in; [symmetry; exact Hp | now left]).
          rewrite Forall_forall in Hx, Hy. unfold timeLe in *.
          destruct Hx' as [->|Hx']; [reflexivity|].
          destruct Hy' as [->|Hy']; [reflexivity|].
          specialize (Hx _ Hy'). specialize (Hy _ Hx'). lra. }
      subst y. f_equal. apply IH; [exact Hs' | | now apply distinctTimes_tail in Hd].
      now apply Permutation_cons_inv in Hp.
Qed.

(** X9.  On samples that have pairwise different times, the order in which
    the caller lists them does not matter: both functions give the same
    result on every permutation of the input. *)
Theorem clusterer_ignores_input_order (ks ks' : list KillScreenTimestamp) (w : Q) (m : Z) :
  Permutation ks ks' ->
  distinctTimes ks ->
  deduplicateKillScreens ks w m = deduplicateKillScreens ks' w m /\
  analyzeDetectionClusters ks = analyzeDetectionClusters ks'.
Proof.
  intros Hp Hd.
  assert (Hsort : Array_sort compareByTime ks = Array_sort compareByTime ks').
  { apply sorted_unique; try apply Array_sort_sorted.
    - rewrite <- (Array_sort_perm compareByTime ks), <- (Array_sort_perm compareByTime ks').
      exact Hp.
    - eapply distinctTimes_perm; [apply Array_sort_perm | exact Hd]. }
  unfold deduplicateKillScreens, analyzeDetectionClusters.
  rewrite <- (Permutation_length Hp), Hsort. split; reflexivity.
Qed.

Lemma clusterer_ignores_input_order_witness :
  deduplicateKillScreens sampleC2 2 2 = deduplicateKillScreens (rev sampleC2) 2 2 /\
  analyzeDetectionClusters sampleC2 = analyzeDetectionClusters (rev sampleC2).
Proof.
  apply (clusterer_ignores_input_order sampleC2 (rev sampleC2) 2 2).
  - apply Permutation_rev.
  - split.
    + repeat constructor; simpl; intuition discriminate.
    + intros a b Ha Hb. simpl in Ha, Hb.
      destruct Ha as [<-|[<-|[<-|[]]]], Hb as [<-|[<-|[<-|[]]]];
        intros E; try reflexivity; vm_compute in E; discriminate E.
Defined.

(** * Further properties of the frame scorer *)

(** ** Dark frames *)

Lemma byteAt_dark (data : list Byte.byte) (i : nat) :
  darkBuffer data -> gtU (byteAt data i) (Some 100%Z) = false.
Proof.
  intros Hd. unfold byteAt. destruct (data !! i) as [b|] eqn:E; [|reflexivity].
  simpl. apply Z.ltb_ge.
  assert (Hin : In b data).
  { apply list_elem_of_In. eapply list_elem_of_lookup_2. exact E. }
  unfold darkBuffer in Hd. rewrite Forall_forall in Hd. specialize (Hd b Hin). lia.
Qed.

Lemma pixelStep_dark data w c y x cell frame :
  darkBuffer data ->
  pixelStep data w c y (cell, frame) x
  = ({| cellRedPixels := cellRedPixels cell;
        cellTotalPixels := S (cellTotalPixels cell);
        cellRedIntensity := cellRedIntensity cell |}, frame).
Proof.
  intros Hd. unfold pixelStep. rewrite (byteAt_dark data _ Hd).
  now rewrite andb_false_r.
Qed.

Lemma row_dark data w c y xs cell frame :
  darkBuffer data ->
  exists n,
    fold_left (pixelStep data w c y) xs (cell, frame)
    = ({| cellRedPixels := cellRedPixels cell;
          cellTotalPixels := n;
          cellRedIntensity := cellRedIntensity cell |}, frame).
Proof.
  intros Hd. revert cell. induction xs as [|x xs IH]; intros cell; cbn [fold_left].
  - exists (cellTotalPixels cell). now destruct cell.
  - rewrite pixelStep_dark by exact Hd.
    destruct (IH (mkCellCounters (cellRedPixels cell) (S (cellTotalPixels cell))
                                 (cellRedIntensity cell))) as [n Hn].
    exists n. exact Hn.
Qed.

Lemma rows_dark data w c xs ys cell frame :
  darkBuffer data ->
  exists n,
    fold_left (fun st y => fold_left (pixelStep data w c y) xs st) ys (cell, frame)
    = ({| cellRedPixels := cellRedPixels cell;
          cellTotalPixels := n;
          cellRedIntensity := cellRedIntensity cell |}, frame).
Proof.
  intros Hd. revert cell. induction ys as [|y ys IH]; intros cell; cbn [fold_left].
  - exists (cellTotalPixels cell). now destruct cell.
  - destruct (row_dark data w c y xs cell frame Hd) as [n ->].
    destruct (IH (mkCellCounters (cellRedPixels cell) n (cellRedIntensity cell)))
      as [n' Hn].
    exists n'. exact Hn.
Qed.

Lemma zero_ratio (n : nat) : (if (0 <? n)%nat then ofNat 0 / ofNat n else 0) == 0.
Proof. destruct (0 <? n)%nat; [|reflexivity]. unfold Qdiv. change (ofNat 0) with 0. ring. Qed.

Lemma cellStep_dark data w h c cw ch gridY gridX frame :
  darkBuffer data -> noRedFound frame ->
  noRedFound (cellStep data w h c cw ch gridY frame gridX).
Proof.
  intros Hd (H1 & H2 & H3). unfold cellStep.
  destruct (rows_dark data w c
              (range (gridX * cw) (Nat.min (gridX * cw + cw) w))
              (range (gridY * ch) (Nat.min (gridY * ch + ch) h))
              {| cellRedPixels := 0; cellTotalPixels := 0; cellRedIntensity := 0 |}
              frame Hd) as [n ->].
  cbn [cellRedPixels cellTotalPixels cellRedIntensity].
  split; [exact H1|]. split; [exact H2|].
  cbn [redCells]. apply Forall_app. split; [exact H3|].
  constructor; [|constructor]. cbn [redRatio]. apply zero_ratio.
Qed.

Lemma scanGrid_dark (raw : RawImage) :
  darkBuffer (data raw) -> noRedFound (scanGrid raw).
Proof.
  intros Hd. unfold scanGrid.
  assert (Hcells : forall gy gxs frame, noRedFound frame ->
            noRedFound (fold_left (cellStep (data raw) (width (info raw)) (height (info raw))
                                            (channels (info raw)) (width (info raw) / 3)
                                            (height (info raw) / 3) gy) gxs frame)).
  { intros gy gxs. induction gxs as [|gx gxs IH]; intros frame Hf; cbn [fold_left];
      [exact Hf|]. apply IH. now apply cellStep_dark. }
  assert (Hrows : forall gys frame, noRedFound frame ->
            noRedFound (fold_left (fun frame gridY =>
                          fold_left (cellStep (data raw) (width (info raw)) (height (info raw))
                                              (channels (info raw)) (width (info raw) / 3)
                                              (height (info raw) / 3) gridY)
                                    (range 0 3) frame) gys frame)).
  { induction gys as [|gy gys IH]; intros frame Hf; cbn [fold_left]; [exact Hf|].
    apply IH. now apply Hcells. }
  apply Hrows. repeat split. constructor.
Qed.

Lemma filter_none {A : Type} (P : A -> bool) (l : list A) :
  Forall (fun x => P x = false) l -> List.filter P l = [].
Proof.
  induction 1 as [|x l Hx _ IH]; [reflexivity|]. cbn [List.filter]. now rewrite Hx.
Qed.

(** X10.  A frame of at least one column and one row whose buffer holds no
    byte above 100 has no red pixel: every sub-score and the killScore are
    0, and the frame is not classified as a kill screen. *)
Theorem dark_frame_scores_zero (raw : RawImage) (imagePath : string) :
  (1 <= width (info raw))%nat ->
  (1 <= height (info raw))%nat ->
  darkBuffer (data raw) ->
  let r := scoreFrame raw imagePath in
  totalRedPixels (scanGrid raw) = 0%nat /\
  globalRedCoverageScore (details r) == 0 /\
  redUniformityScore (details r) == 0 /\
  redIntensityScore (details r) == 0 /\
  nonRedAreaScore (details r) == 0 /\
  killScore r == 0 /\
  isKillScreen r = false.
Proof.
  intros Hw Hh Hd r.
  destruct (scanGrid_dark raw Hd) as (Htot & Hints & Hcells).
  assert (Hpos : 0 < ofNat (width (info raw) * height (info raw)))
    by (apply ofNat_pos; nia).
  assert (Hcov : globalRedCoverage (details r) == 0).
  { unfold r, scoreFrame. cbn [details globalRedCoverage]. rewrite Htot.
    unfold Qdiv. change (ofNat 0) with 0. ring. }
  assert (Ha : globalRedCoverageScore (details r) == 0).
  { change (globalRedCoverageScore (details r))
      with (Qmin 1 (globalRedCoverage (details r) * 2)).
    rewrite Hcov. reflexivity. }
  assert (Hu : redUniformityScore (details r) == 0).
  { unfold r, scoreFrame. cbn [details redUniformityScore].
    rewrite filter_none; [reflexivity|].
    eapply Forall_impl; [|exact Hcells]. intros cell Hc. simpl in Hc.
    apply Qgtb_false. rewrite Hc. lra. }
  assert (Hi : redIntensityScore (details r) == 0).
  { unfold r, scoreFrame. cbn [details redIntensityScore]. rewrite Hints. reflexivity. }
  assert (Hn : nonRedAreaScore (details r) == 0).
  { change (nonRedAreaScore (details r))
      with (Qmax 0 (1 - (1 - globalRedCoverage (details r)) * 3)).
    rewrite Hcov. reflexivity. }
  assert (Hk : killScore r == 0).
  { change (killScore r)
      with (globalRedCoverageScore (details r) * (4 # 10)
            + redUniformityScore (details r) * (3 # 10)
            + redIntensityScore (details r) * (2 # 10)
            + nonRedAreaScore (details r) * (1 # 10)).
    rewrite Ha, Hu, Hi, Hn. reflexivity. }
  repeat split; try assumption.
  change (isKillScreen r) with (Qgtb (killScore r) (8 # 10)).
  apply Qgtb_false. rewrite Hk. lra.
Qed.

Lemma dark_frame_scores_zero_witness :
  let r := scoreFrame blackFrame "frame.png" in
  totalRedPixels (scanGrid blackFrame) = 0%nat /\
  globalRedCoverageScore (details r) == 0 /\
  redUniformityScore (details r) == 0 /\
  redIntensityScore (details r) == 0 /\
  nonRedAreaScore (details r) == 0 /\
  killScore r == 0 /\
  isKillScreen r = false.
Proof.
  apply (dark_frame_scores_zero blackFrame "frame.png").
  - simpl. lia.
  - simpl. lia.
  - unfold darkBuffer, blackFrame. cbn [data]. apply Forall_forall.
    intros b Hb. apply repeat_spec in Hb. subst b. vm_compute. discriminate.
Defined.

(** ** What a kill screen needs *)

(** X11.  A frame is classified as a kill screen only if more than three
    eighths of all its pixels are red and at least four of the nine grid
    cells are more than 30% red; the other two sub-scores cannot make up for
    less. *)
Theorem killScreen_needs_coverage (raw : RawImage) (imagePath : string) :
  (1 <= width (info raw))%nat ->
  (1 <= height (info raw))%nat ->
  isKillScreen (scoreFrame raw imagePath) = true ->
  3 # 8 < ofNat (totalRedPixels (scanGrid raw))
          / ofNat (width (info raw) * height (info raw)) /\
  (4 <= redCellCount raw)%nat.
Proof.
  intros Hw Hh Hk.
  destruct (subscores_unit_interval raw imagePath Hw Hh) as (Ha & Hu & Hi & Hd).
  cbv zeta in Ha, Hu, Hi, Hd.
  set (r := scoreFrame raw imagePath) in *.
  set (cov := ofNat (totalRedPixels (scanGrid raw))
              / ofNat (width (info raw) * height (info raw))).
  change (isKillScreen r) with (Qgtb (killScore r) (8 # 10)) in Hk.
  apply Qgtb_true in Hk.
  change (killScore r)
    with (globalRedCoverageScore (details r) * (4 # 10)
          + redUniformityScore (details r) * (3 # 10)
          + redIntensityScore (details r) * (2 # 10)
          + nonRedAreaScore (details r) * (1 # 10)) in Hk.
  change (globalRedCoverageScore (details r)) with (Qmin 1 (cov * 2)) in *.
  change (nonRedAreaScore (details r)) with (Qmax 0 (1 - (1 - cov) * 3)) in *.
  change (redUniformityScore (details r))
    with (ofNat (redCellCount raw) / ofNat (3 * 3)) in *.
  split.
  - destruct (Q.min_spec 1 (cov * 2)) as [[H1 E1]|[H1 E1]],
             (Q.max_spec 0 (1 - (1 - cov) * 3)) as [[H2 E2]|[H2 E2]];
      rewrite E1, E2 in *; lra.
  - assert (Hthird : 1 # 3 < ofNat (redCellCount raw) / ofNat (3 * 3)) by lra.
    change (ofNat (3 * 3)) with 9 in Hthird.
    assert (H3 : 3 < ofNat (redCellCount raw)).
    { apply (Qmult_lt_r _ _ 9) in Hthird; [|lra].
      assert (E : ofNat (redCellCount raw) / 9 * 9 == ofNat (redCellCount raw))
        by (field).
      rewrite E in Hthird. lra. }
    unfold ofNat in H3. change 3 with (inject_Z 3) in H3.
    rewrite <- Zlt_Qlt in H3. lia.
Qed.

Lemma killScreen_needs_coverage_witness :
  3 # 8 < ofNat (totalRedPixels (scanGrid (allRedFrame 3 3 3))) / ofNat (3 * 3) /\
  (4 <= redCellCount (allRedFrame 3 3 3))%nat.
Proof.
  apply (killScreen_needs_coverage (allRedFrame 3 3 3) "frame.png").
  - simpl. lia.
  - simpl. lia.
  - vm_compute. reflexivity.
Defined.

(** ** What the detector hands on *)

Lemma detectKillScreen_frameNumber sharpRaw (imagePath : string) (n : Z) :
  DetectionResult.frameNumber (detectKillScreen sharpRaw imagePath n) = n.
Proof. unfold detectKillScreen. now destruct (detectGlobalRed sharpRaw imagePath). Qed.

Lemma imap_frameNumbers sharpRaw (l : list string) (k : nat) :
  map DetectionResult.frameNumber
      (imap (fun j path => detectKillScreen sharpRaw path (Z.of_nat (k + j))) l)
  = map Z.of_nat (seq k (length l)).
Proof.
  revert k. induction l as [|x l IH]; intros k; [reflexivity|].
  rewrite imap_cons. cbn [length seq map].
  rewrite detectKillScreen_frameNumber, Nat.add_0_r. f_equal.
  rewrite <- (IH (S k)). f_equal. apply imap_ext. intros j y _. simpl.
  now replace (k + S j)%nat with (S (k + j))%nat by lia.
Qed.

(** X12.  Whatever the decoder does with each path, as long as the images
    it resolves to have at least one column and one row, [batchDetect]
    numbers its results 0, 1, 2, ... in the order of the paths, and every
    result carries a confidence in [0,1] and the classification "kill
    screen" exactly when that confidence is above 0.8. *)
Theorem batchDetect_results
    (sharpRaw : string -> Settled RawImage) (imagePaths : list string) :
  (forall imagePath raw,
     In imagePath imagePaths -> sharpRaw imagePath = Resolved raw ->
     (1 <= width (info raw))%nat /\ (1 <= height (info raw))%nat) ->
  map DetectionResult.frameNumber (batchDetect sharpRaw imagePaths)
  = map Z.of_nat (seq 0 (length imagePaths)) /\
  Forall (fun result =>
            0 <= DetectionResult.confidence result <= 1 /\
            (DetectionResult.isKillScreen result = true
             <-> 8 # 10 < DetectionResult.confidence result))
         (batchDetect sharpRaw imagePaths).
Proof.
  intros Hgeo. rewrite batchDetect_imap. split.
  - apply (imap_frameNumbers sharpRaw imagePaths 0).
  - apply Forall_forall. intros result Hres.
    apply list_elem_of_In, elem_of_lookup_imap in Hres as (i & p & -> & Ep).
    assert (Hin : In p imagePaths).
    { apply list_elem_of_In. eapply list_elem_of_lookup_2. exact Ep. }
    unfold detectKillScreen, detectGlobalRed.
    destruct (sharpRaw p) as [raw|reason] eqn:Er.
    + destruct (Hgeo p raw Hin Er) as [Hw Hh].
      destruct (subscores_unit_interval raw p Hw Hh) as (Ha & Hu & Hci & Hd).
      cbv zeta in Ha, Hu, Hci, Hd.
      cbn [DetectionResult.confidence DetectionResult.isKillScreen]. split.
      * change (killScore (scoreFrame raw p))
          with (globalRedCoverageScore (details (scoreFrame raw p)) * (4 # 10)
                + redUniformityScore (details (scoreFrame raw p)) * (3 # 10)
                + redIntensityScore (details (scoreFrame raw p)) * (2 # 10)
                + nonRedAreaScore (details (scoreFrame raw p)) * (1 # 10)).
        lra.
      * change (isKillScreen (scoreFrame raw p))
          with (Qgtb (killScore (scoreFrame raw p)) (8 # 10)).
        apply Qgtb_true.
    + cbn. split; [lra|]. split; [discriminate | intros H; lra].
Qed.

Lemma batchDetect_results_witness :
  map DetectionResult.frameNumber (batchDetect redDecoder ["f1.png"; "f2.png"]%string)
  = map Z.of_nat (seq 0 2) /\
  Forall (fun result =>
            0 <= DetectionResult.confidence result <= 1 /\
            (DetectionResult.isKillScreen result = true
             <-> 8 # 10 < DetectionResult.confidence result))
         (batchDetect redDecoder ["f1.png"; "f2.png"]%string).
Proof.
  apply (batchDetect_results redDecoder ["f1.png"; "f2.png"]%string).
  intros p raw _ [= <-]. simpl. lia.
Defined.

(** ** The orchestrators: index.ts and detect-only.ts *)

Lemma dedup_run (ks : list KillScreenTimestamp) (w : Q) (m : Z) :
  deduplicateKillScreens ks w m
  = Some (flat_map (emitted m) (dedupClusters w (Array_sort compareByTime ks))).
Proof.
  unfold deduplicateKillScreens. destruct ks as [|k ks]; [reflexivity|].
  cbn [length Nat.eqb].
  apply filterClusters_emitted.
  apply dedupClusters_apart, Array_sort_sorted.
Qed.




Lemma detectKillScreen_classified sharpRaw (imagePath : string) (n : Z) :
  DetectionResult.isKillScreen (detectKillScreen sharpRaw imagePath n)
  = Qgtb (DetectionResult.confidence (detectKillScreen sharpRaw imagePath n)) (8 # 10).
Proof.
  unfold detectKillScreen, detectGlobalRed.
  destruct (sharpRaw imagePath); reflexivity.
Qed.



Lemma imap_frames_increase sharpRaw (l : list string) (k : nat) :
  StronglySorted (fun r r' => (DetectionResult.frameNumber r < DetectionResult.frameNumber r')%Z)
                 (imap (fun j path => detectKillScreen sharpRaw path (Z.of_nat (k + j))) l)
  /\ Forall (fun r => (Z.of_nat k <= DetectionResult.frameNumber r < Z.of_nat (k + length l))%Z)
            (imap (fun j path => detectKillScreen sharpRaw path (Z.of_nat (k + j))) l).
Proof.
  revert k. induction l as [|p l IH]; intros k; [split; constructor|].
  rewrite imap_cons.
  erewrite (imap_ext _ (fun j path => detectKillScreen sharpRaw path (Z.of_nat (S k + j)))).
  2:{ intros j x _. cbn. do 2 f_equal. lia. }
  destruct (IH (S k)) as [Hs Hb]. split.
  - constructor; [exact Hs|].
    eapply Forall_impl; [|exact Hb]. intros r Hr. cbn beta in *.
    rewrite detectKillScreen_frameNumber. lia.
  - constructor.
    + rewrite detectKillScreen_frameNumber. cbn [length]. lia.
    + eapply Forall_impl; [|exact Hb]. intros r Hr. cbn beta in *. cbn [length]. lia.
Qed.

Lemma batchDetect_frames sharpRaw (imagePaths : list string) :
  StronglySorted (fun r r' => (DetectionResult.frameNumber r < DetectionResult.frameNumber r')%Z)
                 (batchDetect sharpRaw imagePaths)
  /\ Forall (fun r => (0 <= DetectionResult.frameNumber r < Z.of_nat (length imagePaths))%Z
                      /\ DetectionResult.isKillScreen r
                         = Qgtb (DetectionResult.confidence r) (8 # 10))
            (batchDetect sharpRaw imagePaths).
Proof.
  rewrite batchDetect_imap.
  destruct (imap_frames_increase sharpRaw imagePaths 0) as [Hs Hb]. cbn [Nat.add] in *.
  split; [exact Hs|].
  apply Forall_forall. intros r Hr. split.
  - rewrite Forall_forall in Hb. specialize (Hb r Hr). cbn beta in Hb. lia.
  - apply list_elem_of_In, elem_of_lookup_imap in Hr as (j & p & -> & _).
    apply detectKillScreen_classified.
Qed.

Lemma Qgeb_true (a b : Q) : Qgeb a b = true <-> b <= a.
Proof.
  unfold Qgeb. destruct (Qlt_le_dec a b); split; intros H; try easy. lra.
Qed.








(** X14.  In [processVideo] a confidence threshold at or below 0.8 has no
    effect: the filter of line 48 also asks for [isKillScreen], which the
    detector sets only above 0.8, so two runs that differ only in such
    thresholds end the same way. *)
Theorem threshold_below_cutoff_changes_nothing (sharpRaw : string -> Settled RawImage)
    (framePaths : list string) (inputPath outputPath : string)
    (beforeSeconds afterSeconds threshold threshold' : Q) (dryRun : bool) :
  threshold <= 8 # 10 -> threshold' <= 8 # 10 ->
  processVideo sharpRaw framePaths
    (ProcessingOptions.mk inputPath outputPath beforeSeconds afterSeconds threshold) dryRun
  = processVideo sharpRaw framePaths
      (ProcessingOptions.mk inputPath outputPath beforeSeconds afterSeconds threshold') dryRun.
Proof.
  intros Ht Ht'.
  assert (Hraw : forall thr, thr <= 8 # 10 ->
            rawKillScreensOfIndex thr (batchDetect sharpRaw framePaths)
            = map toKillScreenTimestamp
                  (List.filter DetectionResult.isKillScreen (batchDetect sharpRaw framePaths))).
  { intros thr Hthr. unfold rawKillScreensOfIndex. f_equal.
    destruct (batchDetect_frames sharpRaw framePaths) as [_ Hb].
    induction Hb as [|r l [_ Hr] _ IH]; [reflexivity|].
    cbn [List.filter]. rewrite IH.
    destruct (DetectionResult.isKillScreen r) eqn:Hk; [|reflexivity].
    symmetry in Hr. apply Qgtb_true in Hr.
    cbn [andb]. replace (Qgeb (DetectionResult.confidence r) thr) with true; [reflexivity|].
    symmetry. apply Qgeb_true. lra. }
  unfold processVideo. cbn [ProcessingOptions.confidenceThreshold
    ProcessingOptions.beforeSeconds ProcessingOptions.afterSeconds
    ProcessingOptions.inputPath ProcessingOptions.outputPath].
  rewrite (Hraw threshold Ht), (Hraw threshold' Ht'). reflexivity.
Qed.

Lemma threshold_below_cutoff_changes_nothing_witness :
  processVideo redDecoder ["f1.png"; "f2.png"]%string
    (ProcessingOptions.mk "in.mp4" "out.mp4" 3 2 (1 # 2)) false
  = processVideo redDecoder ["f1.png"; "f2.png"]%string
      (ProcessingOptions.mk "in.mp4" "out.mp4" 3 2 (8 # 10)) false.
Proof.
  apply threshold_below_cutoff_changes_nothing; [lra|lra].
Defined.

Lemma processVideo_segments (sharpRaw : string -> Settled RawImage)
    (framePaths : list string) (options : ProcessingOptions.t) (dryRun : bool) :
  match processVideo sharpRaw framePaths options dryRun with
  | Slice _ segments _ => segments <> []
  | _ => True
  end.
Proof.
  unfold processVideo. rewrite dedup_run.
  destruct (flat_map _ _) as [|r out]; [exact I|].
  cbn [length Nat.eqb]. destruct dryRun; [exact I|]. discriminate.
Qed.


(** ** The project file of detect-only.ts and its use by generate-video.ts *)

Lemma map_imap_fixed {A B C : Type} (g : B -> C) (h : A -> C) (l : list A) :
  forall f : nat -> A -> B,
    (forall i x, g (f i x) = h x) -> map g (imap f l) = map h l.
Proof.
  induction l as [|x l IH]; intros f Hf; [reflexivity|].
  rewrite imap_cons. cbn [map]. rewrite Hf. f_equal.
  apply IH. intros i y. apply Hf.
Qed.

Lemma map_imap_index {A B : Type} (g : B -> Z) (l : list A) :
  forall (f : nat -> A -> B) (k : nat),
    (forall i x, g (f i x) = Z.of_nat (k + i) + 1)%Z ->
    map g (imap f l) = map Z.of_nat (seq (S k) (length l)).
Proof.
  induction l as [|x l IH]; intros f k Hf; [reflexivity|].
  rewrite imap_cons. cbn [map length seq]. rewrite Hf. f_equal; [lia|].
  apply (IH _ (S k)). intros i y. unfold compose. rewrite Hf. f_equal. lia.
Qed.

Lemma detectionEntries_fields (finalKillScreens : list KillScreenTimestamp) :
  map DetectionEntry.id (detectionEntries finalKillScreens)
  = map Z.of_nat (seq 1 (length finalKillScreens))
  /\ map DetectionEntry.timeInSeconds (detectionEntries finalKillScreens)
     = map timeInSeconds finalKillScreens
  /\ map DetectionEntry.frameNumber (detectionEntries finalKillScreens)
     = map frameNumber finalKillScreens
  /\ map DetectionEntry.confidence (detectionEntries finalKillScreens)
     = map confidence finalKillScreens
  /\ map DetectionEntry.enabled (detectionEntries finalKillScreens)
     = map (fun _ => true) finalKillScreens
  /\ length (detectionEntries finalKillScreens) = length finalKillScreens.
Proof.
  unfold detectionEntries. repeat split.
  - apply (map_imap_index _ _ _ 0). reflexivity.
  - now apply map_imap_fixed.
  - now apply map_imap_fixed.
  - now apply map_imap_fixed.
  - now apply map_imap_fixed.
  - apply length_imap.
Qed.



Lemma filter_imap_all {A B : Type} (P : B -> bool) (l : list A) :
  forall f : nat -> A -> B,
    (forall i x, P (f i x) = true) -> List.filter P (imap f l) = imap f l.
Proof.
  induction l as [|x l IH]; intros f Hf; [reflexivity|].
  rewrite imap_cons. cbn [List.filter]. rewrite Hf.
  f_equal. apply IH. intros i y. apply Hf.
Qed.

Lemma detectionEntries_enabled (finalKillScreens : list KillScreenTimestamp) :
  filter (fun d => DetectionEntry.enabled d) (detectionEntries finalKillScreens)
  = detectionEntries finalKillScreens.
Proof. apply filter_imap_all. reflexivity. Qed.


(** X17.  The two-step workflow.  Run on the project that [detectOnly]
    builds, [generateVideo] stops for want of enabled detections exactly
    when the clusterer kept nothing, and otherwise plans, unless it is a
    preview, the segments [createVideoSegments] gives for the records the
    clusterer kept, with the lead and trail of the detection run unless the
    generation run names others, and cuts them out of the video the
    detection run resolved unless the generation run names another. *)
Theorem detect_then_generate (sharpRaw : string -> Settled RawImage)
    (framePaths : list string) (resolvedInputPath createdAt : string)
    (confidenceThreshold beforeSeconds afterSeconds : Q) (scaleWidth : Z) :
  exists project finalKillScreens,
    detectOnly sharpRaw framePaths resolvedInputPath createdAt
               confidenceThreshold beforeSeconds afterSeconds scaleWidth = Some project
    /\ deduplicateKillScreens
         (rawKillScreensOfDetectOnly confidenceThreshold (batchDetect sharpRaw framePaths))
         5 1 = Some finalKillScreens
    /\ forall (detectionFile : string) (options : GenerateOptions),
         let lead := match before options with Some b => b | None => beforeSeconds end in
         let trail := match after options with Some a => a | None => afterSeconds end in
         (generateVideo detectionFile project options = NoEnabledDetections
          <-> finalKillScreens = [])
         /\ plannedSegments (generateVideo detectionFile project options)
            = (if preview options then []
               else createVideoSegments finalKillScreens lead trail)
         /\ forall inputVideoPath segments outputPath,
              generateVideo detectionFile project options
              = Concatenate inputVideoPath segments outputPath ->
              inputVideoPath = orElse (input options) resolvedInputPath.
Proof.
  unfold detectOnly. rewrite dedup_run. cbn [mbind option_bind].
  eexists. eexists. split; [reflexivity|]. split; [reflexivity|].
  set (final := flat_map _ _).
  intros detectionFile options. cbn zeta.
  unfold generateVideo.
  cbn [DetectionProject.detections DetectionProject.processingOptions
       DetectionProject.beforeSeconds DetectionProject.afterSeconds
       DetectionProject.inputVideo].
  rewrite detectionEntries_enabled.
  destruct (detectionEntries_fields final) as (_ & Ht & _ & _ & _ & Hlen).
  rewrite Hlen.
  assert (Hsegments : forall lead trail,
            map (fun detection =>
                   {| VideoSegment.startTime :=
                        Qmax 0 (DetectionEntry.timeInSeconds detection - lead);
                      VideoSegment.endTime := DetectionEntry.timeInSeconds detection + trail;
                      VideoSegment.duration := lead + trail |})
                (detectionEntries final)
            = createVideoSegments final lead trail).
  { intros lead trail. unfold createVideoSegments.
    rewrite <- (map_map DetectionEntry.timeInSeconds
                  (fun t => {| VideoSegment.startTime := Qmax 0 (t - lead);
                               VideoSegment.endTime := t + trail;
                               VideoSegment.duration := lead + trail |})),
            Ht, map_map. reflexivity. }
  destruct final as [|r final'] eqn:Hfinal.
  - cbn [length Nat.eqb plannedSegments]. split; [split; reflexivity|].
    split; [now destruct (preview options)|]. intros ? ? ? [=].
  - cbn [length Nat.eqb]. split; [split; [|discriminate]|].
    + destruct (preview options); discriminate.
    + destruct (preview options); [split; [reflexivity|intros ? ? ? [=]]|].
      cbn [plannedSegments]. rewrite Hsegments. split; [reflexivity|].
      intros ? ? ? [= <- _ _]. reflexivity.
Qed.

(** ** The slicer *)

Section SlicerFacts.
Variable fails : list Call -> Call -> option string.
Variable pathJoin : string -> string -> string.
Variable tempDir : string.

Lemma andThen_apply {A B : Type} (m : Async A) (k : A -> Async B) (calls : list Call) :
  andThen m k calls =
  match m calls with
  | (Resolved value, calls') => k value calls'
  | (Rejected reason, calls') => (Rejected reason, calls')
  end.
Proof. reflexivity. Qed.

Lemma cutLoop_script (videoPath : string) (segments : list VideoSegment.t) :
  forall (i : nat) (segmentPaths : list string) (calls : list Call),
    let segmentDir := pathJoin tempDir "segments" in
    let cuts :=
      imap (fun j segment =>
              CutSegment videoPath (VideoSegment.startTime segment)
                         (VideoSegment.duration segment)
                         (segmentPathOf pathJoin segmentDir (i + j))) segments in
    cutLoop fails pathJoin videoPath segmentDir i segments segmentPaths calls =
    andThen (awaitAll fails cuts)
            (fun _ => resolve (segmentPaths
                               ++ map (segmentPathOf pathJoin segmentDir)
                                      (seq i (length segments)))) calls.
Proof.
  induction segments as [|segment rest IH]; intros i segmentPaths calls; cbn zeta.
  - cbn. unfold andThen, resolve. cbn. now rewrite app_nil_r.
  - cbn [cutLoop imap awaitAll length seq map].
    rewrite Nat.add_0_r.
    rewrite !andThen_apply. cbn [awaitAll].
    destruct (await fails _ calls) as [[[]|reason] calls'] eqn:Hawait; [|reflexivity].
    specialize (IH (S i) (segmentPaths ++ [segmentPathOf pathJoin (pathJoin tempDir "segments") i]) calls').
    cbn zeta in IH. rewrite IH, andThen_apply.
    rewrite <- app_assoc. cbn [app].
    erewrite imap_ext; [reflexivity|].
    intros j x _. cbn. do 2 f_equal. lia.
Qed.

Lemma awaitAll_cases (script : list Call) :
  forall calls : list Call,
    (awaitAll fails script calls = (Resolved tt, calls ++ script)
     /\ forall k c, script !! k = Some c -> fails (calls ++ take k script) c = None)
    \/ exists k c reason,
         script !! k = Some c
         /\ fails (calls ++ take k script) c = Some reason
         /\ (forall j c', (j < k)%nat -> script !! j = Some c' ->
                          fails (calls ++ take j script) c' = None)
         /\ awaitAll fails script calls = (Rejected reason, calls ++ take (S k) script).
Proof.
  induction script as [|c rest IH]; intros calls.
  - left. split; [cbn; unfold resolve; now rewrite app_nil_r|].
    intros k c Hk. destruct k; discriminate.
  - cbn [awaitAll]. unfold andThen, await.
    destruct (fails calls c) as [reason|] eqn:Hc.
    + right. exists 0%nat, c, reason. cbn. rewrite app_nil_r.
      repeat split; auto. intros j c' Hj. lia.
    + destruct (IH (calls ++ [c])) as [[Hrun Hok]|(k & c' & reason & Hk & Hfail & Hbefore & Hrun)].
      * left. rewrite Hrun, <- app_assoc. split; [reflexivity|].
        intros [|k] c' Hk; cbn in *.
        -- inversion Hk; subst. now rewrite app_nil_r.
        -- specialize (Hok k c' Hk). now rewrite <- app_assoc in Hok.
      * right. exists (S k), c', reason. cbn [take].
        rewrite Hrun, <- !app_assoc in *. cbn [app] in *.
        repeat split; auto.
        intros [|j] c'' Hj Hl; cbn in *.
        -- inversion Hl; subst. now rewrite app_nil_r.
        -- specialize (Hbefore j c'' ltac:(lia) Hl). now rewrite <- app_assoc in Hbefore.
Qed.

Lemma awaitAll_app (script script' : list Call) (calls : list Call) :
  awaitAll fails (script ++ script') calls =
  andThen (awaitAll fails script) (fun _ => awaitAll fails script') calls.
Proof.
  revert calls. induction script as [|c rest IH]; intros calls; [reflexivity|].
  cbn [app awaitAll]. rewrite !andThen_apply.
  destruct (await fails c calls) as [[[]|reason] calls']; [|reflexivity].
  rewrite IH. reflexivity.
Qed.

Lemma await_last (c : Call) (calls : list Call) :
  andThen (await fails c) (fun _ => resolve tt) calls = await fails c calls.
Proof.
  rewrite andThen_apply. unfold await, resolve.
  destruct (fails calls c); reflexivity.
Qed.

(** The slicer as a script: after the two directories, either the empty
    list is refused, or the cuts and then the joining calls are awaited in
    order. *)
Lemma slicer_script (videoPath : string) (segments : list VideoSegment.t)
    (outputPath : string) (calls : list Call) :
  extractAndConcatenateSegments fails pathJoin tempDir videoPath segments outputPath calls =
  andThen (ensureTempDirectory fails tempDir) (fun _ =>
  andThen (await fails (Mkdir (pathJoin tempDir "segments"))) (fun _ =>
    match segments with
    | [] => throw "No segments to concatenate"
    | _ :: _ => awaitAll fails (cutCalls pathJoin tempDir videoPath segments
                                ++ joinCalls pathJoin tempDir segments outputPath)
    end)) calls.
Proof.
  unfold extractAndConcatenateSegments.
  rewrite !(andThen_apply (ensureTempDirectory fails tempDir)).
  destruct (ensureTempDirectory fails tempDir calls) as [[[]|reason] calls1]; [|reflexivity].
  rewrite !(andThen_apply (await fails _)).
  destruct (await fails _ calls1) as [[[]|reason] calls2]; [|reflexivity].
  rewrite andThen_apply, cutLoop_script, andThen_apply.
  destruct segments as [|s1 [|s2 rest]].
  - reflexivity.
  - rewrite awaitAll_app, andThen_apply.
    change (imap _ [s1]) with (cutCalls pathJoin tempDir videoPath [s1]).
    destruct (awaitAll fails (cutCalls pathJoin tempDir videoPath [s1]) calls2)
      as [[[]|reason] calls3]; [|reflexivity].
    cbn. rewrite await_last. reflexivity.
  - rewrite awaitAll_app, andThen_apply.
    change (imap _ (s1 :: s2 :: rest))
      with (cutCalls pathJoin tempDir videoPath (s1 :: s2 :: rest)).
    destruct (awaitAll fails (cutCalls pathJoin tempDir videoPath (s1 :: s2 :: rest)) calls2)
      as [[[]|reason] calls3]; [|reflexivity].
    unfold resolve. cbn [app joinCalls awaitAll].
    rewrite List.length_map, List.length_seq. cbn [length Nat.eqb].
    rewrite !andThen_apply.
    destruct (await fails _ calls3) as [[[]|reason] calls4]; [|reflexivity].
    rewrite await_last. reflexivity.
Qed.

Lemma ensureTempDirectory_run (calls : list Call) :
  ensureTempDirectory fails tempDir calls = (Resolved tt, calls ++ [Mkdir tempDir]).
Proof.
  unfold ensureTempDirectory, tryCatch, await.
  destruct (fails calls (Mkdir tempDir)); reflexivity.
Qed.

(** The four ways a run of the slicer can go, started with no call made. *)
Lemma slicer_run_cases (videoPath : string) (segments : list VideoSegment.t)
    (outputPath : string) :
  let run := extractAndConcatenateSegments fails pathJoin tempDir videoPath segments
                                            outputPath [] in
  let head := [Mkdir tempDir; Mkdir (pathJoin tempDir "segments")] in
  let script := cutCalls pathJoin tempDir videoPath segments
                ++ joinCalls pathJoin tempDir segments outputPath in
  (exists reason,
     fails [Mkdir tempDir] (Mkdir (pathJoin tempDir "segments")) = Some reason
     /\ run = (Rejected reason, head))
  \/ (fails [Mkdir tempDir] (Mkdir (pathJoin tempDir "segments")) = None
      /\ segments = []
      /\ run = (Rejected "No segments to concatenate"%string, head))
  \/ (fails [Mkdir tempDir] (Mkdir (pathJoin tempDir "segments")) = None
      /\ segments <> []
      /\ run = (Resolved tt, head ++ script)
      /\ forall k c, script !! k = Some c -> fails (head ++ take k script) c = None)
  \/ (fails [Mkdir tempDir] (Mkdir (pathJoin tempDir "segments")) = None
      /\ segments <> []
      /\ exists k c reason,
           script !! k = Some c
           /\ fails (head ++ take k script) c = Some reason
           /\ (forall j c', (j < k)%nat -> script !! j = Some c' ->
                            fails (head ++ take j script) c' = None)
           /\ run = (Rejected reason, head ++ take (S k) script)).
Proof.
  cbn zeta. rewrite slicer_script, andThen_apply, ensureTempDirectory_run.
  cbn [app]. rewrite andThen_apply.
  replace (await fails (Mkdir (pathJoin tempDir "segments")) [Mkdir tempDir])
    with (match fails [Mkdir tempDir] (Mkdir (pathJoin tempDir "segments")) with
          | None => (Resolved tt, [Mkdir tempDir; Mkdir (pathJoin tempDir "segments")])
          | Some reason =>
              (@Rejected unit reason, [Mkdir tempDir; Mkdir (pathJoin tempDir "segments")])
          end)
    by (unfold await; now destruct (fails _ _)).
  destruct (fails [Mkdir tempDir] (Mkdir (pathJoin tempDir "segments"))) as [reason|] eqn:Hdir.
  - left. exists reason. split; reflexivity.
  - right. cbn [app]. destruct segments as [|s1 rest] eqn:Hsegments.
    + left. split; [reflexivity|]. split; reflexivity.
    + right. rewrite <- Hsegments.
      destruct (awaitAll_cases
                  (cutCalls pathJoin tempDir videoPath segments
                   ++ joinCalls pathJoin tempDir segments outputPath)
                  [Mkdir tempDir; Mkdir (pathJoin tempDir "segments")])
        as [[Hrun Hok]|(k & c & reason & Hk & Hfail & Hbefore & Hrun)].
      * left. repeat split; [congruence|exact Hrun|exact Hok].
      * right. split; [reflexivity|]. split; [congruence|].
        exists k, c, reason. auto.
Qed.

Lemma cutCalls_filter (videoPath : string) (segments : list VideoSegment.t) :
  List.filter isCut (cutCalls pathJoin tempDir videoPath segments)
  = cutCalls pathJoin tempDir videoPath segments.
Proof. apply filter_imap_all. reflexivity. Qed.

Lemma cutCalls_length (videoPath : string) (segments : list VideoSegment.t) :
  length (cutCalls pathJoin tempDir videoPath segments) = length segments.
Proof. apply length_imap. Qed.

Lemma joinCalls_shape (segments : list VideoSegment.t) (outputPath : string) :
  segments <> [] ->
  exists before c,
    joinCalls pathJoin tempDir segments outputPath = before ++ [c]
    /\ makesOutput c = true
    /\ Forall (fun c' => makesOutput c' = false /\ isCut c' = false) before
    /\ isCut c = false.
Proof.
  intros Hne. destruct segments as [|s1 [|s2 rest]]; [congruence| |].
  - exists [], (CopyFile (segmentPathOf pathJoin (pathJoin tempDir "segments") 0) outputPath).
    repeat split. constructor.
  - eexists [_], _. cbn [joinCalls app]. split; [reflexivity|].
    repeat split. repeat constructor.
Qed.

Lemma cutCalls_no_output (videoPath : string) (segments : list VideoSegment.t) :
  Forall (fun c => makesOutput c = false) (cutCalls pathJoin tempDir videoPath segments).
Proof.
  apply Forall_lookup. intros i c Hc. unfold cutCalls in Hc.
  rewrite list_lookup_imap in Hc. destruct (segments !! i); [|discriminate].
  cbn in Hc. now inversion Hc.
Qed.
End SlicerFacts.

Lemma last_output (P : Call -> bool) (safe : list Call) (final : Call) :
  Forall (fun c => P c = false) safe ->
  forall pre c post,
    safe ++ [final] = pre ++ c :: post -> P c = true ->
    post = [] /\ pre = safe /\ c = final.
Proof.
  induction 1 as [|s safe Hs _ IH]; intros pre c post Heq Hc.
  - destruct pre as [|x pre]; cbn in Heq.
    + inversion Heq; subst. auto.
    + inversion Heq as [[Hx Hrest]]. destruct pre; discriminate.
  - destruct pre as [|x pre]; cbn in Heq.
    + inversion Heq; subst. congruence.
    + inversion Heq as [[Hx Hrest]]. subst x.
      destruct (IH pre c post Hrest Hc) as (-> & -> & ->). auto.
Qed.

(** The calls of a run are the beginning of the whole script, and the
    calls before the last one made have succeeded. *)
Lemma slicer_trace (fails : list Call -> Call -> option string)
    (pathJoin : string -> string -> string) (tempDir videoPath : string)
    (segments : list VideoSegment.t) (outputPath : string) :
  let run := extractAndConcatenateSegments fails pathJoin tempDir videoPath segments
                                            outputPath [] in
  let head := [Mkdir tempDir; Mkdir (pathJoin tempDir "segments")] in
  let script := cutCalls pathJoin tempDir videoPath segments
                ++ joinCalls pathJoin tempDir segments outputPath in
  exists n,
    snd run = head ++ take n script
    /\ (n <= length script)%nat
    /\ forall j c, (S j < n)%nat -> script !! j = Some c ->
                   fails (head ++ take j script) c = None.
Proof.
  cbn zeta.
  destruct (slicer_run_cases fails pathJoin tempDir videoPath segments outputPath)
    as [(reason & _ & ->)|[(_ & _ & ->)|[(_ & _ & -> & Hok)|(_ & _ & k & c & reason & Hk & _ & Hbefore & ->)]]].
  - exists 0%nat. cbn. repeat split; [lia|]. intros; lia.
  - exists 0%nat. cbn. repeat split; [lia|]. intros; lia.
  - eexists. cbn [snd]. rewrite firstn_all. repeat split; [reflexivity|].
    intros j c _ Hc. now apply Hok.
  - exists (S k). cbn [snd]. split; [reflexivity|]. split.
    + apply lookup_lt_Some in Hk. lia.
    + intros j c' Hj Hc'. apply Hbefore; [lia|exact Hc'].
Qed.

(** X18.  What a run of [extractAndConcatenateSegments] that resolves has
    done (processor.ts lines 166-221): the list of segments was not empty,
    and the calls were exactly the two directories, one cut per segment in
    order, each seeking to the segment's start for the segment's duration
    into its numbered file, and then the copy of the only segment file or
    the list file and the join; every call after the first directory
    succeeded (a failure of the first is swallowed). *)
Theorem slicer_resolved_run (fails : list Call -> Call -> option string)
    (pathJoin : string -> string -> string) (tempDir videoPath : string)
    (segments : list VideoSegment.t) (outputPath : string) :
  let run := extractAndConcatenateSegments fails pathJoin tempDir videoPath segments
                                            outputPath [] in
  let script := Mkdir (pathJoin tempDir "segments")
                :: cutCalls pathJoin tempDir videoPath segments
                ++ joinCalls pathJoin tempDir segments outputPath in
  fst run = Resolved tt ->
  segments <> []
  /\ snd run = Mkdir tempDir :: script
  /\ forall k c, script !! k = Some c -> fails (Mkdir tempDir :: take k script) c = None.
Proof.
  cbn zeta. intros Hrun.
  destruct (slicer_run_cases fails pathJoin tempDir videoPath segments outputPath)
    as [(reason & _ & Heq)|[(_ & _ & Heq)|[(Hdir & Hne & Heq & Hok)|(_ & _ & k & c & reason & _ & _ & _ & Heq)]]];
    rewrite Heq in Hrun; try discriminate Hrun.
  rewrite Heq. split; [exact Hne|]. split; [reflexivity|].
  intros [|k] c Hc; cbn in Hc |- *.
  - inversion Hc; subst. exact Hdir.
  - apply (Hok k c Hc).
Qed.

Lemma slicer_resolved_run_witness :
  createVideoSegments sampleC2 3 2 <> []
  /\ snd (extractAndConcatenateSegments neverFails joinWithSlash "temp" "in.mp4"
            (createVideoSegments sampleC2 3 2) "out.mp4" [])
     = Mkdir "temp"
       :: Mkdir (joinWithSlash "temp" "segments")
       :: cutCalls joinWithSlash "temp" "in.mp4" (createVideoSegments sampleC2 3 2)
       ++ joinCalls joinWithSlash "temp" (createVideoSegments sampleC2 3 2) "out.mp4"
  /\ forall k c,
       (Mkdir (joinWithSlash "temp" "segments")
        :: cutCalls joinWithSlash "temp" "in.mp4" (createVideoSegments sampleC2 3 2)
        ++ joinCalls joinWithSlash "temp" (createVideoSegments sampleC2 3 2) "out.mp4")
         !! k = Some c ->
       neverFails
         (Mkdir "temp"
          :: take k (Mkdir (joinWithSlash "temp" "segments")
                     :: cutCalls joinWithSlash "temp" "in.mp4"
                          (createVideoSegments sampleC2 3 2)
                     ++ joinCalls joinWithSlash "temp"
                          (createVideoSegments sampleC2 3 2) "out.mp4")) c = None.
Proof.
  apply (slicer_resolved_run neverFails joinWithSlash "temp" "in.mp4"
           (createVideoSegments sampleC2 3 2) "out.mp4").
  reflexivity.
Defined.

(** X19.  Why a run of the slicer rejects: either it was given no segment
    and both directories could be made, and then it throws
    'No segments to concatenate' without a cut, a copy or a join; or the
    last call it made failed, and the run rejects with that call's
    reason. *)
Theorem slicer_rejected_run (fails : list Call -> Call -> option string)
    (pathJoin : string -> string -> string) (tempDir videoPath : string)
    (segments : list VideoSegment.t) (outputPath : string) (reason : string) :
  let run := extractAndConcatenateSegments fails pathJoin tempDir videoPath segments
                                            outputPath [] in
  fst run = Rejected reason ->
  (segments = []
   /\ reason = "No segments to concatenate"%string
   /\ snd run = [Mkdir tempDir; Mkdir (pathJoin tempDir "segments")])
  \/ exists pre c, snd run = pre ++ [c] /\ fails pre c = Some reason.
Proof.
  cbn zeta. intros Hrun.
  destruct (slicer_run_cases fails pathJoin tempDir videoPath segments outputPath)
    as [(reason' & Hdir & Heq)|[(_ & Hnil & Heq)|[(_ & _ & Heq & _)|(_ & _ & k & c & reason' & Hk & Hfail & _ & Heq)]]];
    rewrite Heq in Hrun |- *; cbn [fst snd] in *; try discriminate Hrun.
  - right. exists [Mkdir tempDir], (Mkdir (pathJoin tempDir "segments")).
    split; [reflexivity|]. congruence.
  - left. split; [exact Hnil|]. split; [congruence|reflexivity].
  - right. eexists. exists c. split; [|inversion Hrun; subst; exact Hfail].
    rewrite (take_S_r _ _ _ Hk), app_assoc. reflexivity.
Qed.

Lemma slicer_rejected_run_witness :
  ([] = @nil VideoSegment.t
   /\ "No segments to concatenate"%string = "No segments to concatenate"%string
   /\ snd (extractAndConcatenateSegments neverFails joinWithSlash "temp" "in.mp4" []
                                         "out.mp4" [])
      = [Mkdir "temp"; Mkdir (joinWithSlash "temp" "segments")])
  \/ exists pre c,
       snd (extractAndConcatenateSegments neverFails joinWithSlash "temp" "in.mp4" []
                                          "out.mp4" []) = pre ++ [c]
       /\ neverFails pre c = Some "No segments to concatenate"%string.
Proof.
  apply (slicer_rejected_run neverFails joinWithSlash "temp" "in.mp4" [] "out.mp4").
  reflexivity.
Defined.

(** X20.  The slicer never touches the output before every cut has
    succeeded: a copy or a join appears in the calls of a run only as the
    last call, after both directories, the cut of every segment and, for
    more than one segment, the list file; and each of those cuts
    succeeded. *)
Theorem output_written_last (fails : list Call -> Call -> option string)
    (pathJoin : string -> string -> string) (tempDir videoPath : string)
    (segments : list VideoSegment.t) (outputPath : string)
    (pre post : list Call) (c : Call) :
  let run := extractAndConcatenateSegments fails pathJoin tempDir videoPath segments
                                            outputPath [] in
  let head := [Mkdir tempDir; Mkdir (pathJoin tempDir "segments")] in
  let cuts := cutCalls pathJoin tempDir videoPath segments in
  snd run = pre ++ c :: post -> makesOutput c = true ->
  post = []
  /\ pre ++ [c] = head ++ cuts ++ joinCalls pathJoin tempDir segments outputPath
  /\ List.filter isCut pre = cuts
  /\ length cuts = length segments
  /\ forall k cut, cuts !! k = Some cut -> fails (head ++ take k cuts) cut = None.
Proof.
  cbn zeta. intros Htrace Hc.
  destruct (slicer_trace fails pathJoin tempDir videoPath segments outputPath)
    as (n & Hn & Hlen & Hok). cbn zeta in *.
  set (cuts := cutCalls pathJoin tempDir videoPath segments) in *.
  set (head := [Mkdir tempDir; Mkdir (pathJoin tempDir "segments")]) in *.
  assert (Hne : segments <> []).
  { intros ->. rewrite Hn in Htrace. cbn in Htrace. rewrite take_nil in Htrace.
    destruct pre as [|x [|y [|z pre]]]; inversion Htrace; subst; discriminate. }
  destruct (joinCalls_shape pathJoin tempDir segments outputPath Hne)
    as (before & final & Hjoin & Hfinal & Hbefore & Hcutfinal).
  rewrite Hjoin in *.
  set (script := cuts ++ before ++ [final]) in *.
  assert (Hsafe : Forall (fun c' => makesOutput c' = false) (head ++ cuts ++ before)).
  { apply Forall_app. split; [repeat constructor|].
    apply Forall_app. split; [apply cutCalls_no_output|].
    eapply Forall_impl; [|exact Hbefore]. now intros ? [? _]. }
  assert (Hfull : (head ++ cuts ++ before) ++ [final]
                  = pre ++ c :: (post ++ drop n script)).
  { transitivity ((pre ++ c :: post) ++ drop n script);
      [|now rewrite <- app_assoc].
    rewrite <- Htrace, Hn, <- (app_assoc head (take n script)), take_drop.
    unfold script. now rewrite <- !app_assoc. }
  destruct (last_output makesOutput _ final Hsafe pre c _ Hfull Hc) as (Hpost & Hpre & Hcf).
  apply app_eq_nil in Hpost as [Hpost Hdrop].
  split; [exact Hpost|]. subst pre c post. rewrite <- !app_assoc.
  split; [reflexivity|]. split; [|split; [apply cutCalls_length|]].
  - rewrite !List.filter_app. cbn [head List.filter isCut app].
    unfold cuts at 1. rewrite cutCalls_filter.
    rewrite (filter_none isCut before); [apply app_nil_r|].
    eapply Forall_impl; [|exact Hbefore]. now intros ? [_ ?].
  - intros k cut Hk.
    assert (Hkl : (k < length cuts)%nat) by (eapply lookup_lt_Some; exact Hk).
    assert (Hn' : n = length script).
    { apply drop_nil_inv in Hdrop.
      lia. }
    replace (take k cuts) with (take k script)
      by (unfold script; rewrite take_app_le by lia; reflexivity).
    apply Hok.
    + rewrite Hn'. unfold script. rewrite !length_app. cbn [length]. lia.
    + unfold script. rewrite lookup_app_l by lia. exact Hk.
Qed.

Lemma output_written_last_witness :
  let segments := createVideoSegments [mkKillScreenTimestamp 500 100 (9 # 10)] 3 2 in
  let head := [Mkdir "temp"; Mkdir (joinWithSlash "temp" "segments")] in
  let cuts := cutCalls joinWithSlash "temp" "in.mp4" segments in
  @nil Call = []
  /\ (head ++ cuts) ++ [CopyFile "temp/segments/segment_000.mp4" "out.mp4"]
     = head ++ cuts ++ joinCalls joinWithSlash "temp" segments "out.mp4"
  /\ List.filter isCut (head ++ cuts) = cuts
  /\ length cuts = length segments
  /\ forall k cut, cuts !! k = Some cut -> neverFails (head ++ take k cuts) cut = None.
Proof.
  apply (output_written_last neverFails joinWithSlash "temp" "in.mp4"
           (createVideoSegments [mkKillScreenTimestamp 500 100 (9 # 10)] 3 2) "out.mp4"
           _ [] (CopyFile "temp/segments/segment_000.mp4" "out.mp4")).
  - reflexivity.
  - reflexivity.
Defined.





(** X22.  Neither orchestrator can make the slicer throw
    'No segments to concatenate': [processVideo] and [generateVideo] return
    early when nothing is left to cut, so when the run of the slicer they
    start rejects, the last call made has failed and the reason is that
    call's. *)
Theorem orchestrators_slice_something (fails : list Call -> Call -> option string)
    (pathJoin : string -> string -> string) (tempDir : string)
    (sharpRaw : string -> Settled RawImage) (framePaths : list string)
    (processingOptions : ProcessingOptions.t)
    (detectionFile : string) (project : DetectionProject.t) (options : GenerateOptions)
    (videoPath : string) (segments : list VideoSegment.t) (outputPath reason : string) :
  let run := extractAndConcatenateSegments fails pathJoin tempDir videoPath segments
                                            outputPath [] in
  processVideo sharpRaw framePaths processingOptions false
    = Slice videoPath segments outputPath
  \/ generateVideo detectionFile project options
     = Concatenate videoPath segments outputPath ->
  fst run = Rejected reason ->
  segments <> []
  /\ exists pre c, snd run = pre ++ [c] /\ fails pre c = Some reason.
Proof.
  cbn zeta. intros Hcaller Hrun.
  assert (Hne : segments <> []).
  { destruct Hcaller as [Hp|Hg].
    - pose proof (processVideo_segments sharpRaw framePaths processingOptions false) as H.
      rewrite Hp in H. exact H.
    - unfold generateVideo in Hg.
      destruct (length (filter _ (DetectionProject.detections project)) =? 0)%nat eqn:He;
        [discriminate|].
      destruct (preview options); [discriminate|].
      inversion Hg; subst. intros Hnil. apply map_eq_nil in Hnil.
      rewrite Hnil in He. discriminate. }
  split; [exact Hne|].
  destruct (slicer_run_cases fails pathJoin tempDir videoPath segments outputPath)
    as [(reason' & Hdir & Heq)|[(_ & Hnil & _)|[(_ & _ & Heq & _)|(_ & _ & k & c & reason' & Hk & Hfail & _ & Heq)]]];
    try congruence; rewrite Heq in Hrun |- *; cbn [fst snd] in *; try discriminate Hrun.
  - exists [Mkdir tempDir], (Mkdir (pathJoin tempDir "segments")).
    split; [reflexivity|]. congruence.
  - eexists. exists c. split; [|inversion Hrun; subst; exact Hfail].
    rewrite (take_S_r _ _ _ Hk), app_assoc. reflexivity.
Qed.

Lemma orchestrators_slice_something_witness :
  plannedSegments (generateVideo "match_detections.json" sampleProject plainRun) <> []
  /\ exists pre c,
       snd (extractAndConcatenateSegments outputDenied joinWithSlash "temp" "match.mp4"
              (plannedSegments (generateVideo "match_detections.json" sampleProject plainRun))
              "match_detections_clips.mp4" []) = pre ++ [c]
       /\ outputDenied pre c = Some "EACCES"%string.
Proof.
  apply (orchestrators_slice_something outputDenied joinWithSlash "temp"
           redDecoder [] (ProcessingOptions.mk "" "" 0 0 0)
           "match_detections.json" sampleProject plainRun
           "match.mp4"
           (plannedSegments (generateVideo "match_detections.json" sampleProject plainRun))
           "match_detections_clips.mp4" "EACCES").
  - right. reflexivity.
  - reflexivity.
Defined.

(** ** The output path of generate-video.ts *)

Lemma String_replace_unfold (pattern replacement s : string) :
  String_replace pattern replacement s
  = if String.prefix pattern s
    then (replacement ++ String.substring (String.length pattern)
                           (String.length s - String.length pattern) s)%string
    else match s with
         | EmptyString => EmptyString
         | String c r => String c (String_replace pattern replacement r)
         end.
Proof. destruct s; reflexivity. Qed.

Lemma append_cons (c : ascii) (s r : string) :
  (String c s ++ r)%string = String c (s ++ r)%string.
Proof. reflexivity. Qed.

Lemma append_nil (r : string) : (EmptyString ++ r)%string = r.
Proof. reflexivity. Qed.

Lemma prefix_split (p s : string) :
  String.prefix p s = true -> exists r, s = (p ++ r)%string.
Proof.
  revert s. induction p as [|a p IH]; intros s H.
  - exists s. reflexivity.
  - destruct s as [|b s]; [discriminate|]. cbn in H.
    destruct (ascii_dec a b) as [->|]; [|discriminate].
    destruct (IH s H) as [r ->]. exists r. now rewrite append_cons.
Qed.

Lemma prefix_app (p r : string) : String.prefix p (p ++ r) = true.
Proof.
  induction p as [|a p IH]; [now destruct r|].
  rewrite append_cons. cbn [String.prefix]. destruct (ascii_dec a a); [exact IH|congruence].
Qed.

Lemma substring_all (s : string) : String.substring 0 (String.length s) s = s.
Proof. induction s as [|a s IH]; [reflexivity|]. cbn. now rewrite IH. Qed.

Lemma substring_after (p r : string) :
  String.substring (String.length p) (String.length (p ++ r) - String.length p) (p ++ r) = r.
Proof.
  induction p as [|a p IH].
  - rewrite append_nil. cbn [String.length]. rewrite Nat.sub_0_r. apply substring_all.
  - rewrite append_cons. cbn [String.length String.substring Nat.sub]. exact IH.
Qed.

Lemma String_replace_absent (pattern replacement s : string) :
  (forall a b, s <> (a ++ pattern ++ b)%string) ->
  String_replace pattern replacement s = s.
Proof.
  induction s as [|c s IH]; intros Habsent; rewrite String_replace_unfold.
  - destruct (String.prefix pattern EmptyString) eqn:Hp; [|reflexivity].
    apply prefix_split in Hp as [r Hr]. exfalso. apply (Habsent EmptyString r). exact Hr.
  - destruct (String.prefix pattern (String c s)) eqn:Hp.
    + apply prefix_split in Hp as [r Hr]. exfalso. apply (Habsent EmptyString r). exact Hr.
    + f_equal. apply IH. intros a b Heq. apply (Habsent (String c a) b).
      now rewrite append_cons, Heq.
Qed.

Lemma String_replace_first (pattern replacement pre post : string) :
  (forall a b, (String.length a < String.length pre)%nat ->
               (pre ++ pattern ++ post)%string <> (a ++ pattern ++ b)%string) ->
  String_replace pattern replacement (pre ++ pattern ++ post)
  = (pre ++ replacement ++ post)%string.
Proof.
  induction pre as [|c pre IH]; intros Hfirst; rewrite String_replace_unfold.
  - rewrite !append_nil, prefix_app, substring_after. reflexivity.
  - destruct (String.prefix pattern (String c pre ++ pattern ++ post)) eqn:Hp.
    + apply prefix_split in Hp as [r Hr]. exfalso.
      apply (Hfirst EmptyString r); [cbn; lia|exact Hr].
    + rewrite !append_cons. f_equal. apply IH. intros a b Hlen Heq.
      apply (Hfirst (String c a) b); [cbn; lia|].
      now rewrite !append_cons, Heq.
Qed.

(** X23.  The output path of a generation run that names none
    (generate-video.ts line 51): the first '.json' in the path of the
    detection file is replaced by '_clips.mp4', wherever it stands; and
    when the path holds no '.json' the output path is the path of the
    detection file itself, so the video is written over the project. *)
Theorem generate_output_path (detectionFile : string) (project : DetectionProject.t)
    (options : GenerateOptions) (inputVideoPath : string)
    (segments : list VideoSegment.t) (outputPath : string) :
  generateVideo detectionFile project options
  = Concatenate inputVideoPath segments outputPath ->
  output options = None \/ output options = Some ""%string ->
  (forall pre post,
     detectionFile = (pre ++ ".json" ++ post)%string ->
     (forall a b, (String.length a < String.length pre)%nat ->
                  detectionFile <> (a ++ ".json" ++ b)%string) ->
     outputPath = (pre ++ "_clips.mp4" ++ post)%string)
  /\ ((forall a b, detectionFile <> (a ++ ".json" ++ b)%string) ->
      outputPath = detectionFile).
Proof.
  intros Hrun Hout. unfold generateVideo in Hrun.
  destruct (length _ =? 0)%nat; [discriminate|].
  destruct (preview options); [discriminate|].
  injection Hrun as _ _ <-.
  assert (Horelse : orElse (output options)
                           (String_replace ".json" "_clips.mp4" detectionFile)
                    = String_replace ".json" "_clips.mp4" detectionFile)
    by (destruct Hout as [->| ->]; reflexivity).
  rewrite Horelse. split.
  - intros pre post -> Hfirst. now apply String_replace_first.
  - intros Habsent. now apply String_replace_absent.
Qed.

Lemma generate_output_path_witness :
  (forall pre post,
     "match_detections.json"%string = (pre ++ ".json" ++ post)%string ->
     (forall a b, (String.length a < String.length pre)%nat ->
                  "match_detections.json"%string <> (a ++ ".json" ++ b)%string) ->
     "match_detections_clips.mp4"%string = (pre ++ "_clips.mp4" ++ post)%string)
  /\ ((forall a b, "match_detections.json"%string <> (a ++ ".json" ++ b)%string) ->
      "match_detections_clips.mp4"%string = "match_detections.json"%string).
Proof.
  apply (generate_output_path "match_detections.json" sampleProject plainRun "match.mp4"
           (plannedSegments (generateVideo "match_detections.json" sampleProject plainRun))
           "match_detections_clips.mp4").
  - reflexivity.
  - left. reflexivity.
Defined.

(** ** Sharing between the clusterer's results and its argument *)

Lemma store_dedupStep_refs (h : Store.heap) (w : Q) (st st' : Store.loopState) (r : Store.ref) :
  Store.dedupStep h w (Some st) r = Some st' ->
  concat (map Store.detections (Store.closeLoop st'))
  = concat (map Store.detections (Store.closeLoop st)) ++ [r].
Proof.
  destruct st as [cs cur]. unfold Store.dedupStep. cbn [mbind option_bind].
  destruct (Store.getSample h r) as [k|] eqn:Hk; [|discriminate]. cbn [mbind option_bind].
  unfold Store.openCluster, Store.extendCluster. rewrite Hk. cbn [mbind option_bind].
  destruct cur as [cur|].
  - destruct (Qgtb (timeInSeconds k - Store.endTime cur) w).
    + intros [= <-]. unfold Store.closeLoop. cbn [fst snd Store.detections].
      rewrite ?map_app, ?concat_app. cbn [map concat Store.detections].
      rewrite ?app_nil_r, <- ?app_assoc. reflexivity.
    + destruct (Store.samplesAt h (Store.detections cur ++ [r])); [|discriminate].
      cbn [mbind option_bind]. intros [= <-]. unfold Store.closeLoop.
      cbn [fst snd Store.detections].
      rewrite ?map_app, ?concat_app. cbn [map concat Store.detections].
      rewrite ?app_nil_r, <- ?app_assoc. reflexivity.
  - intros [= <-]. unfold Store.closeLoop. cbn [fst snd Store.detections].
    rewrite ?map_app, ?concat_app. cbn [map concat Store.detections].
      rewrite ?app_nil_r, <- ?app_assoc. reflexivity.
Qed.

Lemma store_dedupLoop_none (h : Store.heap) (w : Q) (refs : list Store.ref) :
  fold_left (Store.dedupStep h w) refs None = None.
Proof. induction refs as [|r refs IH]; [reflexivity|exact IH]. Qed.

Lemma store_dedupLoop_refs (h : Store.heap) (w : Q) (refs : list Store.ref) :
  forall st st',
    fold_left (Store.dedupStep h w) refs (Some st) = Some st' ->
    concat (map Store.detections (Store.closeLoop st'))
    = concat (map Store.detections (Store.closeLoop st)) ++ refs.
Proof.
  induction refs as [|r refs IH]; intros st st' Hrun; cbn [fold_left] in Hrun.
  - inversion Hrun; subst. now rewrite app_nil_r.
  - destruct (Store.dedupStep h w (Some st) r) as [st1|] eqn:Hstep.
    + rewrite (IH st1 st' Hrun), (store_dedupStep_refs _ _ _ _ _ Hstep), <- app_assoc.
      reflexivity.
    + rewrite store_dedupLoop_none in Hrun. discriminate.
Qed.

Lemma filterStep_refs (m : Z) (f : Store.ref) (h h' : Store.heap) (c : Store.Cluster)
    (refs : list Store.ref) :
  Store.filterStep m f (Some h) c = Some h' ->
  Store.getArr h f = Some refs ->
  h' = h
  \/ (length h' = S (length h) /\ Store.getArr h' f = Some (refs ++ [length h])).
Proof.
  intros Hstep Harr. unfold Store.filterStep in Hstep. cbn [mbind option_bind] in Hstep.
  destruct (m <=? Z.of_nat (length (Store.detections c)))%Z; [|left; congruence].
  destruct (mapM (Store.deref h) (Store.detections c)) as [ds|]; [|discriminate].
  cbn [mbind option_bind] in Hstep.
  destruct (Array_reduce1 Store.betterRef ds) as [representative|]; [|discriminate].
  cbn [mbind option_bind] in Hstep. unfold Store.alloc, Store.push in Hstep.
  assert (Hext : forall cell, Store.getArr (h ++ [cell]) f = Some refs).
  { intros cell. eapply getArr_extend; [|exact Harr]. apply prefix_app_r. reflexivity. }
  rewrite Hext in Hstep. cbn [mbind option_bind] in Hstep.
  injection Hstep as <-. right. split.
  - rewrite length_insert, length_app. cbn [length]. lia.
  - eapply getArr_insert. apply Hext.
Qed.

Lemma filterLoop_none (m : Z) (f : Store.ref) (cs : list Store.Cluster) :
  fold_left (Store.filterStep m f) cs None = None.
Proof. induction cs as [|c cs IH]; [reflexivity|exact IH]. Qed.

(** Every reference pushed on the result array by the filtering loop is a
    cell allocated during the loop, and none is pushed twice. *)
Lemma filterLoop_fresh (m : Z) (f : Store.ref) (cs : list Store.Cluster) :
  forall (h h' : Store.heap) (refs : list Store.ref) (n : nat),
    fold_left (Store.filterStep m f) cs (Some h) = Some h' ->
    Store.getArr h f = Some refs ->
    Forall (fun r => (n <= r < length h)%nat) refs -> NoDup refs -> (n <= length h)%nat ->
    exists refs',
      Store.getArr h' f = Some refs'
      /\ Forall (fun r => (n <= r < length h')%nat) refs' /\ NoDup refs'.
Proof.
  induction cs as [|c cs IH]; intros h h' refs n Hrun Harr Hall Hnd Hn; cbn [fold_left] in Hrun.
  - inversion Hrun; subst. eauto.
  - destruct (Store.filterStep m f (Some h) c) as [h1|] eqn:Hstep.
    + destruct (filterStep_refs _ _ _ _ _ _ Hstep Harr) as [->|[Hlen Harr1]].
      * eapply IH; eauto.
      * eapply (IH h1 h' _ n Hrun Harr1); [| |lia].
        -- apply Forall_app. split.
           ++ eapply Forall_impl; [|exact Hall]. intros r Hr. cbn beta in *. lia.
           ++ repeat constructor; lia.
        -- apply List.NoDup_app; [exact Hnd|repeat constructor; intros []|].
           intros r Hr [<-|[]]. rewrite Forall_forall in Hall. apply Hall in Hr. lia.
    + rewrite filterLoop_none in Hrun. discriminate.
Qed.

Lemma samplesAt_bound (h : Store.heap) (elems : list Store.ref) samples :
  Store.samplesAt h elems = Some samples ->
  Forall (fun r => (r < length h)%nat) elems.
Proof.
  intros Hs. apply samplesAt_Forall2 in Hs.
  induction Hs as [|r s refs ss Hr _ IH]; constructor; [|exact IH].
  unfold Store.getSample in Hr. destruct (h !! r) eqn:E; [|discriminate].
  now apply lookup_lt_Some in E.
Qed.

(** X24.  The records [deduplicateKillScreens] returns are new objects.
    Over the store, the returned array and every record in it are cells
    allocated during the call: none is the caller's array or one of the
    caller's sample objects, also when a cluster has a single detection,
    and no record occurs twice in the result. *)
Theorem results_are_new_objects (h : list Store.cell) (killScreens : nat)
    (elems : list nat) (samples : list KillScreenTimestamp)
    (mergeWindowSeconds : Q) (minConsecutiveDetections : Z) :
  Store.getArr h killScreens = Some elems ->
  Store.samplesAt h elems = Some samples ->
  exists out h' outRefs,
    Store.deduplicateKillScreens h killScreens mergeWindowSeconds minConsecutiveDetections
    = Some (out, h')
    /\ Store.getArr h' out = Some outRefs
    /\ (length h <= out < length h')%nat
    /\ out <> killScreens
    /\ Forall (fun r => (out < r < length h')%nat /\ ~ In r elems) outRefs
    /\ NoDup outRefs.
Proof.
  intros Hks Hs.
  assert (Hkb : (killScreens < length h)%nat).
  { unfold Store.getArr in Hks. destruct (h !! killScreens) eqn:E; [|discriminate].
    now apply lookup_lt_Some in E. }
  pose proof (samplesAt_bound _ _ _ Hs) as Hbound.
  unfold Store.deduplicateKillScreens. rewrite Hks. cbn [mbind option_bind].
  destruct (length elems =? 0)%nat eqn:E.
  - exists (length h), (h ++ [Store.Arr []]), [].
    split; [reflexivity|]. split; [apply getArr_alloc|].
    rewrite length_app. cbn [length]. repeat split; try lia; constructor.
  - destruct (sortedCopy_run h elems samples Hs) as (sortedRefs & Hsort & Hpts).
    unfold Store.alloc. rewrite Hsort. cbn [mbind option_bind].
    rewrite getArr_alloc. cbn [mbind option_bind].
    set (h2 := h ++ [Store.Arr sortedRefs]) in *.
    destruct (dedupLoop_refines h2 mergeWindowSeconds sortedRefs _ Hpts ([], None) ([], None))
      as (st & Hloop & Hst); [split; constructor|].
    rewrite Hloop. cbn [mbind option_bind].
    pose proof (closeLoop_refines _ _ _ Hst) as Hcs.
    destruct (dedupClusters_apart mergeWindowSeconds (Array_sort compareByTime samples)
                (Array_sort_sorted samples)) as [_ Hne].
    destruct (filterLoop_run h2 (length h2) minConsecutiveDetections _ _ eq_refl Hcs Hne
                (h2 ++ [Store.Arr []]) [] [])
      as (h4 & outRefs & Hrun & Hp4 & Harr4 & _).
    { apply prefix_app_r. reflexivity. }
    { apply getArr_alloc. }
    { reflexivity. }
    rewrite Hrun. cbn [mbind option_bind].
    destruct (filterLoop_fresh minConsecutiveDetections (length h2) _ _ _ []
                (length (h2 ++ [Store.Arr []])) Hrun (getArr_alloc h2 []))
      as (refs' & Harr' & Hall & Hnd); [constructor|constructor|lia|].
    rewrite Harr4 in Harr'. injection Harr' as <-.
    assert (Hlen2 : length h2 = S (length h))
      by (unfold h2; rewrite length_app; cbn [length]; lia).
    assert (Hlen4 : (length h2 < length h4)%nat).
    { unfold Store.getArr in Harr4. destruct (h4 !! length h2) eqn:E4; [|discriminate].
      now apply lookup_lt_Some in E4. }
    exists (length h2), h4, outRefs.
    split; [reflexivity|]. split; [exact Harr4|].
    split; [lia|]. split; [lia|]. split; [|exact Hnd].
    eapply Forall_impl; [|exact Hall]. intros r Hr. cbn beta in Hr.
    rewrite length_app in Hr. cbn [length] in Hr.
    split; [lia|]. intros Hin. rewrite Forall_forall in Hbound.
    apply Hbound in Hin. lia.
Qed.

Lemma results_are_new_objects_witness :
  exists out h' outRefs,
    Store.deduplicateKillScreens unsortedStore 3 2 2 = Some (out, h')
    /\ Store.getArr h' out = Some outRefs
    /\ (length unsortedStore <= out < length h')%nat
    /\ out <> 3%nat
    /\ Forall (fun r => (out < r < length h')%nat /\ ~ In r [0%nat; 2%nat; 1%nat]) outRefs
    /\ NoDup outRefs.
Proof.
  apply (results_are_new_objects unsortedStore 3 [0%nat; 2%nat; 1%nat]
           [ mkKillScreenTimestamp 502 100.4 0.79;
             mkKillScreenTimestamp 501 100.2 0.85;
             mkKillScreenTimestamp 500 100.0 0.82 ] 2 2).
  - reflexivity.
  - reflexivity.
Defined.

(** X25.  The clusters [analyzeDetectionClusters] returns share the
    caller's sample objects.  Over the store, the call allocates at most
    one cell, the sorted copy of the array, and no sample object; the
    detections of the clusters, read in order, are the references of that
    sorted copy, which are the references of the caller's array, each as
    often as it occurs there. *)
Theorem analysis_shares_samples (h : list Store.cell) (killScreens : nat)
    (elems : list nat) (samples : list KillScreenTimestamp) :
  Store.getArr h killScreens = Some elems ->
  Store.samplesAt h elems = Some samples ->
  exists analysis h',
    Store.analyzeDetectionClusters h killScreens = Some (analysis, h')
    /\ Permutation elems (concat (map Store.detections (Store.clusters analysis)))
    /\ Store.samplesAt h (concat (map Store.detections (Store.clusters analysis)))
       = Some (Array_sort compareByTime samples)
    /\ (h' = h
        \/ h' = h ++ [Store.Arr (concat (map Store.detections (Store.clusters analysis)))]).
Proof.
  intros Hks Hs. pose proof (samples_length _ _ _ Hs) as Hlen.
  unfold Store.analyzeDetectionClusters. rewrite Hks. cbn [mbind option_bind].
  destruct (length elems =? 0)%nat eqn:E.
  - apply Nat.eqb_eq in E. destruct elems; [|discriminate].
    destruct samples; [|discriminate].
    eexists _, _. split; [reflexivity|]. cbn. split; [constructor|]. split; [reflexivity|].
    now left.
  - assert (Hp : h `prefix_of` h ++ [Store.Arr elems]) by (apply prefix_app_r; reflexivity).
    destruct (sortInPlace_run (h ++ [Store.Arr elems]) (length h) elems samples
                (getArr_alloc h elems) (samplesAt_extend _ _ _ _ Hp Hs))
      as (sortedRefs & Hsort & Hperm & Hpts0).
    rewrite insert_last in Hsort.
    destruct (sortedCopy_run h elems samples Hs) as (sortedRefs' & Hsort' & Hpts).
    rewrite Hsort in Hsort'. injection Hsort' as Heq.
    apply app_inj_tail in Heq as [_ Heq]. injection Heq as <-.
    unfold Store.alloc. rewrite Hsort. cbn [mbind option_bind].
    rewrite getArr_alloc. cbn [mbind option_bind].
    set (h2 := h ++ [Store.Arr sortedRefs]) in *.
    rewrite analyzeLoop_store.
    destruct (dedupLoop_refines h2 2 sortedRefs _ Hpts ([], None) ([], None))
      as (st & Hloop & Hst); [split; constructor|].
    rewrite Hloop. cbn [mbind option_bind].
    pose proof (store_dedupLoop_refs _ _ _ _ _ Hloop) as Hrefs.
    cbn in Hrefs.
    eexists _, _. split; [reflexivity|]. cbn [Store.clusters]. rewrite Hrefs.
    split; [exact Hperm|]. split; [|now right].
    apply samplesAt_Forall2.
    eapply Forall2_impl; [|exact Hpts0]. intros r s Hr. cbn beta in Hr.
    unfold Store.getSample in *.
    destruct (lookup_lt_is_Some_2 (h ++ [Store.Arr elems]) r) as [c Hc].
    { destruct ((h ++ [Store.Arr elems]) !! r) eqn:E'; [|discriminate].
      now apply lookup_lt_Some in E'. }
    rewrite Hc in Hr. destruct c as [s'|]; [|discriminate].
    apply lookup_app_Some in Hc as [Hc|[Hge Hc]]; [now rewrite Hc|].
    destruct (r - length h)%nat; cbn in Hc; discriminate.
Qed.

Lemma analysis_shares_samples_witness :
  exists analysis h',
    Store.analyzeDetectionClusters unsortedStore 3 = Some (analysis, h')
    /\ Permutation [0%nat; 2%nat; 1%nat]
                   (concat (map Store.detections (Store.clusters analysis)))
    /\ Store.samplesAt unsortedStore
         (concat (map Store.detections (Store.clusters analysis)))
       = Some (Array_sort compareByTime
                 [ mkKillScreenTimestamp 502 100.4 0.79;
                   mkKillScreenTimestamp 501 100.2 0.85;
                   mkKillScreenTimestamp 500 100.0 0.82 ])
    /\ (h' = unsortedStore
        \/ h' = unsortedStore
                ++ [Store.Arr (concat (map Store.detections (Store.clusters analysis)))]).
Proof.
  apply (analysis_shares_samples unsortedStore 3 [0%nat; 2%nat; 1%nat]
           [ mkKillScreenTimestamp 502 100.4 0.79;
             mkKillScreenTimestamp 501 100.2 0.85;
             mkKillScreenTimestamp 500 100.0 0.82 ]).
  - reflexivity.
  - reflexivity.
Defined.

(** ** The names of the segment files *)








